(** * FontPeek: font-face discovery and parsing

    A shallow embedding of the font discovery code of FontPeek
    (utils/fontExtractor.ts and the inline parser and proxy fetcher of
    App.tsx) together with the properties its specification states.

    Strings are sequences of code units.  The embedding covers the code units
    below 256 (Latin-1), written as [ascii]; on that range [toLowerCase], [trim]
    and the regular-expression classes are as ECMAScript defines them. *)

From Stdlib Require Import Ascii String List Arith Bool Lia.
Import ListNotations.

Set Implicit Arguments.

(* ===================================================================== *)
(** * Strings *)
(* ===================================================================== *)

Definition jsstring := list ascii.

Definition js (s : string) : jsstring := list_ascii_of_string s.

Definition code (c : ascii) : nat := nat_of_ascii c.

Definition chr_eqb (a b : ascii) : bool := Ascii.eqb a b.

Definition dquote : ascii := ascii_of_nat 34.
Definition squote : ascii := ascii_of_nat 39.

Fixpoint str_eqb (a b : jsstring) : bool :=
  match a, b with
  | [], [] => true
  | x :: a', y :: b' => chr_eqb x y && str_eqb a' b'
  | _, _ => false
  end.

(** [\d] *)
Definition is_digit (c : ascii) : bool :=
  (48 <=? code c) && (code c <=? 57).

(** [\s] and the characters removed by [trim]: WhiteSpace and LineTerminator
    (TAB, LF, VT, FF, CR, SP, NBSP below 256). *)
Definition is_space (c : ascii) : bool :=
  ((9 <=? code c) && (code c <=? 13)) || (code c =? 32) || (code c =? 160).

(** [String.prototype.toLowerCase], one code unit. *)
Definition lower_chr (c : ascii) : ascii :=
  let n := code c in
  if ((65 <=? n) && (n <=? 90))
     || ((192 <=? n) && (n <=? 222) && negb (n =? 215))
  then ascii_of_nat (n + 32) else c.

Definition toLowerCase (s : jsstring) : jsstring := map lower_chr s.

(** Canonicalize of a case-insensitive RegExp without the unicode flag: a code
    unit is mapped to its upper case, except that a code unit of 128 or more is
    never mapped below 128.  Only what it does to ASCII is needed, since every
    pattern letter in the source is ASCII. *)
Definition upper_ascii (c : ascii) : ascii :=
  let n := code c in
  if (97 <=? n) && (n <=? 122) then ascii_of_nat (n - 32) else c.

Fixpoint trimStart (s : jsstring) : jsstring :=
  match s with
  | c :: s' => if is_space c then trimStart s' else s
  | [] => []
  end.

Definition trim (s : jsstring) : jsstring :=
  rev (trimStart (rev (trimStart s))).

Fixpoint startsWith (s p : jsstring) : bool :=
  match p, s with
  | [], _ => true
  | x :: p', y :: s' => chr_eqb x y && startsWith s' p'
  | _ :: _, [] => false
  end.

(** [s.includes(sub)] *)
Fixpoint includes (s sub : jsstring) : bool :=
  startsWith s sub ||
  match s with
  | [] => false
  | _ :: s' => includes s' sub
  end.

(** [s.split(sep)] for a separator of one code unit; never the empty array. *)
Fixpoint split (sep : ascii) (s : jsstring) : list jsstring :=
  match s with
  | [] => [[]]
  | c :: s' =>
      if chr_eqb c sep then [] :: split sep s'
      else match split sep s' with
           | h :: t => (c :: h) :: t
           | [] => [[c]]
           end
  end.

(** [arr.pop()] on a fresh array: its last element, if any. *)
Definition pop (l : list jsstring) : option jsstring :=
  match rev l with
  | x :: _ => Some x
  | [] => None
  end.

(** [s.replace(/c/g, d)] for a one-character pattern [c]. *)
Definition replace_chr (c d : ascii) (s : jsstring) : jsstring :=
  map (fun x => if chr_eqb x c then d else x) s.

(** [s.replace(/[^\d]/g, '')] *)
Definition strip_non_digits (s : jsstring) : jsstring := filter is_digit s.

(* ===================================================================== *)
(** * Outcomes of a computation *)
(* ===================================================================== *)

Inductive exn : Type :=
| TypeError (what : jsstring)      (* member access on undefined, invalid URL *)
| Error (message : jsstring).

Inductive outcome (A : Type) : Type :=
| Ok (a : A)
| Throw (e : exn)
| Diverge.                          (* a loop that never ends *)

Arguments Ok {A} a.
Arguments Throw {A} e.
Arguments Diverge {A}.

Definition bind {A B} (m : outcome A) (f : A -> outcome B) : outcome B :=
  match m with
  | Ok a => f a
  | Throw e => Throw e
  | Diverge => Diverge
  end.

Notation "x <- m ;; k" := (bind m (fun x => k))
  (at level 61, m at next level, right associativity).

(** [try { m } catch { h }] *)
Definition try_catch {A} (m : outcome A) (h : exn -> outcome A) : outcome A :=
  match m with
  | Throw e => h e
  | _ => m
  end.

(** [v.member] where [v] may be undefined *)
Definition defined {A} (what : string) (o : option A) : outcome A :=
  match o with
  | Some a => Ok a
  | None => Throw (TypeError (js what))
  end.

(* ===================================================================== *)
(** * Regular expressions *)
(* ===================================================================== *)

(** The fragment of RegExp syntax the source uses: literals and classes, greedy
    star, plus and question mark, alternation, capturing and non-capturing
    groups.  No source pattern has a capturing group under a quantifier, so the
    reset of captures at each iteration is not represented. *)
Inductive regex : Type :=
| Eps
| Chr (p : ascii -> bool)
| Seq (r1 r2 : regex)
| Alt (r1 r2 : regex)
| Star (r : regex)
| Group (i : nat) (r : regex).

Definition Plus (r : regex) : regex := Seq r (Star r).
Definition Opt (r : regex) : regex := Alt r Eps.

(** A literal character under the [i] flag. *)
Definition lit_i (c : ascii) : regex :=
  Chr (fun x => chr_eqb (upper_ascii x) (upper_ascii c)).

Fixpoint word_i (w : jsstring) : regex :=
  match w with
  | [] => Eps
  | c :: w' => Seq (lit_i c) (word_i w')
  end.

(** [[^...]] *)
Definition none_of (p : ascii -> bool) : regex := Chr (fun x => negb (p x)).

Definition one_of (cs : jsstring) (x : ascii) : bool :=
  existsb (chr_eqb x) cs.

(** Captures, newest first. *)
Definition captures := list (nat * jsstring).

Fixpoint capture (i : nat) (c : captures) : option jsstring :=
  match c with
  | [] => None
  | (j, w) :: c' => if i =? j then Some w else capture i c'
  end.

(** The text between two positions of one string, each given by what is left
    to read. *)
Definition consumed (s s1 : jsstring) : jsstring :=
  firstn (length s - length s1) s.

Section Matcher.
Variable R : Type.

Definition cont := jsstring -> captures -> option R.

(** Greedy iteration of a matcher [m]: one more turn of [m] first, the rest
    of the pattern [k] when that fails.  A turn that reads nothing is
    rejected, so [n] turns can be taken only on [n] code units or more. *)
Fixpoint star_iter (m : jsstring -> captures -> cont -> option R) (k : cont)
    (n : nat) (s : jsstring) (c : captures) {struct n} : option R :=
  match
    match n with
    | 0 => None
    | S n' =>
        m s c (fun s1 c1 =>
                 if length s1 <? length s then star_iter m k n' s1 c1
                 else None)
    end
  with
  | Some x => Some x
  | None => k s c
  end.

(** The backtracking matcher, in continuation-passing style as in the
    ECMAScript definition: [k] is the rest of the pattern, and the first
    alternative for which the rest succeeds wins. *)
Fixpoint rmatch (r : regex) (s : jsstring) (c : captures) (k : cont)
    {struct r} : option R :=
  match r with
  | Eps => k s c
  | Chr p =>
      match s with
      | a :: s' => if p a then k s' c else None
      | [] => None
      end
  | Seq r1 r2 => rmatch r1 s c (fun s1 c1 => rmatch r2 s1 c1 k)
  | Alt r1 r2 =>
      match rmatch r1 s c k with
      | Some x => Some x
      | None => rmatch r2 s c k
      end
  | Star r1 => star_iter (rmatch r1) k (length s) s c
  | Group i r1 =>
      rmatch r1 s c (fun s1 c1 => k s1 ((i, consumed s s1) :: c1))
  end.
End Matcher.

(** A successful match: what is left of the input after it, and its captures. *)
Definition rmatch_at (r : regex) (s : jsstring) : option (jsstring * captures) :=
  rmatch r s [] (fun s1 c1 => Some (s1, c1)).

(** The first position, from the start of [s] on, at which [r] matches. *)
Fixpoint search (r : regex) (s : jsstring) : option (jsstring * captures) :=
  match rmatch_at r s with
  | Some m => Some m
  | None =>
      match s with
      | [] => None
      | _ :: s' => search r s'
      end
  end.

(** [str.match(re)] for a pattern without the [g] flag. *)
Definition str_match (r : regex) (s : jsstring) : option captures :=
  option_map snd (search r s).

(** [while ((m = re.exec(s)) !== null) { body }] for a pattern with the [g]
    flag and a body that leaves [re] and [s] alone.  [lastIndex] moves to the
    end of each match, so a match that reads nothing is found again for ever;
    [fuel] bounds the number of turns: every turn of a loop that ends reads at
    least one code unit. *)
Fixpoint while_exec {St : Type} (fuel : nat) (r : regex) (s : jsstring)
    (body : St -> captures -> outcome St) (st : St) : outcome St :=
  match fuel with
  | 0 => Diverge
  | S fuel' =>
      match search r s with
      | None => Ok st
      | Some (s1, m) =>
          st' <- body st m ;; while_exec fuel' r s1 body st'
      end
  end.

Definition for_each_match {St : Type} (r : regex) (s : jsstring)
    (body : St -> captures -> outcome St) (st : St) : outcome St :=
  while_exec (S (length s)) r s body st.

Fixpoint seqs (rs : list regex) : regex :=
  match rs with
  | [] => Eps
  | [r] => r
  | r :: rs' => Seq r (seqs rs')
  end.

Fixpoint alts (rs : list regex) : regex :=
  match rs with
  | [] => Chr (fun _ => false)
  | [r] => r
  | r :: rs' => Alt r (alts rs')
  end.

Definition ws : regex := Chr is_space.            (* \s *)
Definition digit : regex := Chr is_digit.         (* \d *)
Definition quote_opt : regex :=                   (* an optional quote *)
  Opt (Chr (one_of [squote; dquote])).

(** ** What a match is

    [matches r s c s1 c1]: [r] can read a prefix of [s] and leave [s1], taking
    the captures from [c] to [c1].  The matcher only ever answers with such a
    match (lemma [rmatch_sound] below). *)
Inductive matches : regex -> jsstring -> captures -> jsstring -> captures -> Prop :=
| M_Eps s c : matches Eps s c s c
| M_Chr p a s c : p a = true -> matches (Chr p) (a :: s) c s c
| M_Seq r1 r2 s c s1 c1 s2 c2 :
    matches r1 s c s1 c1 -> matches r2 s1 c1 s2 c2 ->
    matches (Seq r1 r2) s c s2 c2
| M_AltL r1 r2 s c s1 c1 : matches r1 s c s1 c1 -> matches (Alt r1 r2) s c s1 c1
| M_AltR r1 r2 s c s1 c1 : matches r2 s c s1 c1 -> matches (Alt r1 r2) s c s1 c1
| M_Star0 r s c : matches (Star r) s c s c
| M_StarS r s c s1 c1 s2 c2 :
    matches r s c s1 c1 -> length s1 < length s ->
    matches (Star r) s1 c1 s2 c2 -> matches (Star r) s c s2 c2
| M_Group i r s c s1 c1 :
    matches r s c s1 c1 -> matches (Group i r) s c s1 ((i, consumed s s1) :: c1).

(** Two continuations that agree on what can be left of [s]. *)
Definition agree_below {R} (s : jsstring) (k1 k2 : cont R) : Prop :=
  forall s1 c1, length s1 <= length s -> k1 s1 c1 = k2 s1 c1.

(** The least number of code units a match of [r] reads. *)
Fixpoint min_len (r : regex) : nat :=
  match r with
  | Eps => 0
  | Chr _ => 1
  | Seq r1 r2 => min_len r1 + min_len r2
  | Alt r1 r2 => Nat.min (min_len r1) (min_len r2)
  | Star _ => 0
  | Group _ r1 => min_len r1
  end.

(** Group [i] takes part in every match of [r]. *)
Fixpoint always_sets (i : nat) (r : regex) : bool :=
  match r with
  | Eps | Chr _ | Star _ => false
  | Seq r1 r2 => always_sets i r1 || always_sets i r2
  | Alt r1 r2 => always_sets i r1 && always_sets i r2
  | Group j r1 => (i =? j) || always_sets i r1
  end.

(** The bodies of the groups numbered [i] in [r]. *)
Fixpoint group_bodies (i : nat) (r : regex) : list regex :=
  match r with
  | Eps | Chr _ => []
  | Seq r1 r2 | Alt r1 r2 => group_bodies i r1 ++ group_bodies i r2
  | Star r1 => group_bodies i r1
  | Group j r1 => (if i =? j then [r1] else []) ++ group_bodies i r1
  end.

(** A non-empty string of decimal digits. *)
Definition numeric (s : jsstring) : bool :=
  match s with
  | [] => false
  | _ => forallb is_digit s
  end.

(* ===================================================================== *)
(** * Object literals used as lookup tables *)
(* ===================================================================== *)

(** What a property read can give at run time: a string, or a member that the
    object literal inherits from [Object.prototype] (a function or an object,
    always truthy). *)
Inductive jsval : Type :=
| VStr (s : jsstring)
| VInherited (name : jsstring).

Definition Object_prototype_keys : list jsstring :=
  map js ["constructor"; "__defineGetter__"; "__defineSetter__";
          "hasOwnProperty"; "__lookupGetter__"; "__lookupSetter__";
          "isPrototypeOf"; "propertyIsEnumerable"; "toString"; "valueOf";
          "__proto__"; "toLocaleString"]%string.

Fixpoint own_property (tbl : list (jsstring * jsstring)) (k : jsstring) : option jsstring :=
  match tbl with
  | [] => None
  | (k', v) :: tbl' => if str_eqb k k' then Some v else own_property tbl' k
  end.

(** [tbl[k]]: an own property, else an inherited one, else undefined. *)
Definition get_property (tbl : list (jsstring * jsstring)) (k : jsstring) : option jsval :=
  match own_property tbl k with
  | Some v => Some (VStr v)
  | None =>
      if existsb (str_eqb k) Object_prototype_keys then Some (VInherited k)
      else None
  end.

Definition truthy (v : jsval) : bool :=
  match v with
  | VStr [] => false
  | _ => true
  end.

(** [o || d] *)
Definition or_else (o : option jsval) (d : jsval) : jsval :=
  match o with
  | Some v => if truthy v then v else d
  | None => d
  end.

(** A [Map] with string keys; it keeps its entries in insertion order. *)
Definition Map (V : Type) := list (jsstring * V).

Definition Map_has {V} (m : Map V) (k : jsstring) : bool :=
  existsb (fun e => str_eqb (fst e) k) m.

Fixpoint Map_get {V} (m : Map V) (k : jsstring) : option V :=
  match m with
  | [] => None
  | (k', v) :: m' => if str_eqb k' k then Some v else Map_get m' k
  end.

(** [m.set(k, v)]: a present key keeps its place. *)
Fixpoint Map_set {V} (m : Map V) (k : jsstring) (v : V) : Map V :=
  match m with
  | [] => [(k, v)]
  | (k', v') :: m' =>
      if str_eqb k' k then (k', v) :: m' else (k', v') :: Map_set m' k v
  end.

(** [Array.from(m.values())] *)
Definition Map_values {V} (m : Map V) : list V := map snd m.

(** types/index.ts; [previewUrl] is never written by the code below. *)
Record FontInfo : Type := mkFontInfo {
  family : jsstring;
  style : jsstring;
  weight : jsval;
  source : jsstring;
  url : option jsstring;
  format : option jsval
}.

(* ===================================================================== *)
(** * utils/fontExtractor.ts *)
(* ===================================================================== *)

Module FontExtractor.

(** /@font-face\s*\{([^}]*(?:\{[^}]*\}[^}]* )* )\}/gi, the comment of which
    reads: improved to handle nested content.  (Here and below a space keeps a
    star and a closing parenthesis apart, and quote stands for the class of
    the two quote characters.) *)
Definition fontFaceRegex : regex :=
  let not_close := none_of (one_of (js "}")) in
  seqs [word_i (js "@font-face"); Star ws; lit_i "{";
        Group 1 (Seq (Star not_close)
                     (Star (seqs [lit_i "{"; Star not_close; lit_i "}";
                                  Star not_close])));
        lit_i "}"].

(** /font-family\s*:\s*[quote]?([^quotes;,]+)[quote]?/i *)
Definition familyRegex : regex :=
  seqs [word_i (js "font-family"); Star ws; lit_i ":"; Star ws; quote_opt;
        Group 1 (Plus (none_of (one_of (squote :: dquote :: js ";,"))));
        quote_opt].

(** /font-weight\s*:\s*(\d+|normal|bold|lighter|bolder)/i *)
Definition weightRegex : regex :=
  seqs [word_i (js "font-weight"); Star ws; lit_i ":"; Star ws;
        Group 1 (alts [Plus digit; word_i (js "normal"); word_i (js "bold");
                       word_i (js "lighter"); word_i (js "bolder")])].

(** /font-style\s*:\s*(normal|italic|oblique)/i *)
Definition styleRegex : regex :=
  seqs [word_i (js "font-style"); Star ws; lit_i ":"; Star ws;
        Group 1 (alts [word_i (js "normal"); word_i (js "italic");
                       word_i (js "oblique")])].

(** /src\s*:\s*([^;]+)/is *)
Definition srcRegex : regex :=
  seqs [word_i (js "src"); Star ws; lit_i ":"; Star ws;
        Group 1 (Plus (none_of (one_of (js ";"))))].

(** url\([quote]?([^quotes)\s]+)[quote]?\) *)
Definition url_part : list regex :=
  [word_i (js "url("); quote_opt;
   Group 1 (Plus (none_of (fun x => one_of (squote :: dquote :: js ")") x
                                    || is_space x)));
   quote_opt; lit_i ")"].

(** /url\(...\)\s*format\([quote]?([^quotes()]+)[quote]?\)/gi *)
Definition urlRegex : regex :=
  seqs (url_part ++
        [Star ws; word_i (js "format("); quote_opt;
         Group 2 (Plus (none_of (one_of (squote :: dquote :: js "()"))));
         quote_opt; lit_i ")"]).

(** /url\([quote]?([^quotes)\s]+)[quote]?\)/gi *)
Definition simpleUrlRegex : regex := seqs url_part.

Definition weightMap : list (jsstring * jsstring) :=
  [(js "normal", js "400"); (js "bold", js "700");
   (js "lighter", js "300"); (js "bolder", js "700")].

Definition normalizeWeight (weight : jsstring) : jsval :=
  or_else (get_property weightMap (toLowerCase weight)) (VStr weight).

Definition formatMap : list (jsstring * jsstring) :=
  [(js "woff2", js "woff2"); (js "woff", js "woff"); (js "ttf", js "truetype");
   (js "otf", js "opentype"); (js "eot", js "embedded-opentype")].

(** [url.split('.').pop()?.toLowerCase().split('?')[0]] *)
Definition extension_of (url : jsstring) : option jsstring :=
  match pop (split "." url) with
  | Some e => Some (hd [] (split "?" (toLowerCase e)))
  | None => None
  end.

Definition getFormatFromUrl (url : jsstring) : jsval :=
  let key := match extension_of url with
             | Some ((_ :: _) as e) => e
             | _ => []
             end in
  or_else (get_property formatMap key) (VStr (js "unknown")).

Section Platform.
(** [new URL(u, base).href], or nothing when the constructor throws. *)
Variable URL_href : jsstring -> jsstring -> option jsstring.
(** [new URL(base).hostname], or nothing when the constructor throws. *)
Variable URL_hostname : jsstring -> option jsstring.
(** [new URL(u).searchParams.get(name)]: nothing when the constructor throws,
    [Some None] for null. *)
Variable URL_searchParam : jsstring -> jsstring -> option (option jsstring).

Definition new_URL_href (u base : jsstring) : outcome jsstring :=
  match URL_href u base with
  | Some h => Ok h
  | None => Throw (TypeError (js "Invalid URL"))
  end.

Definition new_URL_hostname (base : jsstring) : outcome jsstring :=
  match URL_hostname base with
  | Some h => Ok h
  | None => Throw (TypeError (js "Invalid URL"))
  end.

(** The [try { ... fonts.push({...}) } catch { }] of both loops. *)
Definition push_font (baseUrl family weight style fontUrl : jsstring)
    (fmt : jsval) (fonts : list FontInfo) : outcome (list FontInfo) :=
  try_catch
    (fullUrl <- new_URL_href fontUrl baseUrl ;;
     host <- new_URL_hostname baseUrl ;;
     Ok (fonts ++ [ {| family := family;
                       weight := normalizeWeight weight;
                       style := style;
                       source := host;
                       url := Some fullUrl;
                       format := Some fmt |} ]))
    (fun _ => Ok fonts).

(** Body of the loop over [urlRegex]. *)
Definition pair_step (baseUrl family weight style : jsstring)
    (fonts : list FontInfo) (urlMatch : captures) : outcome (list FontInfo) :=
  fontUrl <- defined "urlMatch[1]" (capture 1 urlMatch) ;;
  fmt <- defined "urlMatch[2]" (capture 2 urlMatch) ;;
  push_font baseUrl family weight style fontUrl (VStr (toLowerCase fmt)) fonts.

(** [fonts.some(f => f.url?.includes(fontUrl))] *)
Definition already_matched (fonts : list FontInfo) (fontUrl : jsstring) : bool :=
  existsb (fun f => match url f with
                    | Some u => includes u fontUrl
                    | None => false
                    end) fonts.

(** Body of the loop over [simpleUrlRegex]. *)
Definition simple_step (baseUrl family weight style : jsstring)
    (fonts : list FontInfo) (simpleMatch : captures) : outcome (list FontInfo) :=
  fontUrl <- defined "simpleMatch[1]" (capture 1 simpleMatch) ;;
  if already_matched fonts fontUrl then Ok fonts
  else push_font baseUrl family weight style fontUrl
         (getFormatFromUrl fontUrl) fonts.

(** Body of the loop over [fontFaceRegex]. *)
Definition block_step (baseUrl : jsstring) (fonts : list FontInfo)
    (m : captures) : outcome (list FontInfo) :=
  block <- defined "match[1]" (capture 1 m) ;;
  family <- match str_match familyRegex block with
            | Some familyMatch =>
                f <- defined "familyMatch[1]" (capture 1 familyMatch) ;;
                Ok (trim f)
            | None => Ok (js "Unknown")
            end ;;
  weight <- match str_match weightRegex block with
            | Some weightMatch => defined "weightMatch[1]" (capture 1 weightMatch)
            | None => Ok (js "400")
            end ;;
  style <- match str_match styleRegex block with
           | Some styleMatch => defined "styleMatch[1]" (capture 1 styleMatch)
           | None => Ok (js "normal")
           end ;;
  match str_match srcRegex block with
  | Some srcMatch =>
      srcValue <- defined "srcMatch[1]" (capture 1 srcMatch) ;;
      fonts1 <- for_each_match urlRegex srcValue
                  (pair_step baseUrl family weight style) fonts ;;
      for_each_match simpleUrlRegex srcValue
        (simple_step baseUrl family weight style) fonts1
  | None => Ok fonts
  end.

Definition parseFontFaces (cssText baseUrl : jsstring) : outcome (list FontInfo) :=
  for_each_match fontFaceRegex cssText (block_step baseUrl) [].

(** One weight token of a Google Fonts family segment. *)
Definition google_weight (fontName w : jsstring) : FontInfo :=
  let isItalic := includes w (js "i") || includes w (js "italic") in
  let weight := match strip_non_digits w with
                | [] => js "400"
                | d => d
                end in
  {| family := fontName; weight := VStr weight;
     style := if isItalic then js "italic" else js "normal";
     source := js "Google Fonts"; url := None; format := None |}.

(** Body of [families.forEach]. *)
Definition google_family (family : jsstring) : list FontInfo :=
  let parts := split ":" family in
  let name := hd [] parts in
  let fontName := replace_chr "+" " " name in
  match nth_error parts 1 with
  | Some ((_ :: _) as weights) => map (google_weight fontName) (split "," weights)
  | _ => [ {| family := fontName; weight := VStr (js "400");
              style := js "normal"; source := js "Google Fonts";
              url := None; format := None |} ]
  end.

Definition parseGoogleFontsUrl (url : jsstring) : list FontInfo :=
  match URL_searchParam url (js "family") with
  | Some (Some ((_ :: _) as familyParam)) =>
      flat_map google_family (split "|" familyParam)
  | _ => []
  end.
End Platform.

(** The text of an inherited member when it is put into a template string is
    left to the engine; [inherited_text] stands for it. *)
Section Dedupe.
Variable inherited_text : jsstring -> jsstring.

Definition to_text (v : jsval) : jsstring :=
  match v with
  | VStr s => s
  | VInherited name => inherited_text name
  end.

(** [`${font.family}-${font.weight}-${font.style}`] *)
Definition key_of (font : FontInfo) : jsstring :=
  family font ++ js "-" ++ to_text (weight font) ++ js "-" ++ style font.

(** The reducer of [fonts.reduce]. *)
Definition dedupe_step (acc : Map FontInfo) (font : FontInfo) : Map FontInfo :=
  let key := key_of font in
  if negb (Map_has acc key) then Map_set acc key font else acc.

(** The last statements of [extractFontsFromCSS]. *)
Definition dedupe (fonts : list FontInfo) : list FontInfo :=
  Map_values (fold_left dedupe_step fonts []).
End Dedupe.

End FontExtractor.

(* ===================================================================== *)
(** * App.tsx *)
(* ===================================================================== *)

Module App.

Record FontWeight : Type := mkFontWeight {
  weight : jsstring;
  style : jsstring;
  url : jsstring;
  format : jsstring
}.

Definition CORS_PROXIES : list jsstring :=
  [js "https://corsproxy.io/?"; js "https://api.allorigins.win/raw?url="].

(** [encodeURIComponent]: letters, digits and - _ . ! ~ * ' ( ) stay, every
    other code unit becomes the percent-escapes of its UTF-8 bytes. *)
Definition unreserved (c : ascii) : bool :=
  let n := code c in
  ((65 <=? n) && (n <=? 90)) || ((97 <=? n) && (n <=? 122)) || is_digit c
  || one_of (squote :: js "-_.!~*()") c.

Definition hex_digit (n : nat) : ascii :=
  if n <? 10 then ascii_of_nat (48 + n) else ascii_of_nat (55 + n).

Definition percent (byte : nat) : jsstring :=
  ["%"%char; hex_digit (byte / 16); hex_digit (byte mod 16)].

Definition encode_chr (c : ascii) : jsstring :=
  let n := code c in
  if unreserved c then [c]
  else if n <? 128 then percent n
  else percent (192 + n / 64) ++ percent (128 + n mod 64).

Definition encodeURIComponent (s : jsstring) : jsstring :=
  flat_map encode_chr s.

Record Response : Type := mkResponse {
  status : nat;
  body : jsstring
}.

(** [response.ok] *)
Definition ok (r : Response) : bool :=
  (200 <=? status r) && (status r <=? 299).

Section Network.
(** What [fetch] settles to for a request URL (sent with the header
    X-Requested-With: XMLHttpRequest): a response, or nothing when the
    promise rejects. *)
Variable fetch : jsstring -> option Response.

(** The [for (const proxy of ...)] loop.  The result comes with the requests
    issued, in order. *)
Fixpoint try_proxies (proxies : list jsstring) (targetUrl : jsstring)
    : list jsstring * outcome Response :=
  match proxies with
  | [] => ([], Throw (Error (js "All proxies failed")))
  | proxy :: rest =>
      let request := proxy ++ encodeURIComponent targetUrl in
      match fetch request with
      | Some response =>
          if ok response then ([request], Ok response)
          else let (log, r) := try_proxies rest targetUrl in (request :: log, r)
      | None =>
          let (log, r) := try_proxies rest targetUrl in (request :: log, r)
      end
  end.

Definition fetchWithProxy (targetUrl : jsstring) : list jsstring * outcome Response :=
  try_proxies CORS_PROXIES targetUrl.
End Network.

(** /@font-face\s*\{([^}]+)\}/gi *)
Definition fontFaceRegex : regex :=
  seqs [word_i (js "@font-face"); Star ws; lit_i "{";
        Group 1 (Plus (none_of (one_of (js "}")))); lit_i "}"].

(** /font-family\s*:\s*[quote]?([^quotes;]+)[quote]?/i *)
Definition familyRegex : regex :=
  seqs [word_i (js "font-family"); Star ws; lit_i ":"; Star ws; quote_opt;
        Group 1 (Plus (none_of (one_of (squote :: dquote :: js ";"))));
        quote_opt].

(** /font-weight\s*:\s*(\d+|normal|bold)/i *)
Definition weightRegex : regex :=
  seqs [word_i (js "font-weight"); Star ws; lit_i ":"; Star ws;
        Group 1 (alts [Plus digit; word_i (js "normal"); word_i (js "bold")])].

Definition styleRegex : regex := FontExtractor.styleRegex.
Definition srcRegex : regex := FontExtractor.srcRegex.

(** /url\(...\)\s*format\([quote]?([^quotes]+)[quote]?\)/i *)
Definition urlFormatRegex : regex :=
  seqs (FontExtractor.url_part ++
        [Star ws; word_i (js "format("); quote_opt;
         Group 2 (Plus (none_of (one_of [squote; dquote])));
         quote_opt; lit_i ")"]).

Definition urlOnlyRegex : regex := FontExtractor.simpleUrlRegex.

Definition normalizeWeight (w : jsstring) : jsstring :=
  if str_eqb w (js "normal") then js "400"
  else if str_eqb w (js "bold") then js "700"
  else w.

Section Platform.
Variable URL_href : jsstring -> jsstring -> option jsstring.

(** [fontUrl.split('.').pop()?.split('?')[0] || ''] *)
Definition ext_of (fontUrl : jsstring) : jsstring :=
  match pop (split "." fontUrl) with
  | Some e => hd [] (split "?" e)
  | None => []
  end.

(** [if (baseUrl && !fontUrl.startsWith('http')) try { ... } catch { }] *)
Definition resolve (baseUrl : option jsstring) (fontUrl : jsstring) : jsstring :=
  match baseUrl with
  | Some ((_ :: _) as b) =>
      if negb (startsWith fontUrl (js "http")) then
        match URL_href fontUrl b with
        | Some h => h
        | None => fontUrl
        end
      else fontUrl
  | _ => fontUrl
  end.

(** The statements after [// Add to map]. *)
Definition add_to_map (fontMap : Map (list FontWeight))
    (family weight style fontUrl format : jsstring) : outcome (Map (list FontWeight)) :=
  let fontMap1 := if negb (Map_has fontMap family)
                  then Map_set fontMap family [] else fontMap in
  weights <- defined "fontMap.get(family)" (Map_get fontMap1 family) ;;
  let exists_ := existsb (fun w => str_eqb (App.weight w) weight
                                   && str_eqb (App.style w) style) weights in
  if negb exists_
  then Ok (Map_set fontMap1 family
             (weights ++ [ {| weight := weight; style := style;
                              url := fontUrl; format := format |} ]))
  else Ok fontMap1.

(** Body of the loop over [fontFaceRegex]. *)
Definition block_step (baseUrl : option jsstring)
    (fontMap : Map (list FontWeight)) (m : captures) : outcome (Map (list FontWeight)) :=
  block <- defined "match[1]" (capture 1 m) ;;
  match str_match familyRegex block with
  | None => Ok fontMap
  | Some familyMatch =>
      f <- defined "familyMatch[1]" (capture 1 familyMatch) ;;
      let family := trim f in
      weight <- match str_match weightRegex block with
                | Some weightMatch =>
                    w <- defined "weightMatch[1]" (capture 1 weightMatch) ;;
                    Ok (normalizeWeight w)
                | None => Ok (js "400")
                end ;;
      style <- match str_match styleRegex block with
               | Some styleMatch => defined "styleMatch[1]" (capture 1 styleMatch)
               | None => Ok (js "normal")
               end ;;
      match str_match srcRegex block with
      | None => Ok fontMap
      | Some srcMatch =>
          srcValue <- defined "srcMatch[1]" (capture 1 srcMatch) ;;
          found <- match str_match urlFormatRegex srcValue with
                   | Some urlFormatMatch =>
                       u <- defined "urlFormatMatch[1]" (capture 1 urlFormatMatch) ;;
                       fmt <- defined "urlFormatMatch[2]" (capture 2 urlFormatMatch) ;;
                       Ok (u, fmt)
                   | None =>
                       match str_match urlOnlyRegex srcValue with
                       | Some urlOnlyMatch =>
                           u <- defined "urlOnlyMatch[1]" (capture 1 urlOnlyMatch) ;;
                           Ok (u, ext_of u)
                       | None => Ok ([], js "woff2")
                       end
                   end ;;
          match fst found with
          | [] => Ok fontMap
          | fontUrl =>
              add_to_map fontMap family weight style
                (resolve baseUrl fontUrl) (snd found)
          end
      end
  end.

Definition parseFontFaces (css : jsstring) (fontMap : Map (list FontWeight))
    (baseUrl : option jsstring) : outcome (Map (list FontWeight)) :=
  for_each_match fontFaceRegex css (block_step baseUrl) fontMap.
End Platform.

End App.

(* ===================================================================== *)
(** * Notions used in the statements *)
(* ===================================================================== *)

(** The matches a loop over [r] sees in [s], in order. *)
Fixpoint scan (fuel : nat) (r : regex) (s : jsstring) : list captures :=
  match fuel with
  | 0 => []
  | S fuel' =>
      match search r s with
      | None => []
      | Some (s1, m) => m :: scan fuel' r s1
      end
  end.

Definition matches_of (r : regex) (s : jsstring) : list captures :=
  scan (S (length s)) r s.

(** A loop body run over a list of matches. *)
Fixpoint fold_matches {St : Type} (body : St -> captures -> outcome St)
    (ms : list captures) (st : St) : outcome St :=
  match ms with
  | [] => Ok st
  | m :: ms' => st' <- body st m ;; fold_matches body ms' st'
  end.

(** [extends a b]: [b] is [a] with more elements after it. *)
Definition extends {A} (a b : list A) : Prop := exists more, b = a ++ more.

Definition is_set (i : nat) (c : captures) : Prop := capture i c <> None.

Definition not_close (x : ascii) : bool := negb (one_of (js "}") x).

Definition starts_without_digit (k : jsstring) : bool :=
  match k with
  | c :: _ => negb (is_digit c)
  | [] => true
  end.

(** A weight that is a non-empty string of digits. *)
Definition weight_ok (v : jsval) : Prop :=
  exists d, v = VStr d /\ numeric d = true.

(** A style that is one of the three keywords, in any mix of cases. *)
Definition style_ok (s : jsstring) : Prop :=
  In (toLowerCase s) [js "normal"; js "italic"; js "oblique"].

(** A descriptor that carries the three fields read from its block. *)
Definition from_block (fam wt sty : jsstring) (d : FontInfo) : Prop :=
  family d = fam /\
  weight d = FontExtractor.normalizeWeight wt /\
  style d = sty.

(** [adds fam wt sty fonts fonts']: [fonts'] is [fonts] followed by
    descriptors of one block. *)
Definition adds (fam wt sty : jsstring) (fonts fonts' : list FontInfo) : Prop :=
  exists more, fonts' = fonts ++ more /\ Forall (from_block fam wt sty) more.

(** Keep the first element for each key: [seen] are the keys met so far. *)
Fixpoint first_wins {A} (key : A -> jsstring) (seen : list jsstring) (l : list A) : list A :=
  match l with
  | [] => []
  | x :: l' =>
      if existsb (fun k => str_eqb k (key x)) seen then first_wins key seen l'
      else x :: first_wins key (seen ++ [key x]) l'
  end.

(** The descriptor the first loop adds for the pair matched by [m]. *)
Definition pair_descriptor (URL_href : jsstring -> jsstring -> option jsstring)
    (baseUrl : jsstring) (m : captures) (d : FontInfo) : Prop :=
  exists u f, capture 1 m = Some u /\ capture 2 m = Some f /\
              url d = URL_href u baseUrl /\
              format d = Some (VStr (toLowerCase f)).

(** The URL of the pair matched by [m] resolves. *)
Definition resolves (URL_href : jsstring -> jsstring -> option jsstring)
    (baseUrl : jsstring) (m : captures) : Prop :=
  forall u, capture 1 m = Some u -> URL_href u baseUrl <> None.

Definition is_not (sep x : ascii) : bool := negb (chr_eqb x sep).

(** What every descriptor of the Google Fonts parser looks like. *)
Definition google_descriptor (d : FontInfo) : Prop :=
  source d = js "Google Fonts" /\ url d = None /\ format d = None /\
  weight_ok (weight d) /\ (style d = js "normal" \/ style d = js "italic").

(** The request sent to a relay. *)
Definition request_for (targetUrl proxy : jsstring) : jsstring :=
  proxy ++ App.encodeURIComponent targetUrl.

(** A fetch that does not give a usable response. *)
Definition failed (o : option App.Response) : Prop :=
  match o with
  | Some r => App.ok r = false
  | None => True
  end.

(** ** The platform on the inputs of the examples

    What the URL constructor answers on the arguments that occur in the
    examples below; the examples ask for nothing else. *)
Module Examples.

Definition base : jsstring := js "https://ex.com/css/a.css".

(** [new URL(u, base).href] *)
Definition URL_table : list (jsstring * jsstring) :=
  [(js "https://ex.com/a.woff2", js "https://ex.com/a.woff2");
   (js "https://ex.com/a.woff", js "https://ex.com/a.woff");
   (js "https://ex.com/a.eot", js "https://ex.com/a.eot");
   (js "../fonts/x.woff2", js "https://ex.com/fonts/x.woff2");
   (js "a.woff2?v=1.2", js "https://ex.com/css/a.woff2?v=1.2");
   (js "a.constructor", js "https://ex.com/css/a.constructor")].

Definition URL_href (u b : jsstring) : option jsstring :=
  if str_eqb b base then own_property URL_table u else None.

Definition URL_hostname (b : jsstring) : option jsstring :=
  if str_eqb b base then Some (js "ex.com") else None.

Definition google_link : jsstring :=
  js "https://fonts.googleapis.com/css?family=Roboto:400,700i".

Definition URL_searchParam (u name : jsstring) : option (option jsstring) :=
  if str_eqb u google_link then
    if str_eqb name (js "family") then Some (Some (js "Roboto:400,700i"))
    else Some None
  else None.

Definition descriptor (fam wt sty u : string) (fmt : jsval) : FontInfo :=
  {| family := js fam; weight := VStr (js wt); style := js sty;
     source := js "ex.com"; url := Some (js u); format := Some fmt |}.

Definition google (fam wt sty : string) : FontInfo :=
  {| family := js fam; weight := VStr (js wt); style := js sty;
     source := js "Google Fonts"; url := None; format := None |}.

(** No example puts an inherited member into a key. *)
Definition inherited_text (name : jsstring) : jsstring := js "[object Object]".

(** A body with one level of nested braces. *)
Definition css_nested : jsstring :=
  js "@font-face { font-family: 'A'; x { y } src: url(https://ex.com/a.woff2) format('woff2'); }".

Definition css_blank_family : jsstring :=
  js "@font-face{font-family:' ';src:url(https://ex.com/a.woff2) format('woff2')}".

Definition block_no_family : jsstring :=
  js "src:url(https://ex.com/a.woff2) format('woff2')".

Definition css_no_family : jsstring :=
  js "@font-face{" ++ block_no_family ++ js "}".

Definition src_one_pair : jsstring :=
  js "url(https://ex.com/a.eot),url(https://ex.com/a.woff) format('woff')".

Definition css_lighter : jsstring :=
  js "@font-face{font-family:'A';font-weight:lighter;src:url(https://ex.com/a.woff2) format('woff2')}".

Definition css_one_pair : jsstring :=
  js "@font-face{font-family:'A';font-weight:1000;font-style:ITALIC;src:url(https://ex.com/a.eot),url(https://ex.com/a.woff) format('woff');}".

(** The URL of the example of relative URL resolution in the specification,
    with the format that variable fonts are declared with. *)
Definition css_relative : jsstring :=
  js "@font-face{font-family:'A';src:url(../fonts/x.woff2) format('woff2-variations')}".

Definition css_query : jsstring :=
  js "@font-face{font-family:'A';src:url(a.woff2?v=1.2)}".

Definition css_inherited : jsstring :=
  js "@font-face{font-family:'A';src:url(a.constructor)}".

End Examples.

(** ** Notions for the Google Fonts links *)

(** [l.join(sep)] *)
Fixpoint join (sep : ascii) (l : list jsstring) : jsstring :=
  match l with
  | [] => []
  | [s] => s
  | s :: rest => s ++ sep :: join sep rest
  end.

(** A segment name:weights of a family parameter. *)
Definition family_segment (seg : jsstring * jsstring) : jsstring :=
  fst seg ++ ":"%char :: snd seg.

(** A name or a list of weights that can stand in a segment. *)
Definition segment_text (s : jsstring) : bool :=
  forallb (is_not ":") s && forallb (is_not "|") s.

Definition segment_ok (seg : jsstring * jsstring) : bool :=
  segment_text (fst seg) && segment_text (snd seg)
  && negb (str_eqb (snd seg) []).

(** The descriptor of one weight token [w] of the family [name]. *)
Definition token_descriptor (name w : jsstring) : FontInfo :=
  {| family := replace_chr "+" " " name;
     weight := VStr (match strip_non_digits w with [] => js "400" | d => d end);
     style := if includes w (js "i") then js "italic" else js "normal";
     source := js "Google Fonts"; url := None; format := None |}.

(** ** Notions for the deduplication *)

Definition jsval_eqb (a b : jsval) : bool :=
  match a, b with
  | VStr s, VStr t => str_eqb s t
  | VInherited s, VInherited t => str_eqb s t
  | _, _ => false
  end.

(** Two descriptors with the same family, weight and style. *)
Definition same_identity (f g : FontInfo) : bool :=
  str_eqb (family f) (family g) && jsval_eqb (weight f) (weight g)
  && str_eqb (style f) (style g).

(** Deduplication in the words of the specification: a descriptor is dropped
    when one with its family, weight and style was seen before it. *)
Fixpoint first_seen (seen l : list FontInfo) : list FontInfo :=
  match l with
  | [] => []
  | x :: l' =>
      if existsb (same_identity x) seen then first_seen seen l'
      else x :: first_seen (seen ++ [x]) l'
  end.

(** A descriptor whose weight is a string and whose weight and style hold no
    hyphen. *)
Definition hyphen_free (d : FontInfo) : bool :=
  match weight d with
  | VStr w => forallb (is_not "-") w && forallb (is_not "-") (style d)
  | VInherited _ => false
  end.

(* ===================================================================== *)
(** * Style sheets written out from their parts *)
(* ===================================================================== *)

(** The blocks the parser is meant for, as data: each block has, in this
    order, an optional font-family, font-weight and font-style declaration
    and one src declaration with one entry or more; an entry is a url() with
    a format(), or a bare url(). *)

Inductive Quote : Type := NoQuote | SingleQuote | DoubleQuote.

Definition quote_text (q : Quote) : jsstring :=
  match q with
  | NoQuote => []
  | SingleQuote => [squote]
  | DoubleQuote => [dquote]
  end.

Inductive Entry : Type :=
| Pair (qu : Quote) (u : jsstring) (qf : Quote) (f : jsstring)
| Bare (qu : Quote) (u : jsstring).

Record Block : Type := mkBlock {
  lead : jsstring;          (* the text before the block *)
  gap : jsstring;           (* the white space before a declaration *)
  pad : jsstring;           (* the white space after a colon and before the brace *)
  sep : jsstring;           (* the white space after a comma of the src value *)
  family_decl : option (Quote * jsstring);
  weight_decl : option jsstring;
  style_decl : option jsstring;
  src_first : Entry;
  src_more : list Entry;
  src_closed : bool         (* a semicolon after the src value *)
}.

Definition entries (b : Block) : list Entry := src_first b :: src_more b.

(** ** The text of a block *)

Definition url_text (qu : Quote) (u : jsstring) : jsstring :=
  js "url" ++ "("%char :: quote_text qu ++ u ++ quote_text qu ++ js ")".

Definition entry_text (e : Entry) : jsstring :=
  match e with
  | Pair qu u qf f =>
      url_text qu u ++ js " format" ++ "("%char :: quote_text qf ++ f ++ quote_text qf ++ js ")"
  | Bare qu u => url_text qu u
  end.

Definition rest_text (sp : jsstring) (es : list Entry) : jsstring :=
  flat_map (fun e => ","%char :: sp ++ entry_text e) es.

Definition src_text (b : Block) : jsstring :=
  entry_text (src_first b) ++ rest_text (sep b) (src_more b).

Definition declaration (g p key : jsstring) (value : option jsstring) : jsstring :=
  match value with
  | Some v => g ++ key ++ ":"%char :: p ++ v ++ js ";"
  | None => []
  end.

Definition family_value (d : Quote * jsstring) : jsstring :=
  quote_text (fst d) ++ snd d ++ quote_text (fst d).

Definition body_text (b : Block) : jsstring :=
  declaration (gap b) (pad b) (js "font-family") (option_map family_value (family_decl b)) ++
  declaration (gap b) (pad b) (js "font-weight") (weight_decl b) ++
  declaration (gap b) (pad b) (js "font-style") (style_decl b) ++
  gap b ++ js "src" ++ ":"%char :: pad b ++ src_text b ++
  (if src_closed b then ";"%char :: gap b else []).

Definition block_text (b : Block) : jsstring :=
  lead b ++ js "@font-face" ++ pad b ++ "{"%char :: body_text b ++ js "}".

Definition css_text (blocks : list Block) : jsstring := flat_map block_text blocks.

(** ** Which blocks are well formed *)

(** A non-empty text without white space and without the code units of
    [banned]. *)
Definition plain (banned : jsstring) (s : jsstring) : bool :=
  match s with
  | [] => false
  | _ => forallb (fun c => negb (is_space c) && negb (one_of banned c)) s
  end.

(** A family name: not empty, no white space at its start, and no quote,
    semicolon, comma, colon or closing brace. *)
Definition family_ok (d : Quote * jsstring) : bool :=
  match snd d with
  | [] => false
  | c :: _ =>
      negb (is_space c) &&
      forallb (fun c => negb (one_of (squote :: dquote :: js ";,:}") c)) (snd d)
  end.

Definition weight_word (w : jsstring) : bool :=
  numeric w || existsb (str_eqb w) [js "normal"; js "bold"; js "lighter"; js "bolder"].

Definition style_word (s : jsstring) : bool :=
  existsb (str_eqb s) [js "normal"; js "italic"; js "oblique"].

Definition entry_ok (e : Entry) : bool :=
  match e with
  | Pair _ u _ f =>
      plain (squote :: dquote :: js "();}") u &&
      match f with
      | [] => false
      | _ => forallb (fun c => negb (one_of (squote :: dquote :: js "();}") c)) f
      end
  | Bare _ u => plain (squote :: dquote :: js "();}") u
  end.

(** A declaration that is left out is one whose keyword the block does not
    hold. *)
Definition absent (key : jsstring) (b : Block) : bool :=
  negb (includes (toLowerCase (body_text b)) key).

Definition block_ok (b : Block) : bool :=
  forallb (is_not "{") (lead b) && forallb is_space (gap b) && forallb is_space (pad b) &&
  forallb is_space (sep b) &&
  match family_decl b with
  | Some d => family_ok d
  | None => absent (js "font-family") b
  end &&
  match weight_decl b with
  | Some w => weight_word w
  | None => absent (js "font-weight") b
  end &&
  match style_decl b with
  | Some s => style_word s
  | None => absent (js "font-style") b
  end &&
  forallb entry_ok (entries b).

(** ** The descriptors a block stands for *)

Definition block_family (b : Block) : jsstring :=
  match family_decl b with
  | Some d => trim (snd d)
  | None => js "Unknown"
  end.

Definition block_weight (b : Block) : jsval :=
  match weight_decl b with
  | Some w => FontExtractor.normalizeWeight w
  | None => VStr (js "400")
  end.

Definition block_style (b : Block) : jsstring :=
  match style_decl b with
  | Some s => s
  | None => js "normal"
  end.

Section Written.
Variable URL_href : jsstring -> jsstring -> option jsstring.
Variable URL_hostname : jsstring -> option jsstring.
Variable baseUrl : jsstring.

(** One more descriptor, when the URL and the base resolve. *)
Definition add_font (b : Block) (fontUrl : jsstring) (fmt : jsval)
    (fonts : list FontInfo) : list FontInfo :=
  match URL_href fontUrl baseUrl, URL_hostname baseUrl with
  | Some fullUrl, Some host =>
      fonts ++ [ {| family := block_family b;
                    weight := block_weight b;
                    style := block_style b;
                    source := host;
                    url := Some fullUrl;
                    format := Some fmt |} ]
  | _, _ => fonts
  end.

(** A url() with a format() gives a descriptor with that format in lower
    case. *)
Definition add_pair (b : Block) (fonts : list FontInfo) (e : Entry) : list FontInfo :=
  match e with
  | Pair _ u _ f => add_font b u (VStr (toLowerCase f)) fonts
  | Bare _ _ => fonts
  end.

(** A bare url() gives a descriptor with the format of its extension,
    unless its text is part of the URL of a descriptor that is there
    already. *)
Definition add_bare (b : Block) (fonts : list FontInfo) (e : Entry) : list FontInfo :=
  match e with
  | Pair _ _ _ _ => fonts
  | Bare _ u =>
      if FontExtractor.already_matched fonts u then fonts
      else add_font b u (FontExtractor.getFormatFromUrl u) fonts
  end.

(** The pairs of the block first, then its bare entries. *)
Definition block_fonts (fonts : list FontInfo) (b : Block) : list FontInfo :=
  fold_left (add_bare b) (entries b) (fold_left (add_pair b) (entries b) fonts).

Definition written_fonts (blocks : list Block) : list FontInfo :=
  fold_left block_fonts blocks [].

(** The URL of a pair is part of its resolved form, as an absolute URL
    is. *)
Definition in_full (e : Entry) : bool :=
  match e with
  | Pair _ u _ _ =>
      match URL_href u baseUrl with
      | Some fullUrl => includes fullUrl u
      | None => true
      end
  | Bare _ _ => true
  end.

(** The URL of the entry resolves. *)
Definition resolving (e : Entry) : bool :=
  match e with
  | Pair _ u _ _ | Bare _ u =>
      match URL_href u baseUrl with Some _ => true | None => false end
  end.

(** The descriptor of a pair whose URL resolves, for a base on [host]. *)
Definition pair_font (b : Block) (host : jsstring) (e : Entry) : list FontInfo :=
  match e with
  | Pair _ u _ f =>
      match URL_href u baseUrl with
      | Some fullUrl =>
          [ {| family := block_family b; weight := block_weight b;
               style := block_style b; source := host;
               url := Some fullUrl; format := Some (VStr (toLowerCase f)) |} ]
      | None => []
      end
  | Bare _ _ => []
  end.
End Written.

Definition is_pair (e : Entry) : bool :=
  match e with Pair _ _ _ _ => true | Bare _ _ => false end.

(** A sheet of two blocks: the first with its three declarations, a pair and
    a bare url(), the second with a pair only. *)
Module SheetExample.

Definition named : Block :=
  {| lead := js "/* latin */ "; gap := js " "; pad := js " "; sep := js " ";
     family_decl := Some (SingleQuote, js "Inter");
     weight_decl := Some (js "bold");
     style_decl := Some (js "italic");
     src_first := Pair NoQuote (js "https://ex.com/a.woff2") SingleQuote (js "woff2");
     src_more := [Bare SingleQuote (js "https://ex.com/a.eot")];
     src_closed := true |}.

Definition unnamed : Block :=
  {| lead := []; gap := []; pad := []; sep := [];
     family_decl := None; weight_decl := None; style_decl := None;
     src_first := Pair SingleQuote (js "https://ex.com/a.woff") SingleQuote (js "WOFF");
     src_more := [];
     src_closed := false |}.

Definition css : jsstring :=
  js "/* latin */ @font-face { font-family: 'Inter'; font-weight: bold; font-style: italic; src: url(https://ex.com/a.woff2) format('woff2'), url('https://ex.com/a.eot'); }@font-face{src:url('https://ex.com/a.woff') format('WOFF')}".

Definition fonts : list FontInfo :=
  [Examples.descriptor "Inter" "700" "italic" "https://ex.com/a.woff2" (VStr (js "woff2"));
   Examples.descriptor "Inter" "700" "italic" "https://ex.com/a.eot"
     (VStr (js "embedded-opentype"));
   Examples.descriptor "Unknown" "400" "normal" "https://ex.com/a.woff" (VStr (js "woff"))].

End SheetExample.

(** A link with two segments, each with weights. *)
Module WeightsExample.

Definition link : jsstring :=
  js "https://fonts.googleapis.com/css?family=Open+Sans:300,600italic|Lato:i".

Definition URL_searchParam (u name : jsstring) : option (option jsstring) :=
  if str_eqb u link then
    if str_eqb name (js "family") then Some (Some (js "Open Sans:300,600italic|Lato:i"))
    else Some None
  else None.

End WeightsExample.

(** Two families of which one ends in a hyphen and digits. *)
Module KeyExample.

Definition css : jsstring :=
  js "@font-face{font-family:'Inter-400';font-weight:700;src:url(https://ex.com/a.woff2) format('woff2')}@font-face{font-family:'Inter';font-weight:400;src:url(https://ex.com/a.woff) format('woff')}".

Definition blocks : list Block :=
  [ {| lead := []; gap := []; pad := []; sep := [];
       family_decl := Some (SingleQuote, js "Inter-400");
       weight_decl := Some (js "700"); style_decl := None;
       src_first := Pair NoQuote (js "https://ex.com/a.woff2") SingleQuote (js "woff2");
       src_more := []; src_closed := false |};
    {| lead := []; gap := []; pad := []; sep := [];
       family_decl := Some (SingleQuote, js "Inter");
       weight_decl := Some (js "400"); style_decl := None;
       src_first := Pair NoQuote (js "https://ex.com/a.woff") SingleQuote (js "woff");
       src_more := []; src_closed := false |} ].

Definition fonts : list FontInfo :=
  [Examples.descriptor "Inter-400" "700" "normal" "https://ex.com/a.woff2" (VStr (js "woff2"));
   Examples.descriptor "Inter" "400" "normal" "https://ex.com/a.woff" (VStr (js "woff"))].

End KeyExample.

(* ===================================================================== *)
(** * The rest of the code *)
(* ===================================================================== *)

From Stdlib Require Import DecimalString.

(** [for (const x of l) { body }] and [l.forEach(body)] on a state. *)
Fixpoint for_each {A St : Type} (body : St -> A -> outcome St) (l : list A)
    (st : St) : outcome St :=
  match l with
  | [] => Ok st
  | x :: l' => st' <- body st x ;; for_each body l' st'
  end.

(** [a-zA-Z0-9] *)
Definition is_alnum (c : ascii) : bool :=
  let n := code c in
  ((97 <=? n) && (n <=? 122)) || ((65 <=? n) && (n <=? 90)) || is_digit c.

(** The descriptors of a call of parseFontFaces, which always completes. *)
Definition parsed (URL_href : jsstring -> jsstring -> option jsstring)
    (URL_hostname : jsstring -> option jsstring)
    (cssText baseUrl : jsstring) : list FontInfo :=
  match FontExtractor.parseFontFaces URL_href URL_hostname cssText baseUrl with
  | Ok fonts => fonts
  | _ => []
  end.

(* ===================================================================== *)
(** * components/FontPeek.tsx *)
(* ===================================================================== *)

Module FontPeek.

(** The fields of a FontInfo, named before the records below take the names. *)
Definition font_family (font : FontInfo) : jsstring := family font.
Definition font_source (font : FontInfo) : jsstring := source font.
Definition font_weight (font : FontInfo) : jsval := weight font.
Definition font_style (font : FontInfo) : jsstring := style font.
Definition font_url (font : FontInfo) : option jsstring := url font.

Record FontWeight : Type := mkFontWeight {
  weight : jsval;
  style : jsstring;
  url : option jsstring
}.

Record FontGroup : Type := mkFontGroup {
  family : jsstring;
  source : jsstring;
  weights : list FontWeight
}.

(** The object pushed for a font. *)
Definition weight_of (font : FontInfo) : FontWeight :=
  {| weight := font_weight font; style := font_style font; url := font_url font |}.

(** Body of [fonts.forEach]; the group read from the map is the object in the
    map, so the push changes the entry in its place. *)
Definition group_step (grouped : Map FontGroup) (font : FontInfo)
    : outcome (Map FontGroup) :=
  let key := font_family font in
  let grouped1 :=
    if negb (Map_has grouped key)
    then Map_set grouped key {| family := font_family font;
                                source := font_source font;
                                weights := [] |}
    else grouped in
  group <- defined "grouped.get(key)" (Map_get grouped1 key) ;;
  Ok (Map_set grouped1 key
        {| family := family group; source := source group;
           weights := weights group ++ [weight_of font] |}).

Definition groupFontsByFamily (fonts : list FontInfo) : outcome (list FontGroup) :=
  grouped <- for_each group_step fonts [] ;;
  Ok (Map_values grouped).

End FontPeek.

(** The group of the family of [f] among [fonts]. *)
Definition group_of (fonts : list FontInfo) (f : FontInfo) : FontPeek.FontGroup :=
  {| FontPeek.family := family f;
     FontPeek.source := source f;
     FontPeek.weights :=
       map FontPeek.weight_of
           (filter (fun g => str_eqb (family g) (family f)) fonts) |}.

(** The number of weights in a list of groups. *)
Definition weight_count (groups : list FontPeek.FontGroup) : nat :=
  list_sum (map (fun g => length (FontPeek.weights g)) groups).

(** A group with more weights after its own. *)
Definition add_weights (g : FontPeek.FontGroup) (ws : list FontPeek.FontWeight)
    : FontPeek.FontGroup :=
  {| FontPeek.family := FontPeek.family g;
     FontPeek.source := FontPeek.source g;
     FontPeek.weights := FontPeek.weights g ++ ws |}.

(** The fonts of family [k], as weights. *)
Definition weights_of (k : jsstring) (fonts : list FontInfo) : list FontPeek.FontWeight :=
  map FontPeek.weight_of (filter (fun g => str_eqb (family g) k) fonts).

(** A map of groups after the fonts [l]: its groups with their new weights,
    then the groups of the new families. *)
Definition merge_groups (m : Map FontPeek.FontGroup) (l : list FontInfo)
    : Map FontPeek.FontGroup :=
  map (fun e => (fst e, add_weights (snd e) (weights_of (fst e) l))) m ++
  map (fun f => (family f, group_of l f)) (first_wins (@family) (map fst m) l).

(** [v === s] for a string [s] *)
Definition strict_eq (v : jsval) (s : jsstring) : bool :=
  match v with
  | VStr t => str_eqb t s
  | VInherited _ => false
  end.

(** A natural number in a template string. *)
Definition number_text (n : nat) : jsstring :=
  js (NilZero.string_of_uint (Nat.to_uint n)).

(* ===================================================================== *)
(** * utils/fontConverter.ts *)
(* ===================================================================== *)

Module FontConverter.

(** types/index.ts *)
Inductive FontFormat : Type := woff2 | woff | ttf | otf | eot.

Definition format_name (f : FontFormat) : jsstring :=
  match f with
  | woff2 => js "woff2"
  | woff => js "woff"
  | ttf => js "ttf"
  | otf => js "otf"
  | eot => js "eot"
  end.

Definition formatMap : list (jsstring * jsstring) :=
  [(js "woff2", js "woff2"); (js "woff", js "woff"); (js "ttf", js "ttf");
   (js "otf", js "otf"); (js "eot", js "eot")].

Definition getFormatFromUrl (url : jsstring) : jsval :=
  let key := match FontExtractor.extension_of url with
             | Some ((_ :: _) as e) => e
             | _ => []
             end in
  or_else (get_property formatMap key) (VStr (js "unknown")).

Definition getExtensionForFormat (format : jsval) : jsval :=
  if strict_eq format (js "unknown") then VStr (js "font") else format.

Definition canConvertDirectly (from : jsval) (to : FontFormat) : bool :=
  strict_eq from (format_name to).

Record Blob : Type := mkBlob {
  content : jsstring;
  blob_type : jsstring
}.

Definition mimeTypes (to : FontFormat) : jsstring :=
  match to with
  | woff2 => js "font/woff2"
  | woff => js "font/woff"
  | ttf => js "font/ttf"
  | otf => js "font/otf"
  | eot => js "application/vnd.ms-fontobject"
  end.

Definition convertFont (blob : Blob) (_from : jsval) (to : FontFormat) : Blob :=
  {| content := content blob; blob_type := mimeTypes to |}.

(** [s.replace(/\s+/g, '-')]: [in_run] says that the code unit before was
    white space, already replaced. *)
Fixpoint hyphenate (in_run : bool) (s : jsstring) : jsstring :=
  match s with
  | [] => []
  | c :: s' =>
      if is_space c
      then (if in_run then hyphenate true s' else "-"%char :: hyphenate true s')
      else c :: hyphenate false s'
  end.

(** [fontName.replace(/[^a-zA-Z0-9\s-]/g, '').replace(/\s+/g, '-')] *)
Definition cleanName (fontName : jsstring) : jsstring :=
  hyphenate false
    (filter (fun c => is_alnum c || is_space c || chr_eqb c "-") fontName).

Record Response : Type := mkResponse {
  status : nat;
  blob : Blob
}.

Definition ok (r : Response) : bool :=
  (200 <=? status r) && (status r <=? 299).

(** What [saveAs] is called with. *)
Record Saved : Type := mkSaved {
  file : Blob;
  name : jsstring
}.

Section Platform.
(** What [fetch] settles to, or nothing when the promise rejects, and the
    error of a rejected fetch. *)
Variable fetch : jsstring -> option Response.
Variable network_error : exn.
Variable inherited_text : jsstring -> jsstring.

Definition downloadFont (fontUrl fontName : jsstring) (targetFormat : FontFormat)
    (useCorsProxy : bool) : outcome Saved :=
  try_catch
    (let fetchUrl :=
       if useCorsProxy
       then js "https://api.allorigins.win/raw?url=" ++ App.encodeURIComponent fontUrl
       else fontUrl in
     response <- match fetch fetchUrl with
                 | Some r => Ok r
                 | None => Throw network_error
                 end ;;
     if negb (ok response)
     then Throw (Error (js "Failed to fetch font: " ++ number_text (status response)))
     else
       let blob := blob response in
       let originalFormat := getFormatFromUrl fontUrl in
       let cleanName := cleanName fontName in
       if strict_eq originalFormat (format_name targetFormat)
       then Ok {| file := blob;
                  name := cleanName ++ js "." ++ format_name targetFormat |}
       else if canConvertDirectly originalFormat targetFormat
       then
         let convertedBlob := convertFont blob originalFormat targetFormat in
         Ok {| file := convertedBlob;
               name := cleanName ++ js "." ++ format_name targetFormat |}
       else
         let extension := getExtensionForFormat originalFormat in
         Ok {| file := blob;
               name := cleanName ++ js "-original."
                       ++ FontExtractor.to_text inherited_text extension |})
    (fun error => Throw error).

(** [validateFontUrl] *)
Definition validateFontUrl (url : jsstring) : bool :=
  match fetch url with
  | Some r => ok r
  | None => false
  end.
End Platform.

End FontConverter.

(** Letters, digits and the hyphen. *)
Definition name_safe (c : ascii) : bool := is_alnum c || chr_eqb c "-".

(* ===================================================================== *)
(** * utils/fontExtractor.ts: extractFontsFromCSS *)
(* ===================================================================== *)

Module FontExtractorPage.

(** What the code reads of the parsed page: for each element that a
    querySelectorAll call returns, in document order, the attribute or text it
    asks for, or nothing when that is null. *)
Record Document : Type := mkDocument {
  (** [href] of the elements of
      [link[rel="stylesheet"], link[rel="preload"][as="style"]] *)
  styleLinks : list (option jsstring);
  (** [textContent] of the [style] elements *)
  inlineStyles : list (option jsstring);
  (** [href] of the elements of [link[href*="fonts.googleapis.com"]] *)
  googleFontsLinks : list (option jsstring)
}.

(** The markers of a bot protection page. *)
Definition bot_markers : list jsstring :=
  [js "Pardon Our Interruption"; js "Cloudflare"; js "captcha"; js "_Incapsula_"].

Definition bot_protected (html : jsstring) : bool :=
  existsb (includes html) bot_markers.

Definition proxied (useCorsProxy : bool) (url : jsstring) : jsstring :=
  if useCorsProxy
  then js "https://api.allorigins.win/raw?url=" ++ App.encodeURIComponent url
  else url.

Section Platform.
Variable URL_href : jsstring -> jsstring -> option jsstring.
Variable URL_hostname : jsstring -> option jsstring.
Variable URL_searchParam : jsstring -> jsstring -> option (option jsstring).
(** What the [n]-th [fetch] of the call settles to for a request URL, or
    nothing when the promise rejects; the body of a response is read
    whole. *)
Variable fetch : nat -> jsstring -> option App.Response.
Variable network_error : exn.
(** [new DOMParser().parseFromString(html, 'text/html')] *)
Variable parseFromString : jsstring -> Document.
Variable inherited_text : jsstring -> jsstring.

Local Abbreviation parseFontFaces :=
  (FontExtractor.parseFontFaces URL_href URL_hostname).

(** Body of [styleLinks.forEach]. *)
Definition link_step (url : jsstring) (stylesheetUrls : list jsstring)
    (href : option jsstring) : list jsstring :=
  match href with
  | Some ((_ :: _) as h) =>
      match FontExtractor.new_URL_href URL_href h url with
      | Ok fullUrl => stylesheetUrls ++ [fullUrl]
      | _ => stylesheetUrls
      end
  | _ => stylesheetUrls
  end.

(** Body of [inlineStyles.forEach]. *)
Definition inline_step (url : jsstring) (fonts : list FontInfo)
    (textContent : option jsstring) : outcome (list FontInfo) :=
  let cssText := match textContent with
                 | Some ((_ :: _) as t) => t
                 | _ => []
                 end in
  inlineFonts <- parseFontFaces cssText url ;;
  Ok (fonts ++ inlineFonts).

(** Body of [for (const stylesheetUrl of stylesheetUrls)]: the state is the
    number of requests made and the descriptors. *)
Definition sheet_step (useCorsProxy : bool) (st : nat * list FontInfo)
    (stylesheetUrl : jsstring) : outcome (nat * list FontInfo) :=
  let (n, fonts) := st in
  fonts' <- try_catch
    (let proxyUrl := proxied useCorsProxy stylesheetUrl in
     cssResponse <- match fetch n proxyUrl with
                    | Some r => Ok r
                    | None => Throw network_error
                    end ;;
     if App.ok cssResponse then
       cssfonts <- parseFontFaces (App.body cssResponse) stylesheetUrl ;;
       Ok (fonts ++ cssfonts)
     else Ok fonts)
    (fun _ => Ok fonts) ;;
  Ok (S n, fonts').

(** Body of [googleFontsLinks.forEach]. *)
Definition google_step (fonts : list FontInfo) (href : option jsstring)
    : list FontInfo :=
  match href with
  | Some ((_ :: _) as h) => fonts ++ FontExtractor.parseGoogleFontsUrl URL_searchParam h
  | _ => fonts
  end.

Definition extractFontsFromCSS (url : jsstring) (useCorsProxy : bool)
    : outcome (list FontInfo) :=
  fonts <- try_catch
    (let fetchUrl := proxied useCorsProxy url in
     response <- match fetch 0 fetchUrl with
                 | Some r => Ok r
                 | None => Throw network_error
                 end ;;
     if negb (App.ok response)
     then Throw (Error (js "Failed to fetch: " ++ number_text (App.status response)))
     else
       let html := App.body response in
       if bot_protected html
       then Throw (Error (js "Site is protected by anti-bot measures. Try using a different URL or the demo."))
       else
         let doc := parseFromString html in
         let stylesheetUrls := fold_left (link_step url) (styleLinks doc) [] in
         fonts1 <- for_each (inline_step url) (inlineStyles doc) [] ;;
         st <- for_each (sheet_step useCorsProxy) stylesheetUrls (1, fonts1) ;;
         Ok (fold_left google_step (googleFontsLinks doc) (snd st)))
    (fun error => Throw error) ;;
  Ok (FontExtractor.dedupe inherited_text fonts).
End Platform.

End FontExtractorPage.

(** ** What a page gives, source by source *)

Section PageFonts.
Variable URL_href : jsstring -> jsstring -> option jsstring.
Variable URL_hostname : jsstring -> option jsstring.
Variable URL_searchParam : jsstring -> jsstring -> option (option jsstring).
Variable fetch : nat -> jsstring -> option App.Response.

(** A text or attribute that is null or empty counts as absent. *)
Definition present (o : option jsstring) : option jsstring :=
  match o with
  | Some ((_ :: _) as t) => Some t
  | _ => None
  end.

(** The style sheet links whose href resolves against the page URL. *)
Definition sheet_urls (url : jsstring) (doc : FontExtractorPage.Document)
    : list jsstring :=
  flat_map (fun href => match present href with
                        | Some h => match URL_href h url with
                                    | Some fullUrl => [fullUrl]
                                    | None => []
                                    end
                        | None => []
                        end)
           (FontExtractorPage.styleLinks doc).

Definition inline_fonts (url : jsstring) (doc : FontExtractorPage.Document)
    : list FontInfo :=
  flat_map (fun t => match present t with
                     | Some cssText => parsed URL_href URL_hostname cssText url
                     | None => []
                     end)
           (FontExtractorPage.inlineStyles doc).

(** The descriptors of the style sheets that load, the first of them being
    request number [n]. *)
Fixpoint sheet_fonts (useCorsProxy : bool) (n : nat) (urls : list jsstring)
    : list FontInfo :=
  match urls with
  | [] => []
  | u :: rest =>
      match fetch n (FontExtractorPage.proxied useCorsProxy u) with
      | Some r => if App.ok r then parsed URL_href URL_hostname (App.body r) u
                  else []
      | None => []
      end ++ sheet_fonts useCorsProxy (S n) rest
  end.

Definition google_fonts (doc : FontExtractorPage.Document) : list FontInfo :=
  flat_map (fun href => match present href with
                        | Some h => FontExtractor.parseGoogleFontsUrl URL_searchParam h
                        | None => []
                        end)
           (FontExtractorPage.googleFontsLinks doc).

Definition page_fonts (url : jsstring) (useCorsProxy : bool)
    (doc : FontExtractorPage.Document) : list FontInfo :=
  inline_fonts url doc
  ++ sheet_fonts useCorsProxy 1 (sheet_urls url doc)
  ++ google_fonts doc.
End PageFonts.

(* ===================================================================== *)
(** * App.tsx: convertFont and extractFonts *)
(* ===================================================================== *)

(** [s.replace(c, '')] for a pattern of one character: the first occurrence
    goes. *)
Fixpoint remove_first (c : ascii) (s : jsstring) : jsstring :=
  match s with
  | [] => []
  | x :: s' => if chr_eqb x c then s' else x :: remove_first c s'
  end.

Module AppPage.

Inductive TargetFormat : Type := original | woff2 | woff | ttf | otf.

Definition target_name (t : TargetFormat) : jsstring :=
  match t with
  | original => js "original"
  | woff2 => js "woff2"
  | woff => js "woff"
  | ttf => js "ttf"
  | otf => js "otf"
  end.

Definition formatMap : list (jsstring * jsstring) :=
  [(js "ttf", js "ttf"); (js "truetype", js "ttf"); (js "otf", js "otf");
   (js "opentype", js "otf"); (js "woff", js "woff"); (js "woff2", js "woff2");
   (js "eot", js "eot")].

Record Converted : Type := mkConverted {
  data : jsstring;
  ext : jsstring
}.

Section Library.
(** [Font.create(buffer, { type: sourceType }).write({ type: targetType })]
    of fonteditor-core, or nothing when one of the two calls throws. *)
Variable Font_write : jsstring -> jsval -> jsval -> option jsstring.

Definition convertFont (buffer sourceFormat : jsstring) (targetFormat : TargetFormat)
    : Converted :=
  let srcFmt := remove_first "-" (toLowerCase sourceFormat) in
  let tgtFmt := toLowerCase (target_name targetFormat) in
  let as_is := {| data := buffer;
                  ext := match srcFmt with [] => js "woff2" | _ => srcFmt end |} in
  if str_eqb tgtFmt (js "original") || str_eqb srcFmt tgtFmt then as_is
  else
    let sourceType := or_else (get_property formatMap srcFmt) (VStr (js "woff2")) in
    let targetType := or_else (get_property formatMap tgtFmt) (VStr (js "ttf")) in
    if strict_eq sourceType (js "woff2") || strict_eq targetType (js "woff2")
    then as_is
    else
      match Font_write buffer sourceType targetType with
      | Some converted => {| data := converted; ext := tgtFmt |}
      | None => as_is
      end.
End Library.

Record FontGroup : Type := mkFontGroup {
  family : jsstring;
  weights : list App.FontWeight
}.

(** What extractFonts reads of the parsed page, element by element in
    document order; nothing stands for null. *)
Record Document : Type := mkDocument {
  (** [href] of the elements of [link[href*="fonts.googleapis.com"]] *)
  googleLinks : list (option jsstring);
  (** [href] of the elements of [link[rel="stylesheet"]] *)
  styleLinks : list (option jsstring);
  (** [textContent] of the [style] elements *)
  inlineStyles : list (option jsstring)
}.

Section Platform.
Variable URL_href : jsstring -> jsstring -> option jsstring.
(** [fetch n] is what fetch settles to while the [n]-th link of the page is
    handled, the Google Fonts links counted first, then the style sheet links. *)
Variable fetch : nat -> jsstring -> option App.Response.
Variable parseFromString : jsstring -> Document.

Local Abbreviation FontMap := (Map (list App.FontWeight)).

(** [try { ... parseFontFaces(await (await fetchWithProxy(u)).text(), fontMap, base) }
    catch { }].  The parser, which changes the map in place, does not throw
    (lemma App_parseFontFaces_ok below): the catch is entered for a URL that
    does not resolve or a fetch that fails, with the map as it was. *)
Definition load_sheet (n : nat) (fontMap : FontMap) (target : outcome jsstring)
    (base : jsstring -> option jsstring) : outcome FontMap :=
  try_catch
    (u <- target ;;
     cssResponse <- snd (App.fetchWithProxy (fetch n) u) ;;
     App.parseFontFaces URL_href (App.body cssResponse) fontMap (base u))
    (fun _ => Ok fontMap).

(** Body of [for (const link of googleLinks)]. *)
Definition google_step (st : nat * FontMap) (href : option jsstring)
    : outcome (nat * FontMap) :=
  let (n, fontMap) := st in
  fontMap' <- match href with
              | Some ((_ :: _) as h) => load_sheet n fontMap (Ok h) (fun _ => None)
              | _ => Ok fontMap
              end ;;
  Ok (S n, fontMap').

(** Body of [for (const link of styleLinks)]. *)
Definition style_step (baseUrl : jsstring) (st : nat * FontMap)
    (href : option jsstring) : outcome (nat * FontMap) :=
  let (n, fontMap) := st in
  fontMap' <- match href with
              | Some ((_ :: _) as h) =>
                  if negb (includes h (js "fonts.googleapis.com"))
                  then load_sheet n fontMap
                         (FontExtractor.new_URL_href URL_href h baseUrl)
                         (fun fullUrl => Some fullUrl)
                  else Ok fontMap
              | _ => Ok fontMap
              end ;;
  Ok (S n, fontMap').

(** Body of [for (const style of inlineStyles)]. *)
Definition inline_step (baseUrl : jsstring) (fontMap : FontMap)
    (textContent : option jsstring) : outcome FontMap :=
  match textContent with
  | Some ((_ :: _) as css) => App.parseFontFaces URL_href css fontMap (Some baseUrl)
  | _ => Ok fontMap
  end.

Definition extractFonts (html baseUrl : jsstring) : outcome (list FontGroup) :=
  let doc := parseFromString html in
  st1 <- for_each google_step (googleLinks doc) (0, []) ;;
  st2 <- for_each (style_step baseUrl) (styleLinks doc) st1 ;;
  fontMap <- for_each (inline_step baseUrl) (inlineStyles doc) (snd st2) ;;
  Ok (map (fun e => {| family := fst e; weights := snd e |}) fontMap).
End Platform.

End AppPage.

(** The pair that the inline parser of App.tsx compares. *)
Definition weight_style (w : App.FontWeight) : jsstring * jsstring :=
  (App.weight w, App.style w).

(** A font map as the inline parser builds it: no family twice, no family
    without a weight, no weight and style twice in a family. *)
Definition good_map (m : Map (list App.FontWeight)) : Prop :=
  NoDup (map fst m) /\
  forall k ws, Map_get m k = Some ws -> ws <> [] /\ NoDup (map weight_style ws).

(** [m'] has the families of [m] in their order, each with its weights and
    maybe more after them, and maybe more families. *)
Definition grows (m m' : Map (list App.FontWeight)) : Prop :=
  extends (map fst m) (map fst m') /\
  forall k ws, Map_get m k = Some ws -> exists more, Map_get m' k = Some (ws ++ more).

(* ===================================================================== *)
(** * App.tsx: analyze and download *)
(* ===================================================================== *)

Module AppView.

(** The state that analyze reads and sets. *)
Record State : Type := mkState {
  url : jsstring;
  fonts : list AppPage.FontGroup;
  loading : bool;
  error : jsstring;
  analyzed : bool
}.

Definition setError (s : State) (e : jsstring) : State :=
  {| url := url s; fonts := fonts s; loading := loading s; error := e;
     analyzed := analyzed s |}.

Definition setUrl (s : State) (u : jsstring) : State :=
  {| url := u; fonts := fonts s; loading := loading s; error := error s;
     analyzed := analyzed s |}.

Definition setFonts (s : State) (f : list AppPage.FontGroup) : State :=
  {| url := url s; fonts := f; loading := loading s; error := error s;
     analyzed := analyzed s |}.

Definition setLoading (s : State) (b : bool) : State :=
  {| url := url s; fonts := fonts s; loading := b; error := error s;
     analyzed := analyzed s |}.

Definition setAnalyzed (s : State) (b : bool) : State :=
  {| url := url s; fonts := fonts s; loading := loading s; error := error s;
     analyzed := b |}.

(** What download ends with: a file offered to the user, or the font URL
    opened in a new window. *)
Inductive Download : Type :=
| Saved (data name : jsstring)
| Opened (fontUrl : jsstring).

Section Platform.
Variable URL_href : jsstring -> jsstring -> option jsstring.
(** [fetch 0] is what fetch settles to while the page is loaded, and
    [fetch (S n)] while the [n]-th link of the page is handled. *)
Variable fetch : nat -> jsstring -> option App.Response.
Variable parseFromString : jsstring -> AppPage.Document.

Definition analyze (s : State) : outcome State :=
  let targetUrl := trim (url s) in
  match targetUrl with
  | [] => Ok (setError s (js "Enter a URL"))
  | _ =>
      let missing := negb (startsWith targetUrl (js "http")) in
      let targetUrl := if missing then js "https://" ++ targetUrl else targetUrl in
      let s1 := if missing then setUrl s targetUrl else s in
      let s2 := setAnalyzed (setFonts (setError (setLoading s1 true) []) []) true in
      s3 <- try_catch
        (response <- snd (App.fetchWithProxy (fetch 0) targetUrl) ;;
         let html := App.body response in
         extractedFonts <- AppPage.extractFonts URL_href (fun n => fetch (S n))
                             parseFromString html targetUrl ;;
         match extractedFonts with
         | [] => Ok (setError s2 (js "No @font-face rules found on this page"))
         | _ => Ok (setFonts s2 extractedFonts)
         end)
        (fun _ => Ok (setError s2 (js "Could not fetch page. Try a different URL."))) ;;
      Ok (setLoading s3 false)
  end.
End Platform.

(** [family.replace(/[^a-zA-Z0-9]/g, '-')] *)
Definition file_stem (family : jsstring) : jsstring :=
  map (fun c => if is_alnum c then c else "-"%char) family.

Section Download.
(** [fetch(fontUrl)] as download calls it, and [fetch] as fetchWithProxy
    calls it, with its header. *)
Variable fetch_direct : jsstring -> option App.Response.
Variable fetch : jsstring -> option App.Response.
Variable Font_write : jsstring -> jsval -> jsval -> option jsstring.

Definition download (fontUrl family weight originalFormat : jsstring)
    (selectedFormat : AppPage.TargetFormat) : outcome Download :=
  try_catch
    (blob <- try_catch
               (match fetch_direct fontUrl with
                | Some directResponse =>
                    if App.ok directResponse then Ok (App.body directResponse)
                    else Throw (Error (js "Direct failed"))
                | None => Throw (TypeError (js "Failed to fetch"))
                end)
               (fun _ =>
                  proxyResponse <- snd (App.fetchWithProxy fetch fontUrl) ;;
                  Ok (App.body proxyResponse)) ;;
     let c := AppPage.convertFont Font_write blob originalFormat selectedFormat in
     Ok (Saved (AppPage.data c)
           (file_stem family ++ js "-" ++ weight ++ js "." ++ AppPage.ext c)))
    (fun _ => Ok (Opened fontUrl)).
End Download.

End AppView.

(* ===================================================================== *)
(** * components/FontPeek.tsx: analyze *)
(* ===================================================================== *)

Module FontPeekView.

Record State : Type := mkState {
  url : jsstring;
  fonts : list FontPeek.FontGroup;
  isLoading : bool
}.

(** [error.message]; every value thrown in the model is an Error. *)
Definition message_of (e : exn) : jsstring :=
  match e with
  | TypeError what => what
  | Error message => message
  end.

Definition newline : ascii := ascii_of_nat 10.

Definition alert_text (errorMsg : jsstring) : jsstring :=
  js "Error: " ++ errorMsg ++ [newline; newline]
  ++ js "Some sites use bot protection or load fonts dynamically with JavaScript, which prevents extraction. Try a different site or use the demo.".

Section Platform.
Variable URL_href : jsstring -> jsstring -> option jsstring.
Variable URL_hostname : jsstring -> option jsstring.
Variable URL_searchParam : jsstring -> jsstring -> option (option jsstring).
Variable fetch : nat -> jsstring -> option App.Response.
Variable network_error : exn.
Variable parseFromString : jsstring -> FontExtractorPage.Document.
Variable inherited_text : jsstring -> jsstring.

(** The state after analyze, with the text of the alert, if one was shown. *)
Definition analyze (s : State) : outcome (State * option jsstring) :=
  match trim (url s) with
  | [] => Ok (s, None)
  | _ =>
      try_catch
        (extractedFonts <- FontExtractorPage.extractFontsFromCSS URL_href URL_hostname
                             URL_searchParam fetch network_error parseFromString
                             inherited_text (url s) true ;;
         fontGroups <- FontPeek.groupFontsByFamily extractedFonts ;;
         Ok ({| url := url s; fonts := fontGroups; isLoading := false |}, None))
        (fun error =>
           Ok ({| url := url s; fonts := []; isLoading := false |},
               Some (alert_text (message_of error))))
  end.
End Platform.

End FontPeekView.

(** The URL that analyze of App.tsx loads for an input: the input trimmed,
    with https:// put before it when it does not begin with http. *)
Definition target_of (input : jsstring) : jsstring :=
  let targetUrl := trim input in
  if negb (startsWith targetUrl (js "http")) then js "https://" ++ targetUrl
  else targetUrl.

(** ** More inputs for the examples *)

Module PageExamples.

Definition names_link : jsstring :=
  js "https://fonts.googleapis.com/css?family=Open+Sans|Roboto".

(** In a query string a plus sign stands for a space. *)
Definition URL_searchParam (u name : jsstring) : option (option jsstring) :=
  if str_eqb u names_link then
    if str_eqb name (js "family") then Some (Some (js "Open Sans|Roboto"))
    else Some None
  else None.

End PageExamples.

(* ===================================================================== *)
(** * The matcher *)
(* ===================================================================== *)

Section MatcherFacts.
Variable R : Type.
Implicit Types (k : cont R) (s : jsstring) (c : captures).

Lemma star_iter_sound r :
  (forall s c k x, rmatch r s c k = Some x ->
     exists s1 c1, matches r s c s1 c1 /\ k s1 c1 = Some x) ->
  forall n s c k x, star_iter (rmatch (R:=R) r) k n s c = Some x ->
    exists s1 c1, matches (Star r) s c s1 c1 /\ k s1 c1 = Some x.
Proof.
  intros IHr n. induction n as [|n IHn]; intros s c k x H; simpl in H.
  - exists s, c. split; [constructor | exact H].
  - destruct (rmatch r s c _) as [y|] eqn:E.
    + injection H as ->.
      apply IHr in E. destruct E as (s1 & c1 & Hm & Hk).
      destruct (length s1 <? length s) eqn:Hlt; [|discriminate].
      apply Nat.ltb_lt in Hlt.
      apply IHn in Hk. destruct Hk as (s2 & c2 & Hs & Hk).
      exists s2, c2. split; [|exact Hk].
      eapply M_StarS; eassumption.
    + exists s, c. split; [constructor | exact H].
Qed.

(** Whatever the matcher answers comes from a match of the pattern followed
    by a success of the rest. *)
Lemma rmatch_sound r : forall s c k x,
  rmatch r s c k = Some x ->
  exists s1 c1, matches r s c s1 c1 /\ k s1 c1 = Some x.
Proof.
  induction r as [|p|r1 IH1 r2 IH2|r1 IH1 r2 IH2|r IH|i r IH];
    intros s c k x H; simpl in H.
  - exists s, c. split; [constructor | exact H].
  - destruct s as [|a s]; [discriminate|].
    destruct (p a) eqn:Hp; [|discriminate].
    exists s, c. split; [constructor; exact Hp | exact H].
  - apply IH1 in H. destruct H as (s1 & c1 & H1 & H).
    apply IH2 in H. destruct H as (s2 & c2 & H2 & H).
    exists s2, c2. split; [econstructor; eassumption | exact H].
  - destruct (rmatch r1 s c k) as [y|] eqn:E.
    + injection H as ->. apply IH1 in E. destruct E as (s1 & c1 & H1 & H).
      exists s1, c1. split; [apply M_AltL; exact H1 | exact H].
    + apply IH2 in H. destruct H as (s1 & c1 & H1 & H).
      exists s1, c1. split; [apply M_AltR; exact H1 | exact H].
  - eapply star_iter_sound; eassumption.
  - apply IH in H. destruct H as (s1 & c1 & H1 & H).
    eexists _, _. split; [apply M_Group; exact H1 | exact H].
Qed.
End MatcherFacts.

(** A match reads a prefix of the input. *)
Lemma matches_prefix r s c s1 c1 :
  matches r s c s1 c1 -> exists w, s = w ++ s1.
Proof.
  induction 1.
  - exists []. reflexivity.
  - exists [a]. reflexivity.
  - destruct IHmatches1 as [w1 ->]. destruct IHmatches2 as [w2 ->].
    exists (w1 ++ w2). now rewrite app_assoc.
  - assumption.
  - assumption.
  - exists []. reflexivity.
  - destruct IHmatches1 as [w1 ->]. destruct IHmatches2 as [w2 ->].
    exists (w1 ++ w2). now rewrite app_assoc.
  - assumption.
Qed.

Lemma consumed_app w s1 : consumed (w ++ s1) s1 = w.
Proof.
  unfold consumed. rewrite length_app.
  replace (length w + length s1 - length s1) with (length w) by lia.
  rewrite firstn_app, firstn_all, Nat.sub_diag. simpl. apply app_nil_r.
Qed.

(** A match reads at least [min_len] code units. *)
Lemma matches_min_len r s c s1 c1 :
  matches r s c s1 c1 -> length s1 + min_len r <= length s.
Proof.
  induction 1; simpl in *; lia.
Qed.

(** Captures are only ever added, and a group that takes part in every match
    is set at the end of one. *)
Lemma matches_sets i r s c s1 c1 :
  matches r s c s1 c1 ->
  (is_set i c -> is_set i c1) /\ (always_sets i r = true -> is_set i c1).
Proof.
  unfold is_set.
  induction 1 as [s c|p a s c Hp|r1 r2 s c s1 c1 s2 c2 H1 [A1 B1] H2 [A2 B2]
                 |r1 r2 s c s1 c1 H1 [A B]|r1 r2 s c s1 c1 H1 [A B]|r s c
                 |r s c s1 c1 s2 c2 H1 [A1 B1] Hlt H2 [A2 B2]
                 |j r s c s1 c1 H1 [A B]]; simpl.
  - split; [tauto | discriminate].
  - split; [tauto | discriminate].
  - split; [tauto|]. intros E. apply orb_true_iff in E. tauto.
  - split; [tauto|]. intros E. apply andb_true_iff in E. tauto.
  - split; [tauto|]. intros E. apply andb_true_iff in E. tauto.
  - split; [tauto | discriminate].
  - split; [tauto | discriminate].
  - destruct (i =? j) eqn:E; simpl; split; try discriminate; tauto.
Qed.

(** A capture at the end of a match is the one from before, or the text read
    by a group of that number. *)
Lemma matches_capture i r s c s1 c1 :
  matches r s c s1 c1 ->
  capture i c1 = capture i c \/
  exists g u c' u1 c1', In g (group_bodies i r) /\ matches g u c' u1 c1' /\
                        capture i c1 = Some (consumed u u1).
Proof.
  induction 1 as [s c|p a s c Hp|r1 r2 s c s1 c1 s2 c2 H1 IH1 H2 IH2
                 |r1 r2 s c s1 c1 H1 IH|r1 r2 s c s1 c1 H1 IH|r s c
                 |r s c s1 c1 s2 c2 H1 IH1 Hlt H2 IH2
                 |j r s c s1 c1 H1 IH]; simpl; auto.
  - destruct IH2 as [E2|(g & u & c' & u1 & c1' & Hin & Hm & E)].
    + rewrite E2. destruct IH1 as [E1|(g & u & c' & u1 & c1' & Hin & Hm & E)];
        [auto|].
      right. exists g, u, c', u1, c1'. rewrite in_app_iff. auto.
    + right. exists g, u, c', u1, c1'. rewrite in_app_iff. auto.
  - destruct IH as [E1|(g & u & c' & u1 & c1' & Hin & Hm & E)]; [auto|].
    right. exists g, u, c', u1, c1'. rewrite in_app_iff. auto.
  - destruct IH as [E1|(g & u & c' & u1 & c1' & Hin & Hm & E)]; [auto|].
    right. exists g, u, c', u1, c1'. rewrite in_app_iff. auto.
  - destruct IH2 as [E2|(g & u & c' & u1 & c1' & Hin & Hm & E)].
    + rewrite E2. destruct IH1 as [E1|(g & u & c' & u1 & c1' & Hin & Hm & E)];
        [auto|].
      right. exists g, u, c', u1, c1'. auto.
    + right. exists g, u, c', u1, c1'. auto.
  - destruct (i =? j) eqn:E0.
    + right. exists r, s, c, s1, c1. simpl. auto.
    + simpl. destruct IH as [E1|(g & u & c' & u1 & c1' & Hin & Hm & E)]; [auto|].
      right. exists g, u, c', u1, c1'. auto.
Qed.

(** [search] answers with a match at some position of its input. *)
Lemma search_sound r : forall s s1 c1,
  search r s = Some (s1, c1) ->
  exists pre s0, s = pre ++ s0 /\ matches r s0 [] s1 c1.
Proof.
  induction s as [|a s IH]; intros s1 c1 H; simpl in H.
  - destruct (rmatch_at r []) as [m|] eqn:E; [|discriminate].
    injection H as ->. unfold rmatch_at in E.
    apply rmatch_sound in E. destruct E as (s2 & c2 & Hm & Hk).
    injection Hk as -> ->. exists [], []. auto.
  - destruct (rmatch_at r (a :: s)) as [m|] eqn:E.
    + injection H as ->. unfold rmatch_at in E.
      apply rmatch_sound in E. destruct E as (s2 & c2 & Hm & Hk).
      injection Hk as -> ->. exists [], (a :: s). auto.
    + apply IH in H. destruct H as (pre & s0 & -> & Hm).
      exists (a :: pre), s0. auto.
Qed.

Lemma search_shorter r s s1 c1 :
  search r s = Some (s1, c1) -> length s1 + min_len r <= length s.
Proof.
  intros H. apply search_sound in H. destruct H as (pre & s0 & -> & Hm).
  apply matches_min_len in Hm. rewrite length_app. lia.
Qed.

(** ** Loops over the matches of a pattern *)

Section Loops.
Variable St : Type.
Variable r : regex.
Variable body : St -> captures -> outcome St.

(** A loop ends when its pattern cannot match the empty string and its body
    always completes; a preorder that every turn respects relates the state
    before the loop to the state after it. *)
Lemma while_exec_ok (Rl : St -> St -> Prop) :
  (forall st, Rl st st) ->
  (forall a b c, Rl a b -> Rl b c -> Rl a c) ->
  1 <= min_len r ->
  (forall st u u1 m, matches r u [] u1 m ->
     exists st', body st m = Ok st' /\ Rl st st') ->
  forall fuel s st, length s < fuel ->
    exists st', while_exec fuel r s body st = Ok st' /\ Rl st st'.
Proof.
  intros Hrefl Htrans Hmin Hbody.
  induction fuel as [|fuel IH]; intros s st Hlen; [lia|].
  simpl. destruct (search r s) as [[s1 m]|] eqn:E; [|eauto].
  pose proof (search_shorter _ _ E) as Hsh.
  apply search_sound in E. destruct E as (pre & s0 & -> & Hm).
  destruct (Hbody st _ _ _ Hm) as (st1 & -> & H1). simpl.
  destruct (IH s1 st1) as (st2 & -> & H2); [lia|].
  eauto.
Qed.

(** What holds of the state before the loop and is kept by the body holds
    after it. *)
Lemma while_exec_inv (P : St -> Prop) :
  (forall st u u1 m st', matches r u [] u1 m -> P st -> body st m = Ok st' -> P st') ->
  forall fuel s st st', P st -> while_exec fuel r s body st = Ok st' -> P st'.
Proof.
  intros Hbody. induction fuel as [|fuel IH]; intros s st st' HP H; simpl in H.
  - discriminate.
  - destruct (search r s) as [[s1 m]|] eqn:E.
    + apply search_sound in E. destruct E as (pre & s0 & -> & Hm).
      destruct (body st m) as [st1| |] eqn:Eb; simpl in H; try discriminate.
      eapply IH; [|exact H]. eapply Hbody; eassumption.
    + injection H as <-. exact HP.
Qed.
End Loops.

(** ** The bound on the turns of a star

    The matcher calls the rest of the pattern only on what is left of its
    input, so a star never lacks a turn: with [length s] turns or with more
    the answer is the same. *)
Section StarFuel.
Variable R : Type.
Implicit Types (k : cont R) (s : jsstring) (c : captures).

Lemma star_iter_ext (m : jsstring -> captures -> cont R -> option R) :
(forall s c k1 k2, agree_below s k1 k2 -> m s c k1 = m s c k2) ->
forall n s c k1 k2, agree_below s k1 k2 ->
  star_iter m k1 n s c = star_iter m k2 n s c.
Proof.
intros Hm. induction n as [|n IH]; intros s c k1 k2 Hk; simpl.
- apply Hk. lia.
- rewrite (Hm s c _ (fun s1 c1 =>
             if length s1 <? length s then star_iter m k2 n s1 c1 else None)).
  + rewrite (Hk s c) by lia. reflexivity.
  + intros s1 c1 Hle. destruct (length s1 <? length s) eqn:E; [|reflexivity].
    apply IH. intros s2 c2 Hle2. apply Hk. lia.
Qed.

Lemma rmatch_ext r : forall s c k1 k2,
agree_below s k1 k2 -> rmatch r s c k1 = rmatch r s c k2.
Proof.
induction r as [|p|r1 IH1 r2 IH2|r1 IH1 r2 IH2|r IH|i r IH];
  intros s c k1 k2 Hk; simpl.
- apply Hk. lia.
- destruct s as [|a s]; [reflexivity|]. destruct (p a); [|reflexivity].
  apply Hk. simpl. lia.
- apply IH1. intros s1 c1 Hle. apply IH2.
  intros s2 c2 Hle2. apply Hk. lia.
- rewrite (IH1 s c k1 k2 Hk), (IH2 s c k1 k2 Hk). reflexivity.
- apply star_iter_ext; [exact IH | exact Hk].
- apply IH. intros s1 c1 Hle. apply Hk. exact Hle.
Qed.

Lemma star_iter_none (m : jsstring -> captures -> cont R -> option R) :
(forall s c k1 k2, agree_below s k1 k2 -> m s c k1 = m s c k2) ->
(forall s c, m s c (fun _ _ => None) = None) ->
forall n s c, star_iter m (fun _ _ => None) n s c = None.
Proof.
intros Hext Hm. induction n as [|n IH]; intros s c; simpl; [reflexivity|].
rewrite (Hext s c _ (fun _ _ => None)).
- now rewrite Hm.
- intros s1 c1 _. rewrite IH. now destruct (length s1 <? length s).
Qed.

Lemma rmatch_none r : forall s c, rmatch (R:=R) r s c (fun _ _ => None) = None.
Proof.
induction r as [|p|r1 IH1 r2 IH2|r1 IH1 r2 IH2|r IH|i r IH]; intros s c; simpl.
- reflexivity.
- destruct s as [|a s]; [reflexivity|]. now destruct (p a).
- rewrite (@rmatch_ext r1 s c _ (fun _ _ => None)); [apply IH1|].
  intros s1 c1 _. apply IH2.
- now rewrite IH1, IH2.
- apply star_iter_none; [apply rmatch_ext | exact IH].
- apply IH.
Qed.

Lemma star_fuel_enough r k : forall n s c,
length s <= n ->
star_iter (rmatch r) k (S n) s c = star_iter (rmatch r) k n s c.
Proof.
induction n as [|n IH]; intros s c Hlen.
- destruct s; [|simpl in Hlen; lia]. simpl. now rewrite rmatch_none.
- cbn [star_iter].
  rewrite (@rmatch_ext r s c _
             (fun s1 c1 => if length s1 <? length s
                           then star_iter (rmatch r) k n s1 c1 else None));
    [reflexivity|].
  intros s1 c1 _. destruct (length s1 <? length s) eqn:E; [|reflexivity].
  apply Nat.ltb_lt in E. apply IH. lia.
Qed.
End StarFuel.

Lemma str_match_matches r s m :
  str_match r s = Some m -> exists u u1, matches r u [] u1 m.
Proof.
  unfold str_match. destruct (search r s) as [[s1 c1]|] eqn:E; [|discriminate].
  intros [= <-]. apply search_sound in E. destruct E as (pre & s0 & _ & Hm).
  eauto.
Qed.

Lemma matches_defined i r u u1 m :
  always_sets i r = true -> matches r u [] u1 m ->
  exists w, capture i m = Some w.
Proof.
  intros Hs Hm. destruct (matches_sets i Hm) as [_ B]. specialize (B Hs).
  unfold is_set in B. destruct (capture i m) as [w|]; [eauto | congruence].
Qed.

Lemma str_match_defined i r s m :
  always_sets i r = true -> str_match r s = Some m ->
  exists w, capture i m = Some w.
Proof.
  intros Hs H. apply str_match_matches in H. destruct H as (u & u1 & Hm).
  eapply matches_defined; eassumption.
Qed.

(** Case analysis on [str.match(r)] in the goal; after a match, group [i] is
    given a name, since it takes part in every match of [r]. *)
Ltac read_match r :=
  match goal with
  | |- context [str_match r ?b] =>
      let E := fresh "E" in
      destruct (str_match r b) eqn:E
  end.

Ltac read_capture i r :=
  match goal with
  | E : str_match r _ = Some _ |- _ =>
      let w := fresh "w" in
      destruct (@str_match_defined i r _ _ eq_refl E) as [w ->]
  end.

Ltac read_field r :=
  read_match r; [read_capture 1 r|]; cbn [defined bind].

Lemma for_each_match_ok St (r : regex) (body : St -> captures -> outcome St)
    (Rl : St -> St -> Prop) :
  (forall st, Rl st st) ->
  (forall a b c, Rl a b -> Rl b c -> Rl a c) ->
  1 <= min_len r ->
  (forall st u u1 m, matches r u [] u1 m ->
     exists st', body st m = Ok st' /\ Rl st st') ->
  forall s st, exists st', for_each_match r s body st = Ok st' /\ Rl st st'.
Proof.
  intros Hrefl Htrans Hmin Hbody s st. unfold for_each_match.
  apply while_exec_ok; auto.
Qed.

Lemma extends_refl A (a : list A) : extends a a.
Proof. exists []. now rewrite app_nil_r. Qed.

Lemma extends_trans A (a b c : list A) : extends a b -> extends b c -> extends a c.
Proof. intros [m1 ->] [m2 ->]. exists (m1 ++ m2). now rewrite app_assoc. Qed.

(* ===================================================================== *)
(** * parseFontFaces always completes *)
(* ===================================================================== *)

Section ExtractorTotal.
Import FontExtractor.
Variable URL_href : jsstring -> jsstring -> option jsstring.
Variable URL_hostname : jsstring -> option jsstring.

Local Abbreviation push_font := (push_font URL_href URL_hostname).
Local Abbreviation pair_step := (pair_step URL_href URL_hostname).
Local Abbreviation simple_step := (simple_step URL_href URL_hostname).
Local Abbreviation block_step := (block_step URL_href URL_hostname).
Local Abbreviation parseFontFaces := (parseFontFaces URL_href URL_hostname).

(** The try block either adds one descriptor or, when a URL constructor
    throws, leaves the list as it was. *)
Lemma push_font_eq baseUrl family weight style fontUrl fmt fonts :
  push_font baseUrl family weight style fontUrl fmt fonts =
  match URL_href fontUrl baseUrl, URL_hostname baseUrl with
  | Some fullUrl, Some host =>
      Ok (fonts ++ [ {| family := family;
                        weight := normalizeWeight weight;
                        style := style; source := host;
                        url := Some fullUrl; format := Some fmt |} ])
  | _, _ => Ok fonts
  end.
Proof.
  unfold FontExtractor.push_font, new_URL_href, new_URL_hostname.
  destruct (URL_href fontUrl baseUrl); simpl; [|reflexivity].
  destruct (URL_hostname baseUrl); reflexivity.
Qed.

Lemma push_font_ok baseUrl family weight style fontUrl fmt fonts :
  exists fonts', push_font baseUrl family weight style fontUrl fmt fonts = Ok fonts'
                 /\ extends fonts fonts'.
Proof.
  rewrite push_font_eq.
  destruct (URL_href fontUrl baseUrl); [|eauto using extends_refl].
  destruct (URL_hostname baseUrl); [|eauto using extends_refl].
  eexists. split; [reflexivity|]. eexists. reflexivity.
Qed.

Lemma pair_step_ok baseUrl family weight style fonts u u1 m :
  matches urlRegex u [] u1 m ->
  exists fonts', pair_step baseUrl family weight style fonts m = Ok fonts'
                 /\ extends fonts fonts'.
Proof.
  intros Hm. unfold FontExtractor.pair_step.
  destruct (@matches_defined 1 urlRegex _ _ _ eq_refl Hm) as [w1 ->].
  destruct (@matches_defined 2 urlRegex _ _ _ eq_refl Hm) as [w2 ->].
  simpl. apply push_font_ok.
Qed.

Lemma simple_step_ok baseUrl family weight style fonts u u1 m :
  matches simpleUrlRegex u [] u1 m ->
  exists fonts', simple_step baseUrl family weight style fonts m = Ok fonts'
                 /\ extends fonts fonts'.
Proof.
  intros Hm. unfold FontExtractor.simple_step.
  destruct (@matches_defined 1 simpleUrlRegex _ _ _ eq_refl Hm) as [w1 ->].
  simpl. destruct (already_matched fonts w1);
    [eauto using extends_refl | apply push_font_ok].
Qed.

Lemma src_loops_ok baseUrl family weight style srcValue fonts :
  exists fonts',
    (fonts1 <- for_each_match urlRegex srcValue
                 (pair_step baseUrl family weight style) fonts ;;
     for_each_match simpleUrlRegex srcValue
       (simple_step baseUrl family weight style) fonts1) = Ok fonts'
    /\ extends fonts fonts'.
Proof.
  destruct (@for_each_match_ok _ urlRegex (pair_step baseUrl family weight style)
              extends (@extends_refl _) (@extends_trans _)) with (s:=srcValue) (st:=fonts)
    as (fonts1 & -> & E1).
  - vm_compute. lia.
  - intros. eapply pair_step_ok; eassumption.
  - simpl.
    destruct (@for_each_match_ok _ simpleUrlRegex
                (simple_step baseUrl family weight style)
                extends (@extends_refl _) (@extends_trans _)) with (s:=srcValue) (st:=fonts1)
      as (fonts2 & -> & E2).
    + vm_compute. lia.
    + intros. eapply simple_step_ok; eassumption.
    + eauto using extends_trans.
Qed.

Lemma block_step_ok baseUrl fonts u u1 m :
  matches fontFaceRegex u [] u1 m ->
  exists fonts', block_step baseUrl fonts m = Ok fonts' /\ extends fonts fonts'.
Proof.
  intros Hm. unfold FontExtractor.block_step.
  destruct (@matches_defined 1 fontFaceRegex _ _ _ eq_refl Hm) as [block ->].
  cbn [defined bind].
  read_field familyRegex; read_field weightRegex; read_field styleRegex;
    read_field srcRegex; eauto using extends_refl, src_loops_ok.
Qed.

(** Parsing on top of any list of descriptors completes and only adds to
    it. *)
Lemma parse_loop_ok cssText baseUrl fonts :
  exists fonts',
    for_each_match fontFaceRegex cssText (block_step baseUrl) fonts = Ok fonts'
    /\ extends fonts fonts'.
Proof.
  apply for_each_match_ok.
  - apply extends_refl.
  - apply extends_trans.
  - vm_compute. lia.
  - intros. eapply block_step_ok; eassumption.
Qed.

Lemma parseFontFaces_ok cssText baseUrl :
  exists fonts, parseFontFaces cssText baseUrl = Ok fonts.
Proof.
  destruct (parse_loop_ok cssText baseUrl []) as (fonts & E & _).
  exists fonts. exact E.
Qed.
End ExtractorTotal.

(** ** Strings and maps *)

Lemma str_eqb_eq a : forall b, str_eqb a b = true <-> a = b.
Proof.
  induction a as [|x a IH]; intros [|y b]; simpl; split; intros H;
    try reflexivity; try discriminate.
  - apply andb_true_iff in H. destruct H as [Hx Hr].
    apply Ascii.eqb_eq in Hx. apply IH in Hr. congruence.
  - injection H as -> ->. apply andb_true_iff. split.
    + apply Ascii.eqb_refl.
    + now apply IH.
Qed.

Lemma str_eqb_refl a : str_eqb a a = true.
Proof. now apply str_eqb_eq. Qed.

Lemma str_eqb_neq a b : str_eqb a b = false <-> a <> b.
Proof.
  split.
  - intros H E. apply str_eqb_eq in E. congruence.
  - intros H. destruct (str_eqb a b) eqn:E; [|reflexivity].
    apply str_eqb_eq in E. contradiction.
Qed.

Lemma Map_get_set V (m : Map V) k v : Map_get (Map_set m k v) k = Some v.
Proof.
  induction m as [|[k' v'] m IH]; simpl.
  - now rewrite str_eqb_refl.
  - destruct (str_eqb k' k) eqn:E; simpl; rewrite E; auto.
Qed.

Lemma Map_has_get V (m : Map V) k :
  Map_has m k = true -> exists v, Map_get m k = Some v.
Proof.
  unfold Map_has. induction m as [|[k' v'] m IH]; simpl; [discriminate|].
  destruct (str_eqb k' k); simpl; eauto.
Qed.

Section AppTotal.
Variable URL_href : jsstring -> jsstring -> option jsstring.

Lemma add_to_map_ok fontMap family weight style fontUrl format :
  exists fontMap',
    App.add_to_map fontMap family weight style fontUrl format = Ok fontMap'.
Proof.
  unfold App.add_to_map.
  destruct (Map_has fontMap family) eqn:E; simpl.
  - destruct (Map_has_get _ _ E) as [ws ->]. simpl.
    destruct (existsb _ ws); simpl; eauto.
  - rewrite Map_get_set. simpl. eauto.
Qed.

Lemma App_block_step_ok baseUrl fontMap u u1 m :
  matches App.fontFaceRegex u [] u1 m ->
  exists fontMap', App.block_step URL_href baseUrl fontMap m = Ok fontMap'.
Proof.
  intros Hm. unfold App.block_step.
  destruct (@matches_defined 1 App.fontFaceRegex _ _ _ eq_refl Hm) as [block ->].
  cbn [defined bind].
  read_field App.familyRegex; [|eauto].
  read_field App.weightRegex; read_field App.styleRegex;
    (read_field App.srcRegex; [|eauto]);
    (read_match App.urlFormatRegex;
     [read_capture 1 App.urlFormatRegex; read_capture 2 App.urlFormatRegex
     |read_field App.urlOnlyRegex]);
    cbn [defined bind fst snd]; eauto;
    match goal with
    | |- context [match ?fu with [] => _ | _ :: _ => _ end] =>
        destruct fu; [eauto | apply add_to_map_ok]
    end.
Qed.

Lemma App_parseFontFaces_ok css fontMap baseUrl :
  exists fontMap', App.parseFontFaces URL_href css fontMap baseUrl = Ok fontMap'.
Proof.
  unfold App.parseFontFaces.
  destruct (@for_each_match_ok _ App.fontFaceRegex (App.block_step URL_href baseUrl)
              (fun _ _ => True)) with (s:=css) (st:=fontMap) as (m' & E & _); auto.
  - vm_compute. lia.
  - intros st u u1 m Hm.
    destruct (App_block_step_ok baseUrl st Hm) as [st' E]. eauto.
  - eauto.
Qed.
End AppTotal.

(** The inline parser of App.tsx keeps the first entry of a family for a weight
    and style: when the family already has one, the map is left as it is. *)
Lemma App_add_to_map_first_wins fontMap family weights weight style fontUrl format :
  Map_get fontMap family = Some weights ->
  existsb (fun w => str_eqb (App.weight w) weight && str_eqb (App.style w) style)
    weights = true ->
  App.add_to_map fontMap family weight style fontUrl format = Ok fontMap.
Proof.
  intros Hget Hex. unfold App.add_to_map.
  assert (Map_has fontMap family = true) as ->.
  { unfold Map_has. induction fontMap as [|[k v] m IH]; simpl in *; [discriminate|].
    destruct (str_eqb k family); [reflexivity | auto]. }
  simpl. rewrite Hget. simpl. now rewrite Hex.
Qed.

(* ===================================================================== *)
(** * Block extraction *)
(* ===================================================================== *)

(** A greedy star over a class reads all the code units of the class at once
    when the rest of the pattern accepts what follows them. *)
Lemma star_class_greedy R p (k : cont R) x t c :
  match t with a :: _ => p a = false | [] => True end ->
  k t c = Some x ->
  forall body n, forallb p body = true -> length (body ++ t) <= n ->
    star_iter (rmatch (Chr p)) k n (body ++ t) c = Some x.
Proof.
  intros Ht Hk. induction body as [|a body IH]; intros n Hall Hn.
  - simpl. destruct n as [|n]; simpl; [exact Hk|].
    destruct t as [|b t]; [exact Hk|]. rewrite Ht. exact Hk.
  - simpl in Hall. apply andb_true_iff in Hall. destruct Hall as [Ha Hall].
    destruct n as [|n]; [simpl in Hn; lia|].
    cbn [star_iter rmatch app]. rewrite Ha.
    replace (length (body ++ t) <? length (a :: body ++ t)) with true
      by (symmetry; apply Nat.ltb_lt; simpl; lia).
    rewrite IH; [reflexivity | exact Hall | simpl in Hn; lia].
Qed.

(** The block of the first match ends at the first closing brace after the
    opening one, whatever the body holds before it: the first class of the
    group reads an inner opening brace like any other code unit, and the
    nested alternative is never entered. *)
Lemma block_ends_at_first_closing_brace body rest :
  forallb not_close body = true ->
  search FontExtractor.fontFaceRegex (js "@font-face{" ++ body ++ "}"%char :: rest)
  = Some (rest, [(1, body)]).
Proof.
  intros Hbody.
  cbn [js list_ascii_of_string app search].
  replace (rmatch_at FontExtractor.fontFaceRegex _) with (Some (rest, [(1, body)]));
    [reflexivity|].
  symmetry. unfold rmatch_at, FontExtractor.fontFaceRegex.
  cbn -[star_iter consumed Nat.ltb length].
  cbn [star_iter length rmatch ws]. cbn.
  apply star_class_greedy with (p := fun x => negb (one_of (js "}") x)).
  - reflexivity.
  - cbn. rewrite consumed_app. reflexivity.
  - exact Hbody.
  - lia.
Qed.

(* ===================================================================== *)
(** * What the captured fields are *)
(* ===================================================================== *)

Lemma lower_upper x : lower_chr (upper_ascii x) = lower_chr x.
Proof. destruct x as [[] [] [] [] [] [] [] []]; reflexivity. Qed.

Lemma lower_digit a : is_digit a = true -> lower_chr a = a.
Proof. destruct a as [[] [] [] [] [] [] [] []]; intros H; try discriminate H; reflexivity. Qed.

Lemma matches_seq_inv r1 r2 s c s2 c2 :
  matches (Seq r1 r2) s c s2 c2 ->
  exists s1 c1, matches r1 s c s1 c1 /\ matches r2 s1 c1 s2 c2.
Proof. inversion 1; subst; eauto. Qed.

Lemma matches_alt_inv r1 r2 s c s1 c1 :
  matches (Alt r1 r2) s c s1 c1 -> matches r1 s c s1 c1 \/ matches r2 s c s1 c1.
Proof. inversion 1; subst; auto. Qed.

Lemma matches_chr_inv p s c s1 c1 :
  matches (Chr p) s c s1 c1 -> exists a, s = a :: s1 /\ p a = true /\ c1 = c.
Proof. inversion 1; subst; eauto. Qed.

(** A word under the [i] flag reads the word in some mix of cases. *)
Lemma matches_word_i p : forall s c s1 c1,
  matches (word_i p) s c s1 c1 ->
  exists w, s = w ++ s1 /\ toLowerCase w = toLowerCase p.
Proof.
  induction p as [|x p IH]; intros s c s1 c1 H; simpl in H.
  - inversion H; subst. exists []. auto.
  - apply matches_seq_inv in H. destruct H as (s' & c' & H1 & H2).
    apply matches_chr_inv in H1. destruct H1 as (a & -> & Ha & ->).
    apply IH in H2. destruct H2 as (w & -> & Hw).
    exists (a :: w). split; [reflexivity|].
    simpl. rewrite Hw. f_equal.
    apply Ascii.eqb_eq in Ha.
    rewrite <- (lower_upper a), <- (lower_upper x). now rewrite Ha.
Qed.

(** A star over a class reads code units of the class. *)
Lemma matches_star_class p s c s1 c1 :
  matches (Star (Chr p)) s c s1 c1 ->
  exists w, s = w ++ s1 /\ forallb p w = true.
Proof.
  intros H. remember (Star (Chr p)) as r eqn:Er.
  induction H as [| | | | |r0 s c|r0 s c s1 c1 s2 c2 H1 _ Hlt H2 IH2|];
    try discriminate Er.
  - exists []. auto.
  - injection Er as ->. destruct (IH2 eq_refl) as (w & -> & Hw).
    apply matches_chr_inv in H1. destruct H1 as (a & -> & Ha & _).
    exists (a :: w). simpl. now rewrite Ha, Hw.
Qed.

Lemma matches_plus_class p s c s1 c1 :
  matches (Plus (Chr p)) s c s1 c1 ->
  exists a w, s = a :: w ++ s1 /\ p a = true /\ forallb p w = true.
Proof.
  intros H. apply matches_seq_inv in H. destruct H as (s' & c' & H1 & H2).
  apply matches_chr_inv in H1. destruct H1 as (a & -> & Ha & _).
  apply matches_star_class in H2. destruct H2 as (w & -> & Hw).
  eauto.
Qed.

(** The first capture of a successful [str.match] is text read by the body of
    group 1. *)
Lemma str_match_capture r g s m w :
  group_bodies 1 r = [g] ->
  str_match r s = Some m -> capture 1 m = Some w ->
  exists c u1 c1, matches g (w ++ u1) c u1 c1.
Proof.
  intros Hg Hm Hw. apply str_match_matches in Hm. destruct Hm as (u & u1 & Hm).
  destruct (matches_capture 1 Hm) as [E|(g' & v & c' & v1 & c1' & Hin & Hg' & E)].
  - rewrite Hw in E. discriminate E.
  - rewrite Hg in Hin. destruct Hin as [<-|[]].
    rewrite Hw in E. injection E as ->.
    destruct (matches_prefix Hg') as [w' ->]. rewrite consumed_app.
    eauto.
Qed.

Lemma digit_key_differs a w k :
  is_digit a = true -> starts_without_digit k = true -> str_eqb (a :: w) k = false.
Proof.
  intros Ha Hk. destruct k as [|c k]; [reflexivity|]. simpl in *.
  destruct (chr_eqb a c) eqn:E; [|reflexivity].
  apply Ascii.eqb_eq in E. subst c. rewrite Ha in Hk. discriminate Hk.
Qed.

Lemma digit_key_absent keys a w :
  is_digit a = true -> forallb starts_without_digit keys = true ->
  existsb (str_eqb (a :: w)) keys = false.
Proof.
  intros Ha. induction keys as [|k keys IH]; cbn [existsb forallb]; [reflexivity|].
  intros H. apply andb_true_iff in H. destruct H as [Hk Hks].
  now rewrite (IH Hks), digit_key_differs.
Qed.

Lemma digit_key_no_property tbl a w :
  is_digit a = true -> forallb starts_without_digit (map fst tbl) = true ->
  get_property tbl (a :: w) = None.
Proof.
  intros Ha Htbl. unfold get_property.
  assert (own_property tbl (a :: w) = None) as ->.
  { induction tbl as [|[k v] tbl IH]; cbn [own_property]; [reflexivity|].
    cbn [map forallb fst] in Htbl.
    apply andb_true_iff in Htbl. destruct Htbl as [Hk Hks].
    now rewrite (IH Hks), digit_key_differs. }
  now rewrite digit_key_absent.
Qed.

(** Digits pass through [normalizeWeight]. *)
Lemma normalizeWeight_digits w :
  numeric w = true -> FontExtractor.normalizeWeight w = VStr w.
Proof.
  destruct w as [|a w]; [discriminate|]. simpl. intros H.
  apply andb_true_iff in H. destruct H as [Ha Hw].
  unfold FontExtractor.normalizeWeight. simpl toLowerCase.
  rewrite (lower_digit _ Ha), digit_key_no_property; auto.
Qed.

(** What the weight pattern captures is normalized to digits. *)
Lemma weight_capture_ok block m w :
  str_match FontExtractor.weightRegex block = Some m -> capture 1 m = Some w ->
  weight_ok (FontExtractor.normalizeWeight w).
Proof.
  intros Hm Hw.
  destruct (@str_match_capture FontExtractor.weightRegex _ _ _ _ eq_refl Hm Hw)
    as (c & u1 & c1 & H).
  cbn [alts] in H.
  repeat (apply matches_alt_inv in H; destruct H as [H|H]).
  - apply matches_plus_class in H. destruct H as (a & d & E & Ha & Hd).
    change (a :: d ++ u1) with ((a :: d) ++ u1) in E.
    apply app_inv_tail in E. subst w.
    exists (a :: d). split.
    + apply normalizeWeight_digits. simpl. now rewrite Ha, Hd.
    + simpl. now rewrite Ha, Hd.
  - apply matches_word_i in H. destruct H as (w' & E & Hl).
    apply app_inv_tail in E. subst w'.
    unfold FontExtractor.normalizeWeight. rewrite Hl.
    exists (js "400"). split; reflexivity.
  - apply matches_word_i in H. destruct H as (w' & E & Hl).
    apply app_inv_tail in E. subst w'.
    unfold FontExtractor.normalizeWeight. rewrite Hl.
    exists (js "700"). split; reflexivity.
  - apply matches_word_i in H. destruct H as (w' & E & Hl).
    apply app_inv_tail in E. subst w'.
    unfold FontExtractor.normalizeWeight. rewrite Hl.
    exists (js "300"). split; reflexivity.
  - apply matches_word_i in H. destruct H as (w' & E & Hl).
    apply app_inv_tail in E. subst w'.
    unfold FontExtractor.normalizeWeight. rewrite Hl.
    exists (js "700"). split; reflexivity.
Qed.

(** The style pattern captures one of its three words, in any mix of cases. *)
Lemma style_capture_ok block m w :
  str_match FontExtractor.styleRegex block = Some m -> capture 1 m = Some w ->
  style_ok w.
Proof.
  intros Hm Hw.
  destruct (@str_match_capture FontExtractor.styleRegex _ _ _ _ eq_refl Hm Hw)
    as (c & u1 & c1 & H).
  cbn [alts] in H. unfold style_ok.
  repeat (apply matches_alt_inv in H; destruct H as [H|H]);
    apply matches_word_i in H; destruct H as (w' & E & Hl);
    apply app_inv_tail in E; subst w'; rewrite Hl; simpl; auto.
Qed.

Lemma for_each_match_inv St (r : regex) (body : St -> captures -> outcome St)
    (P : St -> Prop) :
  (forall st u u1 m st', matches r u [] u1 m -> P st -> body st m = Ok st' -> P st') ->
  forall s st st', P st -> for_each_match r s body st = Ok st' -> P st'.
Proof.
  intros Hbody s st st'. unfold for_each_match. now apply while_exec_inv.
Qed.

(* ===================================================================== *)
(** * The descriptors of a block *)
(* ===================================================================== *)

Section ExtractorBlocks.
Import FontExtractor.
Variable URL_href : jsstring -> jsstring -> option jsstring.
Variable URL_hostname : jsstring -> option jsstring.

Local Abbreviation push_font := (push_font URL_href URL_hostname).
Local Abbreviation pair_step := (pair_step URL_href URL_hostname).
Local Abbreviation simple_step := (simple_step URL_href URL_hostname).
Local Abbreviation block_step := (block_step URL_href URL_hostname).
Local Abbreviation parseFontFaces := (parseFontFaces URL_href URL_hostname).

Lemma adds_refl family weight style fonts : adds family weight style fonts fonts.
Proof. exists []. now rewrite app_nil_r. Qed.

Lemma adds_trans family weight style a b c :
  adds family weight style a b -> adds family weight style b c ->
  adds family weight style a c.
Proof.
  intros (m1 & -> & F1) (m2 & -> & F2). exists (m1 ++ m2).
  rewrite app_assoc. split; [reflexivity|]. apply Forall_app. auto.
Qed.

Lemma push_font_adds baseUrl family weight style fontUrl fmt fonts fonts' :
  push_font baseUrl family weight style fontUrl fmt fonts = Ok fonts' ->
  adds family weight style fonts fonts'.
Proof.
  rewrite push_font_eq.
  destruct (URL_href fontUrl baseUrl); [destruct (URL_hostname baseUrl)|];
    intros [= <-]; try apply adds_refl.
  eexists. split; [reflexivity|]. constructor; [|constructor].
  repeat split.
Qed.

Lemma pair_step_adds baseUrl family weight style fonts m fonts' :
  pair_step baseUrl family weight style fonts m = Ok fonts' ->
  adds family weight style fonts fonts'.
Proof.
  unfold FontExtractor.pair_step.
  destruct (capture 1 m); [|discriminate]. destruct (capture 2 m); [|discriminate].
  simpl. apply push_font_adds.
Qed.

Lemma simple_step_adds baseUrl family weight style fonts m fonts' :
  simple_step baseUrl family weight style fonts m = Ok fonts' ->
  adds family weight style fonts fonts'.
Proof.
  unfold FontExtractor.simple_step.
  destruct (capture 1 m); [|discriminate]. simpl.
  destruct (already_matched fonts j).
  - intros [= <-]. apply adds_refl.
  - apply push_font_adds.
Qed.

Lemma src_loops_adds baseUrl family weight style srcValue fonts fonts' :
  (fonts1 <- for_each_match urlRegex srcValue
               (pair_step baseUrl family weight style) fonts ;;
   for_each_match simpleUrlRegex srcValue
     (simple_step baseUrl family weight style) fonts1) = Ok fonts' ->
  adds family weight style fonts fonts'.
Proof.
  destruct (for_each_match urlRegex srcValue _ fonts) as [fonts1| |] eqn:E1;
    simpl; try discriminate.
  intros E2.
  apply for_each_match_inv with (P := adds family weight style fonts) in E1.
  - apply for_each_match_inv with (P := adds family weight style fonts) in E2; auto.
    intros st u u1 m st' _ Hst Hb. eapply adds_trans; [exact Hst|].
    eapply simple_step_adds; eassumption.
  - intros st u u1 m st' _ Hst Hb. eapply adds_trans; [exact Hst|].
    eapply pair_step_adds; eassumption.
  - apply adds_refl.
Qed.

(** The three field readers of a block, each followed by the rest [k] of
    the loop body. *)
Lemma read_family T block (k : jsstring -> outcome T) r :
  (family <- match str_match familyRegex block with
             | Some familyMatch =>
                 f <- defined "familyMatch[1]" (capture 1 familyMatch) ;;
                 Ok (trim f)
             | None => Ok (js "Unknown")
             end ;; k family) = Ok r ->
  exists fam, (str_match familyRegex block = None -> fam = js "Unknown") /\
              k fam = Ok r.
Proof.
  destruct (str_match familyRegex block) as [fm|].
  - destruct (capture 1 fm) as [f|]; [|discriminate].
    exists (trim f). split; [discriminate | assumption].
  - exists (js "Unknown"). auto.
Qed.

Lemma read_weight T block (k : jsstring -> outcome T) r :
  (weight <- match str_match weightRegex block with
             | Some weightMatch => defined "weightMatch[1]" (capture 1 weightMatch)
             | None => Ok (js "400")
             end ;; k weight) = Ok r ->
  exists wt, weight_ok (normalizeWeight wt) /\ k wt = Ok r.
Proof.
  destruct (str_match weightRegex block) as [wm|] eqn:Ew.
  - destruct (capture 1 wm) as [w|] eqn:Ec; [|discriminate].
    exists w. split; [eapply weight_capture_ok; eassumption | assumption].
  - exists (js "400"). split; [|assumption].
    exists (js "400"). split; reflexivity.
Qed.

Lemma read_style T block (k : jsstring -> outcome T) r :
  (style <- match str_match styleRegex block with
            | Some styleMatch => defined "styleMatch[1]" (capture 1 styleMatch)
            | None => Ok (js "normal")
            end ;; k style) = Ok r ->
  exists sty, style_ok sty /\ k sty = Ok r.
Proof.
  destruct (str_match styleRegex block) as [sm|] eqn:Es.
  - destruct (capture 1 sm) as [st|] eqn:Ec; [|discriminate].
    exists st. split; [eapply style_capture_ok; eassumption | assumption].
  - exists (js "normal"). split; [left; reflexivity | assumption].
Qed.

(** What one block adds: descriptors that share the family, weight and
    style read from the block, with the weight normalized to digits, the
    style one of the three keywords, and the family [Unknown] when the
    family pattern finds nothing. *)
Lemma block_step_adds baseUrl fonts m block fonts' :
  capture 1 m = Some block ->
  block_step baseUrl fonts m = Ok fonts' ->
  exists fam wt sty,
    adds fam wt sty fonts fonts' /\
    weight_ok (normalizeWeight wt) /\ style_ok sty /\
    (str_match familyRegex block = None -> fam = js "Unknown").
Proof.
  intros Hb. unfold FontExtractor.block_step. rewrite Hb.
  cbn [defined bind]. intros H.
  apply read_family in H. destruct H as (fam & Hfam & H).
  apply read_weight in H. destruct H as (wt & Hwt & H).
  apply read_style in H. destruct H as (sty & Hsty & H).
  exists fam, wt, sty. repeat split; auto.
  destruct (str_match srcRegex block) as [srcm|].
  - destruct (capture 1 srcm) as [srcValue|]; [|discriminate].
    cbn [defined bind] in H. eapply src_loops_adds; eassumption.
  - injection H as <-. apply adds_refl.
Qed.
End ExtractorBlocks.

(** A loop that ends has run its body over the matches of the pattern. *)
Lemma while_exec_scan St (r : regex) (body : St -> captures -> outcome St) :
  forall fuel s st st',
    while_exec fuel r s body st = Ok st' ->
    fold_matches body (scan fuel r s) st = Ok st'.
Proof.
  induction fuel as [|fuel IH]; intros s st st' H; simpl in *; [discriminate|].
  destruct (search r s) as [[s1 m]|]; [|exact H].
  simpl. destruct (body st m) as [st1| |]; simpl in *; try discriminate.
  now apply IH.
Qed.

Lemma for_each_match_fold St (r : regex) (body : St -> captures -> outcome St) s st st' :
  for_each_match r s body st = Ok st' ->
  fold_matches body (matches_of r s) st = Ok st'.
Proof. apply while_exec_scan. Qed.

Section ExtractorResults.
Import FontExtractor.
Variable URL_href : jsstring -> jsstring -> option jsstring.
Variable URL_hostname : jsstring -> option jsstring.

Local Abbreviation pair_step := (pair_step URL_href URL_hostname).
Local Abbreviation block_step := (block_step URL_href URL_hostname).
Local Abbreviation parseFontFaces := (parseFontFaces URL_href URL_hostname).

(** Every descriptor of the result has digits for a weight and one of the
    three keywords, in some mix of cases, for a style. *)
Lemma parse_weights_styles cssText baseUrl fonts :
  parseFontFaces cssText baseUrl = Ok fonts ->
  Forall (fun d => weight_ok (weight d) /\ style_ok (style d)) fonts.
Proof.
  unfold FontExtractor.parseFontFaces.
  apply for_each_match_inv; [|constructor].
  intros st u u1 m st' Hm Hst Hb.
  destruct (@matches_defined 1 fontFaceRegex _ _ _ eq_refl Hm) as [block Hblock].
  destruct (block_step_adds _ _ _ _ _ Hblock Hb)
    as (fam & wt & sty & (more & -> & Hmore) & Hw & Hs & _).
  apply Forall_app. split; [exact Hst|].
  eapply Forall_impl; [|exact Hmore].
  intros d (_ & E1 & E2). rewrite E1, E2. auto.
Qed.

Local Abbreviation pair_descriptor := (pair_descriptor URL_href).

(** When the URLs of the pairs resolve, the first loop adds one descriptor
    for each pair, in order, with the declared format in lower case. *)
Lemma fold_pairs baseUrl fam wt sty :
  URL_hostname baseUrl <> None ->
  forall ms fonts fonts1,
    Forall (resolves URL_href baseUrl) ms ->
    fold_matches (pair_step baseUrl fam wt sty) ms fonts = Ok fonts1 ->
    exists more, fonts1 = fonts ++ more /\ Forall2 (pair_descriptor baseUrl) ms more.
Proof.
  intros Hh. induction ms as [|m ms IH]; intros fonts fonts1 Hres H; simpl in H.
  - injection H as <-. exists []. rewrite app_nil_r. auto.
  - unfold FontExtractor.pair_step in H at 1.
    destruct (capture 1 m) as [u|] eqn:E1; [|discriminate].
    destruct (capture 2 m) as [f|] eqn:E2; [|discriminate].
    simpl in H. rewrite push_font_eq in H.
    inversion Hres as [|m' ms' Hu Hms]; subst.
    specialize (Hu u E1).
    destruct (URL_href u baseUrl) as [h|] eqn:Eh; [|congruence].
    destruct (URL_hostname baseUrl) as [host|]; [|congruence].
    simpl in H. apply IH in H; [|exact Hms]. destruct H as (more & -> & Hmore).
    eexists (_ :: more). rewrite <- app_assoc. split; [reflexivity|].
    constructor; [|exact Hmore].
    exists u, f. simpl. rewrite Eh. auto.
Qed.

Lemma pairs_one_each baseUrl fam wt sty srcValue fonts fonts1 :
  URL_hostname baseUrl <> None ->
  Forall (resolves URL_href baseUrl) (matches_of urlRegex srcValue) ->
  for_each_match urlRegex srcValue (pair_step baseUrl fam wt sty) fonts = Ok fonts1 ->
  exists more, fonts1 = fonts ++ more /\
               Forall2 (pair_descriptor baseUrl) (matches_of urlRegex srcValue) more.
Proof.
  intros Hh Hres H. apply for_each_match_fold in H.
  eapply fold_pairs; eassumption.
Qed.
End ExtractorResults.

(* ===================================================================== *)
(** * Deduplication *)
(* ===================================================================== *)

Lemma Map_has_keys V (m : Map V) k :
  Map_has m k = existsb (fun k' => str_eqb k' k) (map fst m).
Proof.
  unfold Map_has. induction m as [|e m IH]; simpl; [reflexivity|].
  now rewrite IH.
Qed.

(** Setting a key that is not there adds an entry at the end. *)
Lemma Map_set_fresh V (m : Map V) k v :
  Map_has m k = false -> Map_set m k v = m ++ [(k, v)].
Proof.
  unfold Map_has. induction m as [|[k' v'] m IH]; simpl; [reflexivity|].
  intros H. apply orb_false_iff in H. destruct H as [H1 H2].
  rewrite H1. now rewrite IH.
Qed.

Lemma seen_In seen k :
  existsb (fun k' => str_eqb k' k) seen = true <-> In k seen.
Proof.
  rewrite existsb_exists. split.
  - intros (k' & Hin & E). apply str_eqb_eq in E. now subst.
  - intros Hin. exists k. split; [exact Hin | apply str_eqb_refl].
Qed.

Lemma seen_not_In seen k :
  existsb (fun k' => str_eqb k' k) seen = false <-> ~ In k seen.
Proof.
  rewrite <- seen_In. destruct (existsb _ seen); split; congruence.
Qed.

Section FirstWins.
Variable A : Type.
Variable key : A -> jsstring.

(** An element is kept exactly when its key is new and it is the first of
    the list with that key. *)
Lemma first_wins_In x : forall l seen,
  In x (first_wins key seen l) <->
  exists l1 l2, l = l1 ++ x :: l2 /\ ~ In (key x) seen /\ ~ In (key x) (map key l1).
Proof.
  induction l as [|y l IH]; intros seen; simpl.
  - split; [intros [] | intros (l1 & l2 & E & _)]. destruct l1; discriminate.
  - destruct (existsb _ seen) eqn:E.
    + apply seen_In in E. rewrite IH. split.
      * intros (l1 & l2 & -> & Hs & Hl). exists (y :: l1), l2. simpl.
        repeat split; auto. intros [Hy|Hin]; [|auto]. congruence.
      * intros (l1 & l2 & El & Hs & Hl). destruct l1 as [|z l1]; simpl in *.
        -- injection El as -> ->. contradiction.
        -- injection El as -> ->. exists l1, l2. tauto.
    + apply seen_not_In in E. simpl. rewrite IH. split.
      * intros [->|(l1 & l2 & -> & Hs & Hl)].
        -- exists [], l. simpl. tauto.
        -- exists (y :: l1), l2. simpl. rewrite in_app_iff in Hs. simpl in Hs.
           tauto.
      * intros (l1 & l2 & El & Hs & Hl). destruct l1 as [|z l1]; simpl in *.
        -- injection El as -> ->. auto.
        -- injection El as -> ->. right. exists l1, l2.
           rewrite in_app_iff. simpl. tauto.
Qed.

(** No key is kept twice. *)
Lemma first_wins_NoDup : forall l seen,
  NoDup (map key (first_wins key seen l)).
Proof.
  induction l as [|y l IH]; intros seen; simpl; [constructor|].
  destruct (existsb _ seen); [apply IH|]. simpl. constructor; [|apply IH].
  rewrite in_map_iff. intros (x & Ek & Hin).
  apply first_wins_In in Hin. destruct Hin as (_ & _ & _ & Hs & _).
  apply Hs. rewrite in_app_iff. simpl. auto.
Qed.
(** A list without a repeated key is kept as it is. *)
Lemma first_wins_id : forall l seen,
  NoDup (map key l) -> (forall x, In x l -> ~ In (key x) seen) ->
  first_wins key seen l = l.
Proof.
  induction l as [|y l IH]; intros seen Hnd Hseen; simpl; [reflexivity|].
  inversion Hnd as [|k ks Hy Hl]; subst.
  assert (E : existsb (fun k => str_eqb k (key y)) seen = false)
    by (apply seen_not_In, Hseen; now left).
  rewrite E. f_equal. apply IH; [exact Hl|].
  intros x Hx Hin. apply in_app_iff in Hin. destruct Hin as [Hin|[Hk|[]]].
  - apply (Hseen x); [now right | exact Hin].
  - apply Hy. rewrite Hk. now apply in_map.
Qed.
End FirstWins.

Section DedupeFacts.
Variable inherited_text : jsstring -> jsstring.

Local Abbreviation key_of := (FontExtractor.key_of inherited_text).
Local Abbreviation dedupe_step := (FontExtractor.dedupe_step inherited_text).
Local Abbreviation dedupe := (FontExtractor.dedupe inherited_text).

Lemma dedupe_fold fonts : forall acc,
  Map_values (fold_left dedupe_step fonts acc) =
  Map_values acc ++ first_wins key_of (map fst acc) fonts.
Proof.
  induction fonts as [|f fonts IH]; intros acc; simpl.
  - now rewrite app_nil_r.
  - rewrite IH. unfold FontExtractor.dedupe_step.
    rewrite Map_has_keys.
    destruct (existsb _ (map fst acc)) eqn:E; simpl; [reflexivity|].
    rewrite Map_set_fresh by (now rewrite Map_has_keys).
    unfold Map_values. rewrite !map_app, <- app_assoc. reflexivity.
Qed.

Lemma dedupe_first_wins fonts : dedupe fonts = first_wins key_of [] fonts.
Proof. unfold FontExtractor.dedupe. now rewrite dedupe_fold. Qed.

Lemma key_of_triple f g :
  family f = family g -> weight f = weight g -> style f = style g ->
  key_of f = key_of g.
Proof. unfold FontExtractor.key_of. now intros -> -> ->. Qed.
End DedupeFacts.

(** ** Where keys cannot collide *)

Lemma hyphen_split a : forall a' b b',
  forallb (is_not "-") a = true -> forallb (is_not "-") a' = true ->
  a ++ "-"%char :: b = a' ++ "-"%char :: b' -> a = a' /\ b = b'.
Proof.
  induction a as [|x a IH]; intros [|y a'] b b' Ha Ha' E; simpl in *.
  - injection E as ->. auto.
  - injection E as <- _. discriminate Ha'.
  - injection E as -> _. discriminate Ha.
  - injection E as -> E.
    apply andb_true_iff in Ha, Ha'.
    destruct (IH a' b b') as [-> ->]; tauto.
Qed.

Lemma forallb_rev A (p : A -> bool) l : forallb p (rev l) = forallb p l.
Proof.
  induction l as [|x l IH]; simpl; [reflexivity|].
  rewrite forallb_app, IH. simpl. rewrite andb_true_r. apply andb_comm.
Qed.

(** Descriptors whose weight and style hold no hyphen, as all those of the two
    parsers do, have the same key only when they have the same family, weight
    and style. *)
Lemma key_of_injective inherited_text f g wf wg :
  weight f = VStr wf -> weight g = VStr wg ->
  forallb (is_not "-") wf = true -> forallb (is_not "-") wg = true ->
  forallb (is_not "-") (style f) = true -> forallb (is_not "-") (style g) = true ->
  FontExtractor.key_of inherited_text f = FontExtractor.key_of inherited_text g ->
  family f = family g /\ weight f = weight g /\ style f = style g.
Proof.
  intros Ef Eg Hwf Hwg Hsf Hsg. unfold FontExtractor.key_of.
  rewrite Ef, Eg. cbn [FontExtractor.to_text js list_ascii_of_string app].
  intros E. apply (f_equal (@rev ascii)) in E.
  rewrite !rev_app_distr in E. cbn [rev app] in E.
  rewrite !rev_app_distr in E. cbn [rev app] in E.
  rewrite <- !app_assoc in E. cbn [app] in E.
  apply hyphen_split in E; try (now rewrite forallb_rev).
  destruct E as [Es E].
  apply hyphen_split in E; try (now rewrite forallb_rev).
  destruct E as [Ew Efam].
  apply (f_equal (@rev ascii)) in Es, Ew, Efam.
  rewrite !rev_involutive in Es, Ew, Efam.
  subst. auto.
Qed.

(* ===================================================================== *)
(** * The Google Fonts link parser *)
(* ===================================================================== *)

Lemma split_no_sep sep s :
  forallb (is_not sep) s = true -> split sep s = [s].
Proof.
  induction s as [|c s IH]; cbn [split forallb]; [reflexivity|].
  intros H. apply andb_true_iff in H. destruct H as [Hc Hs].
  unfold is_not in Hc. apply negb_true_iff in Hc. rewrite Hc.
  now rewrite (IH Hs).
Qed.

Lemma split_at_first sep a b :
  forallb (is_not sep) a = true -> split sep (a ++ sep :: b) = a :: split sep b.
Proof.
  induction a as [|c a IH]; cbn [split forallb app].
  - intros _. unfold chr_eqb. now rewrite Ascii.eqb_refl.
  - intros H. apply andb_true_iff in H. destruct H as [Hc Hs].
    unfold is_not in Hc. apply negb_true_iff in Hc. rewrite Hc.
    now rewrite (IH Hs).
Qed.

Lemma startsWith_italic s :
  startsWith s (js "italic") = true -> startsWith s (js "i") = true.
Proof.
  destruct s as [|y s]; cbn [startsWith js list_ascii_of_string]; [discriminate|].
  intros H. apply andb_true_iff in H. destruct H as [H _]. rewrite H.
  now destruct s.
Qed.

(** The second test of [isItalic] adds nothing to the first. *)
Lemma includes_italic w :
  includes w (js "italic") = true -> includes w (js "i") = true.
Proof.
  induction w as [|c w IH].
  - discriminate.
  - cbn [includes]. intros H. apply orb_true_iff in H. apply orb_true_iff.
    destruct H as [H|H]; [left; now apply startsWith_italic | right; now apply IH].
Qed.

Lemma isItalic_eq w :
  includes w (js "i") || includes w (js "italic") = includes w (js "i").
Proof.
  destruct (includes w (js "italic")) eqn:E'.
  - apply includes_italic in E'. now rewrite E'.
  - apply orb_false_r.
Qed.

Lemma strip_non_digits_numeric w :
  numeric (match strip_non_digits w with [] => js "400" | d => d end) = true.
Proof.
  unfold strip_non_digits.
  destruct (filter is_digit w) as [|a d] eqn:E; [reflexivity|].
  unfold numeric. rewrite <- E. apply forallb_forall.
  intros x Hx. apply filter_In in Hx. tauto.
Qed.

Section GoogleFacts.
Import FontExtractor.

Lemma google_weight_eq fontName w :
  google_weight fontName w =
  {| family := fontName;
     weight := VStr (match strip_non_digits w with [] => js "400" | d => d end);
     style := if includes w (js "i") then js "italic" else js "normal";
     source := js "Google Fonts"; url := None; format := None |}.
Proof. unfold google_weight. now rewrite isItalic_eq. Qed.

Lemma google_family_tokens name weights :
  forallb (is_not ":") name = true -> forallb (is_not ":") weights = true ->
  weights <> [] ->
  google_family (name ++ ":"%char :: weights) =
  map (google_weight (replace_chr "+" " " name)) (split "," weights).
Proof.
  intros Hn Hw Hne. unfold google_family.
  rewrite (split_at_first _ _ _ Hn), (split_no_sep _ _ Hw). simpl.
  destruct weights; [contradiction | reflexivity].
Qed.

Lemma google_weight_descriptor fontName w :
  google_descriptor (google_weight fontName w).
Proof.
  rewrite google_weight_eq. unfold google_descriptor. cbn [source url format weight style].
  repeat (split; [reflexivity|]). split.
  - eexists. split; [reflexivity | apply strip_non_digits_numeric].
  - destruct (includes w (js "i")); auto.
Qed.

Lemma google_family_descriptor fam d :
  In d (google_family fam) -> google_descriptor d.
Proof.
  unfold google_family.
  destruct (nth_error (split ":" fam) 1) as [[|c weights]|].
  - intros [<-|[]]. repeat (split; [reflexivity|]). split; [|now left].
    exists (js "400"). split; reflexivity.
  - rewrite in_map_iff. intros (w & <- & _). apply google_weight_descriptor.
  - intros [<-|[]]. repeat (split; [reflexivity|]). split; [|now left].
    exists (js "400"). split; reflexivity.
Qed.

Lemma parseGoogleFontsUrl_descriptor URL_searchParam link d :
  In d (parseGoogleFontsUrl URL_searchParam link) -> google_descriptor d.
Proof.
  unfold parseGoogleFontsUrl.
  destruct (URL_searchParam link (js "family")) as [[[|c p]|]|]; try intros [].
  rewrite in_flat_map. intros (fam & _ & Hin).
  eapply google_family_descriptor; eassumption.
Qed.
End GoogleFacts.

(* ===================================================================== *)
(** * The proxy fetcher *)
(* ===================================================================== *)

Section FetchFacts.
Variable fetch : jsstring -> option App.Response.

(** The relays are asked in order; the first usable response is the result
    and ends the loop; when none is usable the error is the fixed one. *)
Lemma try_proxies_spec targetUrl : forall proxies,
  match App.try_proxies fetch proxies targetUrl with
  | (log, Ok r) =>
      exists before p after,
        proxies = before ++ p :: after /\
        log = map (request_for targetUrl) (before ++ [p]) /\
        fetch (request_for targetUrl p) = Some r /\ App.ok r = true /\
        Forall (fun q => failed (fetch (request_for targetUrl q))) before
  | (log, Throw e) =>
      e = Error (js "All proxies failed") /\
      log = map (request_for targetUrl) proxies /\
      Forall (fun q => failed (fetch (request_for targetUrl q))) proxies
  | (log, Diverge) => False
  end.
Proof.
  induction proxies as [|p proxies IH]; simpl.
  - auto.
  - fold (request_for targetUrl p).
    destruct (fetch (request_for targetUrl p)) as [r|] eqn:Ef.
    + destruct (App.ok r) eqn:Eok.
      * exists [], p, proxies. simpl. auto.
      * destruct (App.try_proxies fetch proxies targetUrl) as [log [r'|e|]].
        -- destruct IH as (before & q & after & -> & -> & Hq & Hok & Hb).
           exists (p :: before), q, after. simpl. repeat split; auto.
           constructor; [|exact Hb]. rewrite Ef. exact Eok.
        -- destruct IH as (-> & -> & Hall). repeat split; auto.
           constructor; [|exact Hall]. rewrite Ef. exact Eok.
        -- exact IH.
    + destruct (App.try_proxies fetch proxies targetUrl) as [log [r'|e|]].
      * destruct IH as (before & q & after & -> & -> & Hq & Hok & Hb).
        exists (p :: before), q, after. simpl. repeat split; auto.
        constructor; [|exact Hb]. rewrite Ef. exact I.
      * destruct IH as (-> & -> & Hall). repeat split; auto.
        constructor; [|exact Hall]. rewrite Ef. exact I.
      * exact IH.
Qed.
End FetchFacts.

(* ===================================================================== *)
(** * Texts that hold a word *)
(* ===================================================================== *)

Lemma startsWith_app w : forall post, startsWith (w ++ post) w = true.
Proof.
  induction w as [|x w IH]; intros post; simpl; [now destruct post|].
  unfold chr_eqb. rewrite Ascii.eqb_refl. apply IH.
Qed.

Lemma includes_app w post : forall pre, includes (pre ++ w ++ post) w = true.
Proof.
  induction pre as [|a pre IH].
  - cbn [app]. destruct (w ++ post) eqn:E; cbn [includes]; rewrite <- E, startsWith_app;
      reflexivity.
  - cbn [app includes]. rewrite IH. apply orb_true_r.
Qed.

(** A pattern that begins with a word finds nothing in a text that does not
    hold the word in any mix of cases. *)
Lemma search_word_absent p r s :
  includes (toLowerCase s) (toLowerCase p) = false ->
  search (Seq (word_i p) r) s = None.
Proof.
  intros H. destruct (search _ s) as [[s1 m]|] eqn:E; [|reflexivity].
  apply search_sound in E. destruct E as (pre & s0 & -> & Hm).
  apply matches_seq_inv in Hm. destruct Hm as (s' & c' & Hw & _).
  apply matches_word_i in Hw. destruct Hw as (w & -> & Hw).
  unfold toLowerCase in *. rewrite !map_app, Hw, includes_app in H. discriminate.
Qed.

(* ===================================================================== *)
(** * The key and the triple *)
(* ===================================================================== *)

Lemma jsval_eqb_eq a b : jsval_eqb a b = true <-> a = b.
Proof.
  destruct a as [s|s], b as [t|t]; simpl; split; intros H; try discriminate;
    try (apply str_eqb_eq in H; now subst);
    injection H as ->; apply str_eqb_refl.
Qed.

Lemma same_identity_eq f g :
  same_identity f g = true <->
  (family f, weight f, style f) = (family g, weight g, style g).
Proof.
  unfold same_identity. rewrite !andb_true_iff, !str_eqb_eq, jsval_eqb_eq.
  split; [intros [[-> ->] ->]; reflexivity | intros [= -> -> ->]; auto].
Qed.

Lemma lower_keeps_hyphen c : is_not "-" (lower_chr c) = is_not "-" c.
Proof. destruct c as [[] [] [] [] [] [] [] []]; reflexivity. Qed.

Lemma digit_not_hyphen c : is_digit c = true -> is_not "-" c = true.
Proof. destruct c as [[] [] [] [] [] [] [] []]; intros H; try discriminate H; reflexivity. Qed.

Lemma numeric_no_hyphen d : numeric d = true -> forallb (is_not "-") d = true.
Proof.
  unfold numeric. destruct d as [|a d]; [discriminate|]. intros H.
  rewrite forallb_forall in *. intros x Hx. apply digit_not_hyphen. now apply H.
Qed.

Lemma style_no_hyphen s : style_ok s -> forallb (is_not "-") s = true.
Proof.
  unfold style_ok. intros H.
  assert (Hl : forallb (is_not "-") (toLowerCase s) = true)
    by (destruct H as [<-|[<-|[<-|[]]]]; reflexivity).
  unfold toLowerCase in Hl. rewrite forallb_forall in *. intros x Hx.
  rewrite <- lower_keeps_hyphen. apply Hl. now apply in_map.
Qed.

Section KeyFacts.
Variable inherited_text : jsstring -> jsstring.

Local Abbreviation key_of := (FontExtractor.key_of inherited_text).

(** Among descriptors without a hyphen in weight and style, the key stands
    for the family, the weight and the style. *)
Lemma hyphen_free_key f g :
  hyphen_free f = true -> hyphen_free g = true ->
  (key_of f = key_of g <-> same_identity f g = true).
Proof.
  unfold hyphen_free. intros Hf Hg.
  destruct (weight f) as [wf|] eqn:Ef; [|discriminate].
  destruct (weight g) as [wg|] eqn:Eg; [|discriminate].
  apply andb_true_iff in Hf, Hg. destruct Hf as [Hwf Hsf]. destruct Hg as [Hwg Hsg].
  rewrite same_identity_eq. split.
  - intros E.
    destruct (@key_of_injective inherited_text f g wf wg) as (E1 & E2 & E3); auto.
    congruence.
  - intros [= E1 E2 E3]. now apply key_of_triple.
Qed.

Lemma first_wins_first_seen : forall l seen,
  forallb hyphen_free (seen ++ l) = true ->
  first_wins key_of (map key_of seen) l = first_seen seen l.
Proof.
  induction l as [|x l IH]; intros seen H; simpl; [reflexivity|].
  rewrite forallb_app in H. apply andb_true_iff in H. destruct H as [Hs Hl].
  simpl in Hl. apply andb_true_iff in Hl. destruct Hl as [Hx Hl].
  assert (E : existsb (fun k => str_eqb k (key_of x)) (map key_of seen)
              = existsb (same_identity x) seen).
  { clear IH Hl. induction seen as [|y seen IHs]; simpl; [reflexivity|].
    simpl in Hs. apply andb_true_iff in Hs. destruct Hs as [Hy Hs].
    rewrite (IHs Hs). f_equal.
    destruct (same_identity x y) eqn:Ei.
    - apply str_eqb_eq. symmetry. now apply hyphen_free_key.
    - apply str_eqb_neq. intros Ek.
      assert (same_identity x y = true) by (apply hyphen_free_key; auto).
      congruence. }
  rewrite E. destruct (existsb (same_identity x) seen).
  - apply IH. rewrite forallb_app. now rewrite Hs, Hl.
  - f_equal. rewrite <- IH.
    + now rewrite map_app.
    + rewrite !forallb_app. simpl. now rewrite Hs, Hx, Hl.
Qed.

Lemma dedupe_first_seen fonts :
  forallb hyphen_free fonts = true ->
  FontExtractor.dedupe inherited_text fonts = first_seen [] fonts.
Proof.
  intros H. rewrite dedupe_first_wins.
  now apply (first_wins_first_seen fonts []).
Qed.
End KeyFacts.

(** No descriptor of the two parsers has a hyphen in its weight or style. *)
Lemma parsers_hyphen_free URL_href URL_hostname URL_searchParam cssText baseUrl link fonts :
  FontExtractor.parseFontFaces URL_href URL_hostname cssText baseUrl = Ok fonts ->
  forallb hyphen_free (fonts ++ FontExtractor.parseGoogleFontsUrl URL_searchParam link)
  = true.
Proof.
  intros H. apply parse_weights_styles in H.
  rewrite forallb_app. apply andb_true_iff. split; apply forallb_forall; intros d Hd.
  - rewrite Forall_forall in H. destruct (H d Hd) as [(w & Ew & Hw) Hs].
    unfold hyphen_free. rewrite Ew.
    now rewrite (numeric_no_hyphen _ Hw), (style_no_hyphen Hs).
  - apply parseGoogleFontsUrl_descriptor in Hd.
    destruct Hd as (_ & _ & _ & (w & Ew & Hw) & Hs).
    unfold hyphen_free. rewrite Ew, (numeric_no_hyphen _ Hw).
    destruct Hs as [-> | ->]; reflexivity.
Qed.

Lemma split_join sep : forall l,
  l <> [] -> Forall (fun s => forallb (is_not sep) s = true) l ->
  split sep (join sep l) = l.
Proof.
  induction l as [|s l IH]; intros Hne Hall; [contradiction|].
  inversion Hall as [|s' l' Hs Hl]; subst.
  destruct l as [|s2 l]; [now apply split_no_sep|].
  cbn [join]. rewrite (split_at_first _ _ _ Hs). f_equal.
  apply IH; [discriminate | exact Hl].
Qed.

Lemma join_nonempty sep l :
  l <> [] -> Forall (fun s => s <> []) l -> join sep l <> [].
Proof.
  destruct l as [|s l]; [contradiction|]. intros _ H.
  inversion H as [|s' l' Hs _]; subst.
  destruct s as [|a s]; [contradiction|]. destruct l; discriminate.
Qed.

Section GoogleSegments.
Import FontExtractor.

Lemma google_family_segment seg :
  segment_ok seg = true ->
  google_family (family_segment seg)
  = map (token_descriptor (fst seg)) (split "," (snd seg)).
Proof.
  destruct seg as [name weights]. unfold segment_ok, segment_text, family_segment.
  cbn [fst snd]. intros H.
  apply andb_true_iff in H. destruct H as [H Hne].
  apply andb_true_iff in H. destruct H as [Hn Hw].
  apply andb_true_iff in Hn, Hw. destruct Hn as [Hn _]. destruct Hw as [Hw _].
  rewrite google_family_tokens; [|exact Hn | exact Hw|].
  - apply map_ext. intros w. apply google_weight_eq.
  - intros ->. discriminate Hne.
Qed.

Lemma family_segment_no_bar seg :
  segment_ok seg = true -> forallb (is_not "|") (family_segment seg) = true.
Proof.
  destruct seg as [name weights]. unfold segment_ok, segment_text, family_segment.
  cbn [fst snd]. intros H.
  apply andb_true_iff in H. destruct H as [H _].
  apply andb_true_iff in H. destruct H as [Hn Hw].
  apply andb_true_iff in Hn, Hw. destruct Hn as [_ Hn]. destruct Hw as [_ Hw].
  rewrite forallb_app. cbn [forallb]. now rewrite Hn, Hw.
Qed.
End GoogleSegments.

(* ===================================================================== *)
(** * Reading a style sheet written out from its parts *)
(* ===================================================================== *)

(** ** Steps of the matcher that succeed *)

Section Steps.
Variable R : Type.
Implicit Types (k : cont R) (s t : jsstring) (c : captures) (x : R).

Lemma step_seq r1 r2 s c k x :
  rmatch r1 s c (fun s1 c1 => rmatch r2 s1 c1 k) = Some x ->
  rmatch (Seq r1 r2) s c k = Some x.
Proof. exact (fun H => H). Qed.

Lemma step_group i r s c k x :
  rmatch r s c (fun s1 c1 => k s1 ((i, consumed s s1) :: c1)) = Some x ->
  rmatch (Group i r) s c k = Some x.
Proof. exact (fun H => H). Qed.

Lemma step_lit a s c k x :
  k s c = Some x -> rmatch (lit_i a) (a :: s) c k = Some x.
Proof.
  intros H. unfold lit_i. cbn [rmatch]. unfold chr_eqb.
  now rewrite Ascii.eqb_refl.
Qed.

Lemma step_word p : forall s c k x,
  k s c = Some x -> rmatch (word_i p) (p ++ s) c k = Some x.
Proof.
  induction p as [|a p IH]; intros s c k x H; cbn [word_i app].
  - exact H.
  - apply step_seq, step_lit, IH, H.
Qed.

Lemma step_star p body t c k x :
  forallb p body = true ->
  match t with a :: _ => p a = false | [] => True end ->
  k t c = Some x ->
  rmatch (Star (Chr p)) (body ++ t) c k = Some x.
Proof.
  intros Hb Ht Hk. cbn [rmatch]. now apply star_class_greedy.
Qed.

Lemma step_star_none p t c k x :
  match t with a :: _ => p a = false | [] => True end ->
  k t c = Some x ->
  rmatch (Star (Chr p)) t c k = Some x.
Proof. intros Ht Hk. now apply (@step_star p [] t). Qed.

Lemma step_plus p w t c k x :
  w <> [] -> forallb p w = true ->
  match t with a :: _ => p a = false | [] => True end ->
  k t c = Some x ->
  rmatch (Plus (Chr p)) (w ++ t) c k = Some x.
Proof.
  intros Hne Hw Ht Hk. destruct w as [|a w]; [contradiction|].
  simpl in Hw. apply andb_true_iff in Hw. destruct Hw as [Ha Hw].
  unfold Plus. apply step_seq. cbn [rmatch app]. rewrite Ha.
  now apply step_star.
Qed.

Lemma step_alt_l r1 r2 s c k x :
  rmatch r1 s c k = Some x -> rmatch (Alt r1 r2) s c k = Some x.
Proof. intros H. cbn [rmatch]. now rewrite H. Qed.

Lemma step_alt_r r1 r2 s c k x :
  rmatch r1 s c k = None -> rmatch r2 s c k = Some x ->
  rmatch (Alt r1 r2) s c k = Some x.
Proof. intros H1 H2. cbn [rmatch]. now rewrite H1. Qed.

Lemma step_quote q s c k x :
  (q = NoQuote ->
   match s with a :: _ => one_of [squote; dquote] a = false | [] => True end) ->
  k s c = Some x ->
  rmatch quote_opt (quote_text q ++ s) c k = Some x.
Proof.
  intros Hs Hk. unfold quote_opt, Opt.
  destruct q; cbn [quote_text app].
  - apply step_alt_r; [|exact Hk]. cbn [rmatch].
    specialize (Hs eq_refl). destruct s as [|a s]; [reflexivity|]. now rewrite Hs.
  - apply step_alt_l. cbn [rmatch]. exact Hk.
  - apply step_alt_l. cbn [rmatch]. exact Hk.
Qed.
End Steps.

Lemma search_here r s x : rmatch_at r s = Some x -> search r s = Some x.
Proof. intros H. destruct s; cbn [search]; now rewrite H. Qed.

Lemma search_next r a s :
  rmatch_at r (a :: s) = None -> search r (a :: s) = search r s.
Proof. intros H. cbn [search]. now rewrite H. Qed.

(** ** Where a pattern cannot match *)

Lemma rmatch_at_none r s :
  (forall s1 c1, ~ matches r s [] s1 c1) -> rmatch_at r s = None.
Proof.
  intros H. unfold rmatch_at.
  destruct (rmatch r s [] _) as [[s1 c1]|] eqn:E; [|reflexivity].
  apply rmatch_sound in E. destruct E as (s2 & c2 & Hm & _).
  exfalso. eapply H. exact Hm.
Qed.

Lemma search_skip r s : forall pre,
  (forall a b, pre = a ++ b -> b <> [] -> forall s1 c1, ~ matches r (b ++ s) [] s1 c1) ->
  search r (pre ++ s) = search r s.
Proof.
  induction pre as [|a pre IH]; intros H; [reflexivity|].
  cbn [app]. rewrite search_next.
  - apply IH. intros a' b E Hb. apply (H (a :: a') b); [now subst | exact Hb].
  - apply rmatch_at_none. apply (H [] (a :: pre)); [reflexivity | discriminate].
Qed.

(** Two ways to cut one string at its first marked code unit are the same. *)
Lemma split_first (P : ascii -> bool) : forall a a' x y r r',
  forallb (fun c => negb (P c)) a = true ->
  forallb (fun c => negb (P c)) a' = true ->
  P x = true -> P y = true ->
  a ++ x :: r = a' ++ y :: r' -> a = a' /\ x = y /\ r = r'.
Proof.
  induction a as [|u a IH]; intros [|v a'] x y r r' Ha Ha' Hx Hy E; simpl in *.
  - injection E as -> ->. auto.
  - injection E as -> _. apply andb_true_iff in Ha'. destruct Ha' as [Hv _].
    rewrite Hx in Hv. discriminate.
  - injection E as -> _. apply andb_true_iff in Ha. destruct Ha as [Hu _].
    rewrite Hy in Hu. discriminate.
  - injection E as -> E. apply andb_true_iff in Ha, Ha'.
    destruct (IH a' x y r r') as (-> & -> & ->); tauto.
Qed.

Lemma is_not_eq x c : is_not x c = false -> c = x.
Proof.
  unfold is_not, chr_eqb. intros H. apply negb_false_iff in H.
  now apply Ascii.eqb_eq.
Qed.

Lemma is_not_refl x : is_not x x = false.
Proof. unfold is_not, chr_eqb. now rewrite Ascii.eqb_refl. Qed.

(** A text whose lower case holds no [z] holds none, when lowering keeps
    [z]. *)
Lemma lower_free z w :
  lower_chr z = z -> forallb (is_not z) (toLowerCase w) = true ->
  forallb (is_not z) w = true.
Proof.
  intros Hz H. unfold toLowerCase in H. rewrite forallb_forall in *.
  intros c Hc. destruct (is_not z c) eqn:E; [reflexivity|].
  apply is_not_eq in E. subst c.
  specialize (H (lower_chr z) (in_map _ _ _ Hc)).
  now rewrite Hz, is_not_refl in H.
Qed.

(** Patterns that begin with a word, then code units of a class, then a mark:
    a keyword, white space and a colon; or url and an opening parenthesis. *)
Section Anchored.
Variable r : regex.
Variable p : jsstring.
Variable x : ascii.
Variable S : ascii -> bool.

Hypothesis shape : forall s s1 c1,
  matches r s [] s1 c1 ->
  exists w sp tl, s = w ++ sp ++ x :: tl /\
                  toLowerCase w = toLowerCase p /\ forallb S sp = true.
Hypothesis p_not_empty : p <> [].

Lemma before_mark z w sp :
  lower_chr z = z -> forallb (is_not z) (toLowerCase p) = true -> S z = false ->
  toLowerCase w = toLowerCase p -> forallb S sp = true ->
  forallb (is_not z) (w ++ sp) = true.
Proof.
  intros Hz Hp HS Hw Hsp. rewrite forallb_app. apply andb_true_iff. split.
  - apply lower_free; [exact Hz | now rewrite Hw].
  - rewrite forallb_forall in *. intros c Hc.
    destruct (is_not z c) eqn:E; [reflexivity|].
    apply is_not_eq in E. subst c. specialize (Hsp z Hc). congruence.
Qed.

Hypothesis x_kept : lower_chr x = x.
Hypothesis p_free : forallb (is_not x) (toLowerCase p) = true.
Hypothesis S_not_x : S x = false.

Lemma not_free b : forallb (is_not x) b = true -> forall s1 c1, ~ matches r b [] s1 c1.
Proof.
  intros Hb s1 c1 Hm. apply shape in Hm. destruct Hm as (w & sp & tl & -> & _ & _).
  rewrite !forallb_app in Hb. simpl in Hb. rewrite is_not_refl in Hb.
  rewrite !andb_false_r in Hb. discriminate.
Qed.

Lemma free_none : forall b, forallb (is_not x) b = true -> search r b = None.
Proof.
  induction b as [|a b IH]; intros Hb.
  - cbn [search]. now rewrite (rmatch_at_none (@not_free [] Hb)).
  - rewrite search_next; [|apply rmatch_at_none, not_free, Hb].
    apply IH. simpl in Hb. apply andb_true_iff in Hb. tauto.
Qed.

Lemma no_match_at b tail :
  forallb (is_not x) b = true ->
  (forall w sp, b = w ++ sp -> forallb S sp = true ->
                toLowerCase w <> toLowerCase p) ->
  forall s1 c1, ~ matches r (b ++ x :: tail) [] s1 c1.
Proof.
  intros Hb Hno s1 c1 Hm. apply shape in Hm.
  destruct Hm as (w & sp & tl & E & Hw & Hsp).
  rewrite app_assoc in E.
  apply split_first with (P := fun c => negb (is_not x c)) in E.
  - destruct E as (E & _ & _). exact (Hno w sp E Hsp Hw).
  - apply forallb_forall. intros c Hc. rewrite forallb_forall in Hb.
    now rewrite (Hb c Hc).
  - pose proof (@before_mark x w sp x_kept p_free S_not_x Hw Hsp) as H1.
    apply forallb_forall. intros c Hc. rewrite forallb_forall in H1.
    now rewrite (H1 c Hc).
  - now rewrite is_not_refl.
  - now rewrite is_not_refl.
Qed.

(** No match begins in a stretch before a mark that does not end with the
    word. *)
Lemma skip_chunk tail : forall b,
  forallb (is_not x) b = true ->
  (forall b1 w sp, b = b1 ++ w ++ sp -> forallb S sp = true ->
                   toLowerCase w <> toLowerCase p) ->
  search r (b ++ x :: tail) = search r tail.
Proof.
  induction b as [|a b IH]; intros Hb Hno.
  - cbn [app]. apply search_next, rmatch_at_none.
    apply (@no_match_at [] tail Hb). intros w sp E. apply (Hno [] w sp E).
  - cbn [app]. rewrite search_next.
    + apply IH.
      * simpl in Hb. apply andb_true_iff in Hb. tauto.
      * intros b1 w sp E. apply (Hno (a :: b1) w sp). now rewrite E.
    + apply rmatch_at_none. apply (@no_match_at (a :: b) tail Hb).
      intros w sp E. apply (Hno [] w sp E).
Qed.

Hypothesis S_lower : forall c, S c = true -> lower_chr c = c.
Hypothesis p_no_S : forallb (fun c => negb (S c)) (toLowerCase p) = true.

Lemma word_no_S w :
  toLowerCase w = toLowerCase p -> forallb (fun c => negb (S c)) w = true.
Proof.
  intros Hw. apply forallb_forall. intros c Hc.
  destruct (S c) eqn:E; [|reflexivity].
  pose proof p_no_S as H. rewrite <- Hw in H. unfold toLowerCase in H.
  rewrite forallb_forall in H. specialize (H (lower_chr c) (in_map _ _ _ Hc)).
  rewrite (@S_lower c E), E in H. discriminate.
Qed.

Lemma S_free sp : forallb S sp = true -> forallb (is_not x) sp = true.
Proof.
  intros H. apply forallb_forall. intros c Hc. rewrite forallb_forall in H.
  destruct (is_not x c) eqn:E; [reflexivity|]. apply is_not_eq in E. subst c.
  specialize (H x Hc). congruence.
Qed.

(** No match begins before the word that stands before the mark, with
    code units of the class between them. *)
Lemma skip_to_word p' sp tail b :
  forallb (is_not x) (b ++ p') = true ->
  length p' = length p ->
  forallb (fun c => negb (S c)) p' = true ->
  forallb S sp = true ->
  search r (b ++ p' ++ sp ++ x :: tail) = search r (p' ++ sp ++ x :: tail).
Proof.
  intros Hb Hlen Hp' Hsp. apply search_skip. intros a b' -> Hne s1 c1.
  replace (b' ++ p' ++ sp ++ x :: tail) with ((b' ++ p' ++ sp) ++ x :: tail)
    by (now rewrite <- !app_assoc).
  apply no_match_at.
  - rewrite <- app_assoc, forallb_app in Hb. apply andb_true_iff in Hb.
    rewrite app_assoc, forallb_app. apply andb_true_iff. split; [tauto|].
    now apply S_free.
  - intros w sp' E Hsp' Hw.
    assert (Hl : length w = length p').
    { rewrite Hlen, <- (length_map lower_chr w), <- (length_map lower_chr p).
      unfold toLowerCase in Hw. now rewrite Hw. }
    pose proof (@word_no_S w Hw) as HwS.
    apply (f_equal (@rev ascii)) in E. rewrite !rev_app_distr, <- app_assoc in E.
    destruct (rev w) as [|d rw] eqn:Ed.
    { apply (f_equal (@length ascii)) in Ed. rewrite length_rev in Ed. simpl in Ed.
      destruct p; [contradiction | simpl in Hlen; lia]. }
    destruct (rev p') as [|e rp] eqn:Ee.
    { apply (f_equal (@length ascii)) in Ee. rewrite length_rev in Ee. simpl in Ee.
      destruct p; [contradiction | simpl in Hlen; lia]. }
    cbn [app] in E.
    apply split_first with (P := fun c => negb (S c)) in E.
    + destruct E as (_ & _ & E).
      apply (f_equal (@length ascii)) in E, Ed, Ee.
      rewrite length_app, length_rev in E. rewrite length_rev in Ed, Ee.
      simpl in Ed, Ee. destruct b'; [contradiction | simpl in E; lia].
    + apply forallb_forall. intros c Hc. apply in_rev in Hc.
      rewrite forallb_forall in Hsp. now rewrite (Hsp c Hc).
    + apply forallb_forall. intros c Hc. apply in_rev in Hc.
      rewrite forallb_forall in Hsp'. now rewrite (Hsp' c Hc).
    + rewrite forallb_forall in Hp'. apply Hp'. apply in_rev. rewrite Ee. now left.
    + rewrite forallb_forall in HwS. apply HwS. apply in_rev. rewrite Ed. now left.
Qed.

(** No match begins in a stretch of the class followed by a word that does
    not hold the word of the pattern. *)
Lemma chunk_after_gap g key b1 w sp :
  forallb S g = true ->
  key <> [] -> forallb (fun c => negb (S c)) key = true ->
  includes (toLowerCase key) (toLowerCase p) = false ->
  g ++ key = b1 ++ w ++ sp -> forallb S sp = true ->
  toLowerCase w <> toLowerCase p.
Proof.
  intros Hg Hne Hkey Hinc E Hsp Hw.
  pose proof (@word_no_S w Hw) as HwS.
  assert (sp = []) as ->.
  { destruct (rev sp) as [|d rsp] eqn:Ed.
    - apply (f_equal (@rev ascii)) in Ed. now rewrite rev_involutive in Ed.
    - exfalso. apply (f_equal (@rev ascii)) in E.
      rewrite !rev_app_distr, Ed in E.
      destruct (rev key) as [|e rk] eqn:Ee.
      { apply (f_equal (@rev ascii)) in Ee. rewrite rev_involutive in Ee.
        now subst key. }
      simpl in E. injection E as -> _.
      assert (In d sp) by (apply in_rev; rewrite Ed; now left).
      assert (In d key) by (apply in_rev; rewrite Ee; now left).
      rewrite forallb_forall in Hsp, Hkey.
      specialize (Hsp d H). specialize (Hkey d H0). rewrite Hsp in Hkey.
      discriminate. }
  rewrite app_nil_r in E. clear Hsp.
  assert (Hw0 : w <> []).
  { intros ->. simpl in Hw. destruct p; [contradiction | discriminate]. }
  revert b1 E. induction g as [|c g IH]; intros b1 E.
  - cbn [app] in E. rewrite E in Hinc. unfold toLowerCase in *.
    rewrite map_app, Hw in Hinc.
    rewrite <- (app_nil_r (map lower_chr p)) in Hinc at 1.
    rewrite includes_app in Hinc. discriminate.
  - simpl in Hg. apply andb_true_iff in Hg. destruct Hg as [Hc Hg].
    destruct b1 as [|c' b1].
    + cbn [app] in E. destruct w as [|d w]; [contradiction|].
      injection E as <- _. simpl in HwS. rewrite Hc in HwS. discriminate.
    + injection E as _ E. exact (IH Hg b1 E).
Qed.

(** A text that does not hold the word holds no end of a match. *)
Lemma chunk_without_word b b1 w sp :
  includes (toLowerCase b) (toLowerCase p) = false ->
  b = b1 ++ w ++ sp -> toLowerCase w <> toLowerCase p.
Proof.
  intros Hinc -> Hw. unfold toLowerCase in *.
  rewrite !map_app, Hw, includes_app in Hinc. discriminate.
Qed.

(** No match begins in a stretch that ends with another mark [y]. *)
Lemma skip_value y rest :
  lower_chr y = y -> forallb (is_not y) (toLowerCase p) = true -> S y = false ->
  x <> y ->
  forall v, forallb (is_not x) v = true -> forallb (is_not y) v = true ->
  search r (v ++ y :: rest) = search r rest.
Proof.
  intros Hy Hpy HSy Hxy.
  assert (Hno : forall b, forallb (is_not x) b = true -> forallb (is_not y) b = true ->
                          forall s1 c1, ~ matches r (b ++ y :: rest) [] s1 c1).
  { intros b Hbx Hby s1 c1 Hm. apply shape in Hm.
    destruct Hm as (w & sp & tl & E & Hw & Hsp). rewrite app_assoc in E.
    apply split_first with (P := fun c => negb (is_not x c && is_not y c)) in E.
    - destruct E as (_ & E & _). congruence.
    - apply forallb_forall. intros c Hc. rewrite forallb_forall in Hbx, Hby.
      now rewrite (Hbx c Hc), (Hby c Hc).
    - pose proof (@before_mark x w sp x_kept p_free S_not_x Hw Hsp) as H1.
      pose proof (@before_mark y w sp Hy Hpy HSy Hw Hsp) as H2.
      apply forallb_forall. intros c Hc. rewrite forallb_forall in H1, H2.
      now rewrite (H1 c Hc), (H2 c Hc).
    - rewrite is_not_refl. now rewrite andb_false_r.
    - now rewrite is_not_refl. }
  induction v as [|a v IH]; intros Hvx Hvy.
  - cbn [app]. apply search_next, rmatch_at_none. now apply (Hno []).
  - cbn [app]. rewrite search_next.
    + simpl in Hvx, Hvy. apply andb_true_iff in Hvx, Hvy. apply IH; tauto.
    + apply rmatch_at_none. now apply (Hno (a :: v)).
Qed.
End Anchored.

(** ** The patterns of parseFontFaces *)

Lemma mark_read x a :
  In x [":"; "("; ")"; "{"]%char ->
  chr_eqb (upper_ascii a) (upper_ascii x) = true -> a = x.
Proof.
  intros Hx H. unfold chr_eqb in H. apply Ascii.eqb_eq in H.
  simpl in Hx. destruct Hx as [<-|[<-|[<-|[<-|[]]]]];
    destruct a as [[] [] [] [] [] [] [] []]; vm_compute in H;
    try discriminate H; reflexivity.
Qed.

Lemma mark_kept x : In x [":"; "("; ")"; "{"]%char -> lower_chr x = x /\ is_space x = false.
Proof. simpl. intros [<-|[<-|[<-|[<-|[]]]]]; split; reflexivity. Qed.

Lemma space_lower c : is_space c = true -> lower_chr c = c.
Proof.
  destruct c as [[] [] [] [] [] [] [] []]; intros H; try discriminate H; reflexivity.
Qed.

Lemma lower_paren d : lower_chr d = "("%char -> d = "("%char.
Proof.
  destruct d as [[] [] [] [] [] [] [] []]; intros H; vm_compute in H;
    try discriminate H; reflexivity.
Qed.

Lemma matches_quote_opt s c s1 c1 :
  matches quote_opt s c s1 c1 ->
  s = s1 \/ exists a, s = a :: s1 /\ one_of [squote; dquote] a = true.
Proof.
  unfold quote_opt, Opt. intros H. apply matches_alt_inv in H. destruct H as [H|H].
  - apply matches_chr_inv in H. destruct H as (a & -> & Ha & _). right. eauto.
  - inversion H; subst. now left.
Qed.

Lemma keyword_shape p x rest s s1 c1 :
  In x [":"; "("; ")"; "{"]%char ->
  matches (Seq (word_i p) (Seq (Star ws) (Seq (lit_i x) rest))) s [] s1 c1 ->
  exists w sp tl, s = w ++ sp ++ x :: tl /\
                  toLowerCase w = toLowerCase p /\ forallb is_space sp = true.
Proof.
  intros Hx H.
  apply matches_seq_inv in H. destruct H as (s2 & c2 & Hw & H).
  apply matches_word_i in Hw. destruct Hw as (w & -> & Hw).
  apply matches_seq_inv in H. destruct H as (s3 & c3 & Hs & H).
  apply matches_star_class in Hs. destruct Hs as (sp & -> & Hsp).
  apply matches_seq_inv in H. destruct H as (s4 & c4 & Hc & _).
  apply matches_chr_inv in Hc. destruct Hc as (a & -> & Ha & _).
  apply mark_read in Ha; [|exact Hx]. subst a.
  exists w, sp, s4. auto.
Qed.

Lemma url_shape rest s s1 c1 :
  matches (Seq (word_i (js "url(")) rest) s [] s1 c1 ->
  exists w sp tl, s = w ++ sp ++ "("%char :: tl /\
                  toLowerCase w = toLowerCase (js "url") /\
                  forallb (fun _ => false) sp = true.
Proof.
  intros H.
  apply matches_seq_inv in H. destruct H as (s2 & c2 & Hw & _).
  apply matches_word_i in Hw. destruct Hw as (w & -> & Hw).
  destruct w as [|a [|b [|c [|d [|e w]]]]]; try discriminate Hw.
  injection Hw as Ha Hb Hc Hd. apply lower_paren in Hd. subst d.
  exists [a; b; c], [], s2. cbn [toLowerCase map]. rewrite Ha, Hb, Hc. auto.
Qed.

(** A keyword, white space and a mark. *)
Section Keyword.
Variable p : jsstring.
Variable x : ascii.
Variable rest : regex.

Local Abbreviation r := (Seq (word_i p) (Seq (Star ws) (Seq (lit_i x) rest))).

Hypothesis x_mark : In x [":"; "("; ")"; "{"]%char.
Hypothesis p_word :
  match p with
  | [] => false
  | _ => forallb (fun c => negb (is_space c) && is_not x c && is_not ";" c)
           (toLowerCase p)
  end = true.

Lemma kw_shape s s1 c1 :
  matches r s [] s1 c1 ->
  exists w sp tl, s = w ++ sp ++ x :: tl /\
                  toLowerCase w = toLowerCase p /\ forallb is_space sp = true.
Proof. apply keyword_shape, x_mark. Qed.

Lemma p_not_empty : p <> [].
Proof. intros E. rewrite E in p_word. discriminate. Qed.

Lemma p_parts :
  forallb (is_not x) (toLowerCase p) = true /\
  forallb (is_not ";") (toLowerCase p) = true /\
  forallb (fun c => negb (is_space c)) (toLowerCase p) = true.
Proof.
  pose proof p_word as H. destruct p as [|a q]; [discriminate|].
  rewrite forallb_forall in H.
  repeat split; apply forallb_forall; intros c Hc; specialize (H c Hc);
    apply andb_true_iff in H; destruct H as [H H3];
    apply andb_true_iff in H; destruct H as [H1 H2]; assumption.
Qed.

Lemma kw_find b p' sp tail :
  forallb (is_not x) (b ++ p') = true ->
  length p' = length p ->
  forallb (fun c => negb (is_space c)) p' = true ->
  forallb is_space sp = true ->
  search r (b ++ p' ++ sp ++ x :: tail) = search r (p' ++ sp ++ x :: tail).
Proof.
  destruct (mark_kept x_mark) as [Hk Hs]. destruct p_parts as (H1 & H2 & H3).
  apply (skip_to_word is_space kw_shape p_not_empty Hk H1 Hs space_lower H3).
Qed.

Lemma kw_none b : forallb (is_not x) b = true -> search r b = None.
Proof.
  apply (free_none p x is_space kw_shape).
Qed.

Lemma kw_skip g key v tail :
  x <> ";"%char ->
  forallb is_space g = true ->
  match key with
  | [] => false
  | _ => forallb (fun c => negb (is_space c) && is_not x c) key
  end = true ->
  includes (toLowerCase key) (toLowerCase p) = false ->
  forallb (fun c => is_not x c && is_not ";" c) v = true ->
  search r (g ++ key ++ x :: v ++ ";"%char :: tail) = search r tail.
Proof.
  intros Hxy Hg Hkey Hinc Hv.
  destruct (mark_kept x_mark) as [Hk Hs]. destruct p_parts as (H1 & H2 & H3).
  assert (Hk0 : key <> []) by (intros ->; discriminate).
  assert (Hk1 : forallb (fun c => negb (is_space c)) key = true /\
                forallb (is_not x) key = true).
  { destruct key as [|a k]; [contradiction|].
    rewrite forallb_forall in Hkey.
    split; apply forallb_forall; intros c Hc; specialize (Hkey c Hc);
      apply andb_true_iff in Hkey; tauto. }
  assert (Hv1 : forallb (is_not x) v = true /\ forallb (is_not ";") v = true).
  { rewrite forallb_forall in Hv.
    split; apply forallb_forall; intros c Hc; specialize (Hv c Hc);
      apply andb_true_iff in Hv; tauto. }
  replace (g ++ key ++ x :: v ++ ";"%char :: tail)
    with ((g ++ key) ++ x :: v ++ ";"%char :: tail) by (now rewrite <- app_assoc).
  rewrite (skip_chunk p is_space kw_shape Hk H1 Hs).
  - apply (skip_value p is_space kw_shape Hk H1 Hs tail); try reflexivity; tauto.
  - rewrite forallb_app. apply andb_true_iff. split; [|tauto].
    now apply (S_free p x is_space Hs H3).
  - intros b1 w sp E Hsp.
    apply (chunk_after_gap x is_space kw_shape p_not_empty H1 space_lower H3 g
             (key := key) b1 w sp); tauto.
Qed.
End Keyword.

(** The word url and an opening parenthesis. *)
Section UrlWord.
Variable rest : regex.

Local Abbreviation r := (Seq (word_i (js "url(")) rest).

Lemma url_word_shape s s1 c1 :
  matches r s [] s1 c1 ->
  exists w sp tl, s = w ++ sp ++ "("%char :: tl /\
                  toLowerCase w = toLowerCase (js "url") /\
                  forallb (fun _ => false) sp = true.
Proof. apply url_shape. Qed.

Lemma url_find b tail :
  forallb (is_not "(") b = true ->
  search r (b ++ js "url" ++ "("%char :: tail) = search r (js "url" ++ "("%char :: tail).
Proof.
  intros Hb.
  refine (skip_to_word (fun _ => false) url_word_shape _ eq_refl eq_refl eq_refl _
            eq_refl (js "url") [] tail b _ eq_refl eq_refl eq_refl).
  - discriminate.
  - discriminate.
  - rewrite forallb_app, Hb. reflexivity.
Qed.

Lemma url_skip b tail :
  forallb (is_not "(") b = true ->
  includes (toLowerCase b) (js "url") = false ->
  search r (b ++ "("%char :: tail) = search r tail.
Proof.
  intros Hb Hinc.
  apply (skip_chunk (js "url") (fun _ => false) url_word_shape eq_refl eq_refl eq_refl
           tail Hb).
  intros b1 w sp E _. unfold toLowerCase in *. subst b. intros Hw.
  rewrite !map_app, Hw, includes_app in Hinc. discriminate.
Qed.

Lemma url_none b : forallb (is_not "(") b = true -> search r b = None.
Proof. apply (free_none (js "url") "("%char (fun _ => false) url_word_shape). Qed.
End UrlWord.

Lemma one_of_sub small big x :
  (forall c, In c small -> In c big) -> one_of big x = false -> one_of small x = false.
Proof.
  unfold one_of. intros Hsub H.
  destruct (existsb (chr_eqb x) small) eqn:E; [|reflexivity].
  apply existsb_exists in E. destruct E as (c & Hc & Hx).
  assert (existsb (chr_eqb x) big = true) by (apply existsb_exists; eauto).
  congruence.
Qed.

Lemma plain_parts banned s :
  plain banned s = true ->
  s <> [] /\ forallb (fun c => negb (is_space c)) s = true /\
  forallb (fun c => negb (one_of banned c)) s = true.
Proof.
  unfold plain. destruct s as [|a s]; [discriminate|]. intros H.
  split; [discriminate|]. rewrite forallb_forall in H.
  split; apply forallb_forall; intros c Hc; specialize (H c Hc);
    apply andb_true_iff in H; tauto.
Qed.

Lemma forallb_impl (P Q : ascii -> bool) s :
  (forall c, P c = true -> Q c = true) -> forallb P s = true -> forallb Q s = true.
Proof.
  intros H Hs. rewrite forallb_forall in *. intros c Hc. auto.
Qed.

Lemma first_of (P : ascii -> bool) s t :
  s <> [] -> forallb (fun c => negb (P c)) s = true ->
  match s ++ t with a :: _ => P a = false | [] => True end.
Proof.
  destruct s as [|a s]; [contradiction|]. intros _ H. simpl in H.
  apply andb_true_iff in H. destruct H as [H _]. now apply negb_true_iff in H.
Qed.

Lemma digit_not_space c : is_digit c = true -> is_space c = false.
Proof.
  destruct c as [[] [] [] [] [] [] [] []]; intros H; try discriminate H; reflexivity.
Qed.

Section MoreSteps.
Variable R : Type.
Implicit Types (k : cont R) (s t : jsstring) (c : captures) (x : R).

(** A star whose body cannot begin here reads nothing. *)
Lemma step_star_fail r s c k x :
  (forall k', rmatch r s c k' = None) -> k s c = Some x ->
  rmatch (Star r) s c k = Some x.
Proof.
  intros H Hk. cbn [rmatch]. destruct (length s); cbn [star_iter]; [exact Hk|].
  rewrite H. exact Hk.
Qed.

(** url( with its URL, up to the closing parenthesis. *)
Lemma url_steps E qu u tail c k x :
  plain (squote :: dquote :: js "();}") u = true ->
  rmatch E (")"%char :: tail) ((1, u) :: c) k = Some x ->
  rmatch (Seq (word_i (js "url("))
            (Seq quote_opt
               (Seq (Group 1 (Plus (none_of (fun a => one_of (squote :: dquote :: js ")") a
                                                       || is_space a))))
                  (Seq quote_opt E))))
    (js "url(" ++ quote_text qu ++ u ++ quote_text qu ++ ")"%char :: tail) c k = Some x.
Proof.
  intros Hu Hk. apply plain_parts in Hu. destruct Hu as (Hne & Hsp & Hban).
  assert (Hcls : forallb (fun a => negb (one_of (squote :: dquote :: js ")") a || is_space a))
                   u = true).
  { rewrite forallb_forall in *. intros a Ha.
    specialize (Hsp a Ha). specialize (Hban a Ha).
    apply negb_true_iff in Hsp, Hban. rewrite Hsp, orb_false_r.
    apply negb_true_iff. revert Hban. apply one_of_sub.
    simpl. intuition. }
  apply step_seq, step_word. cbv beta.
  apply step_seq, step_quote.
  { intros _. apply first_of; [exact Hne|].
    revert Hban. apply forallb_impl. intros a Ha.
    apply negb_true_iff in Ha. apply negb_true_iff. revert Ha. apply one_of_sub.
    simpl. intuition. }
  cbv beta. apply step_seq, step_group.
  unfold none_of. apply step_plus; [exact Hne | exact Hcls | |].
  { destruct qu; reflexivity. }
  cbv beta. apply step_seq, step_quote; [intros _; reflexivity|].
  cbv beta. rewrite consumed_app. exact Hk.
Qed.
End MoreSteps.

Lemma url_text_app qu u tail :
  url_text qu u ++ tail
  = js "url(" ++ quote_text qu ++ u ++ quote_text qu ++ ")"%char :: tail.
Proof.
  unfold url_text. cbn [js list_ascii_of_string app]. rewrite <- !app_assoc.
  reflexivity.
Qed.

Lemma pair_text_app qu u qf f tail :
  entry_text (Pair qu u qf f) ++ tail
  = js "url(" ++ quote_text qu ++ u ++ quote_text qu ++ ")"%char ::
      [" "%char] ++ js "format(" ++ quote_text qf ++ f ++ quote_text qf ++ ")"%char :: tail.
Proof.
  unfold entry_text. rewrite <- app_assoc, url_text_app.
  cbn [js list_ascii_of_string app]. rewrite <- !app_assoc. reflexivity.
Qed.

(** The pattern of the first loop reads a url() with its format(). *)
Lemma pair_at qu u qf f tail :
  entry_ok (Pair qu u qf f) = true ->
  rmatch_at FontExtractor.urlRegex (entry_text (Pair qu u qf f) ++ tail)
  = Some (tail, [(2, f); (1, u)]).
Proof.
  intros Hok. cbn [entry_ok] in Hok. apply andb_true_iff in Hok.
  destruct Hok as [Hu Hf].
  assert (Hf0 : f <> []) by (intros ->; discriminate).
  assert (Hf1 : forallb (fun c => negb (one_of (squote :: dquote :: js "();}") c)) f = true)
    by (destruct f; [discriminate | exact Hf]).
  rewrite pair_text_app.
  unfold rmatch_at, FontExtractor.urlRegex, FontExtractor.url_part. cbn [seqs app].
  apply url_steps; [exact Hu|].
  apply step_seq, step_lit. cbv beta.
  apply step_seq. unfold ws.
  apply (@step_star _ is_space [" "%char]); [reflexivity | reflexivity |]. cbv beta.
  apply step_seq, step_word. cbv beta.
  apply step_seq, step_quote.
  { intros _. apply first_of; [exact Hf0|].
    revert Hf1. apply forallb_impl. intros a Ha.
    apply negb_true_iff in Ha. apply negb_true_iff. revert Ha. apply one_of_sub.
    simpl. intuition. }
  cbv beta. apply step_seq, step_group. unfold none_of.
  apply step_plus; [exact Hf0 | | |].
  { revert Hf1. apply forallb_impl. intros a Ha.
    apply negb_true_iff in Ha. apply negb_true_iff. revert Ha. apply one_of_sub.
    simpl. intuition. }
  { destruct qf; reflexivity. }
  cbv beta. apply step_seq, step_quote; [intros _; reflexivity|].
  cbv beta. apply step_lit. rewrite consumed_app. reflexivity.
Qed.

(** The pattern of the second loop reads the url() of an entry. *)
Lemma url_at qu u tail :
  plain (squote :: dquote :: js "();}") u = true ->
  rmatch_at FontExtractor.simpleUrlRegex (url_text qu u ++ tail) = Some (tail, [(1, u)]).
Proof.
  intros Hu. rewrite url_text_app.
  unfold rmatch_at, FontExtractor.simpleUrlRegex, FontExtractor.url_part. cbn [seqs].
  apply url_steps; [exact Hu|]. apply step_lit. reflexivity.
Qed.

(** The declarations of a block, each read where it stands. *)
Lemma family_at p d tail :
  forallb is_space p = true -> family_ok d = true ->
  rmatch_at FontExtractor.familyRegex
    (js "font-family" ++ ":"%char :: p ++ family_value d ++ ";"%char :: tail)
  = Some (";"%char :: tail, [(1, snd d)]).
Proof.
  destruct d as [q F]. unfold family_ok, family_value. cbn [fst snd].
  intros Hp HF.
  assert (HF0 : F <> []) by (intros ->; discriminate).
  assert (HF1 : forallb (fun c => negb (one_of (squote :: dquote :: js ";,:}") c)) F = true).
  { destruct F; [discriminate|]. apply andb_true_iff in HF. tauto. }
  assert (Hstop : match quote_text q ++ F ++ quote_text q ++ ";"%char :: tail with
                  | a :: _ => is_space a = false
                  | [] => True
                  end).
  { destruct F as [|a F]; [contradiction|]. apply andb_true_iff in HF.
    destruct HF as [HF _]. destruct q; cbn [quote_text app]; try reflexivity.
    now apply negb_true_iff in HF. }
  rewrite <- !app_assoc.
  unfold rmatch_at, FontExtractor.familyRegex. cbn [seqs].
  apply step_seq, step_word. cbv beta.
  apply step_seq, step_star_none; [reflexivity|]. cbv beta.
  apply step_seq, step_lit. cbv beta.
  apply step_seq, step_star; [exact Hp | exact Hstop |]. cbv beta.
  apply step_seq, step_quote.
  { intros _. apply first_of; [exact HF0|].
    revert HF1. apply forallb_impl. intros a Ha.
    apply negb_true_iff in Ha. apply negb_true_iff. revert Ha. apply one_of_sub.
    simpl. intuition. }
  cbv beta. apply step_seq, step_group. unfold none_of.
  apply step_plus; [exact HF0 | | |].
  { revert HF1. apply forallb_impl. intros a Ha.
    apply negb_true_iff in Ha. apply negb_true_iff. revert Ha. apply one_of_sub.
    simpl. intuition. }
  { destruct q; reflexivity. }
  cbv beta. apply step_quote; [intros _; reflexivity|].
  rewrite consumed_app. reflexivity.
Qed.

Lemma weight_at p w tail :
  forallb is_space p = true -> weight_word w = true ->
  exists s1 v,
    rmatch_at FontExtractor.weightRegex
      (js "font-weight" ++ ":"%char :: p ++ w ++ ";"%char :: tail)
    = Some (s1, [(1, v)]) /\
    FontExtractor.normalizeWeight v = FontExtractor.normalizeWeight w.
Proof.
  intros Hp Hw. unfold weight_word in Hw. apply orb_true_iff in Hw.
  assert (Hall : forall word (k : cont (jsstring * captures)) x,
             match word ++ ";"%char :: tail with
             | a :: _ => is_space a = false
             | [] => True
             end ->
             rmatch (Group 1 (alts [Plus digit; word_i (js "normal"); word_i (js "bold");
                                    word_i (js "lighter"); word_i (js "bolder")]))
               (word ++ ";"%char :: tail) [] k = Some x ->
             rmatch FontExtractor.weightRegex
               (js "font-weight" ++ ":"%char :: p ++ word ++ ";"%char :: tail) [] k
             = Some x).
  { intros word k x Hstop Hk. unfold FontExtractor.weightRegex. cbn [seqs].
    apply step_seq, step_word. cbv beta.
    apply step_seq, step_star_none; [reflexivity|]. cbv beta.
    apply step_seq, step_lit. cbv beta.
    apply step_seq, step_star; [exact Hp | exact Hstop | exact Hk]. }
  unfold rmatch_at.
  destruct Hw as [Hw|Hw].
  - assert (Hw0 : w <> []) by (intros ->; discriminate).
    assert (Hw1 : forallb is_digit w = true) by (destruct w; [discriminate | exact Hw]).
    exists (";"%char :: tail), w. split; [|reflexivity].
    apply Hall.
    + destruct w as [|a w]; [contradiction|]. simpl in Hw1.
      apply andb_true_iff in Hw1. destruct Hw1 as [Ha _].
      now apply digit_not_space.
    + apply step_group. cbn [alts]. apply step_alt_l. unfold digit.
      apply step_plus; [exact Hw0 | exact Hw1 | reflexivity |].
      rewrite consumed_app. reflexivity.
  - cbn [existsb] in Hw. rewrite !orb_false_r in Hw.
    repeat (apply orb_true_iff in Hw; destruct Hw as [Hw|Hw]);
      apply str_eqb_eq in Hw; subst w.
    + exists (";"%char :: tail), (js "normal"). split; [|reflexivity].
      apply Hall; [reflexivity|]. apply step_group. cbn [alts].
      apply step_alt_r; [reflexivity|]. apply step_alt_l, step_word.
      rewrite consumed_app. reflexivity.
    + exists (";"%char :: tail), (js "bold"). split; [|reflexivity].
      apply Hall; [reflexivity|]. apply step_group. cbn [alts].
      apply step_alt_r; [reflexivity|]. apply step_alt_r; [reflexivity|].
      apply step_alt_l, step_word.
      rewrite consumed_app. reflexivity.
    + exists (";"%char :: tail), (js "lighter"). split; [|reflexivity].
      apply Hall; [reflexivity|]. apply step_group. cbn [alts].
      apply step_alt_r; [reflexivity|]. apply step_alt_r; [reflexivity|].
      apply step_alt_r; [reflexivity|].
      apply step_alt_l, step_word.
      rewrite consumed_app. reflexivity.
    + exists (js "er" ++ ";"%char :: tail), (js "bold"). split; [|reflexivity].
      apply Hall; [reflexivity|]. apply step_group. cbn [alts].
      apply step_alt_r; [reflexivity|]. apply step_alt_r; [reflexivity|].
      apply step_alt_l.
      change (js "bolder" ++ ";"%char :: tail)
        with (js "bold" ++ js "er" ++ ";"%char :: tail).
      apply step_word.
      rewrite consumed_app. reflexivity.
Qed.

Lemma style_at p s tail :
  forallb is_space p = true -> style_word s = true ->
  rmatch_at FontExtractor.styleRegex
    (js "font-style" ++ ":"%char :: p ++ s ++ tail)
  = Some (tail, [(1, s)]).
Proof.
  intros Hp Hs.
  assert (Hall : forall x,
             match s ++ tail with
             | a :: _ => is_space a = false
             | [] => True
             end ->
             rmatch (Group 1 (alts [word_i (js "normal"); word_i (js "italic");
                                    word_i (js "oblique")]))
               (s ++ tail) [] (fun s1 c1 => Some (s1, c1)) = Some x ->
             rmatch_at FontExtractor.styleRegex
               (js "font-style" ++ ":"%char :: p ++ s ++ tail) = Some x).
  { intros x Hstop Hk. unfold rmatch_at, FontExtractor.styleRegex. cbn [seqs].
    apply step_seq, step_word. cbv beta.
    apply step_seq, step_star_none; [reflexivity|]. cbv beta.
    apply step_seq, step_lit. cbv beta.
    apply step_seq, step_star; [exact Hp | exact Hstop | exact Hk]. }
  unfold style_word in Hs. cbn [existsb] in Hs. rewrite !orb_false_r in Hs.
  repeat (apply orb_true_iff in Hs; destruct Hs as [Hs|Hs]);
    apply str_eqb_eq in Hs; subst s; apply Hall; try reflexivity;
    apply step_group; cbn [alts].
  - apply step_alt_l, step_word. rewrite consumed_app. reflexivity.
  - apply step_alt_r; [reflexivity|]. apply step_alt_l, step_word.
    rewrite consumed_app. reflexivity.
  - apply step_alt_r; [reflexivity|]. apply step_alt_r; [reflexivity|].
    apply step_word. rewrite consumed_app. reflexivity.
Qed.

Lemma src_at p v closing :
  forallb is_space p = true ->
  match v with a :: _ => is_space a = false | [] => False end ->
  forallb (is_not ";") v = true ->
  match closing with a :: _ => a = ";"%char | [] => True end ->
  rmatch_at FontExtractor.srcRegex (js "src" ++ ":"%char :: p ++ v ++ closing)
  = Some (closing, [(1, v)]).
Proof.
  intros Hp Hv0 Hv Hc.
  unfold rmatch_at, FontExtractor.srcRegex. cbn [seqs].
  apply step_seq, step_word. cbv beta.
  apply step_seq, step_star_none; [reflexivity|]. cbv beta.
  apply step_seq, step_lit. cbv beta.
  apply step_seq, step_star; [exact Hp | destruct v; [contradiction | exact Hv0] |].
  cbv beta. apply step_group. unfold none_of.
  apply step_plus.
  - destruct v; [contradiction | discriminate].
  - revert Hv. apply forallb_impl. intros a Ha. unfold is_not in Ha.
    unfold one_of. simpl. now rewrite orb_false_r.
  - destruct closing as [|a cl]; [exact I|]. subst a. reflexivity.
  - rewrite consumed_app. reflexivity.
Qed.

Lemma block_at p body rest :
  forallb is_space p = true -> forallb not_close body = true ->
  rmatch_at FontExtractor.fontFaceRegex
    (js "@font-face" ++ p ++ "{"%char :: body ++ "}"%char :: rest)
  = Some (rest, [(1, body)]).
Proof.
  intros Hp Hbody.
  unfold rmatch_at, FontExtractor.fontFaceRegex. cbv zeta. cbn [seqs].
  apply step_seq, step_word. cbv beta.
  apply step_seq, step_star; [exact Hp | reflexivity |]. cbv beta.
  apply step_seq, step_lit. cbv beta.
  apply step_seq, step_group, step_seq. unfold none_of.
  apply step_star; [exact Hbody | reflexivity |]. cbv beta.
  apply step_star_fail; [reflexivity|].
  apply step_lit. rewrite consumed_app. reflexivity.
Qed.

(** The pattern of the first loop does not read a url() that has no
    format(). *)
Lemma no_pair_at_bare qu u tail :
  plain (squote :: dquote :: js "();}") u = true ->
  match tail with a :: _ => a = ","%char | [] => True end ->
  rmatch_at FontExtractor.urlRegex (url_text qu u ++ tail) = None.
Proof.
  intros Hu Htail. apply plain_parts in Hu. destruct Hu as (Hne & Hsp & Hban).
  apply rmatch_at_none. intros s1 c1 Hm.
  unfold FontExtractor.urlRegex, FontExtractor.url_part in Hm. cbn [seqs app] in Hm.
  apply matches_seq_inv in Hm. destruct Hm as (t1 & d1 & Hw & Hm).
  apply matches_word_i in Hw. destruct Hw as (w & E & Hw).
  apply matches_seq_inv in Hm. destruct Hm as (t2 & d2 & Hq1 & Hm).
  apply matches_seq_inv in Hm. destruct Hm as (t3 & d3 & Hg & Hm).
  inversion Hg as [| | | | | | |i r0 s0 c0 s0' c0' Hg']; subst. clear Hg.
  apply matches_plus_class in Hg'. destruct Hg' as (a & body & -> & Ha & Hbody).
  apply matches_seq_inv in Hm. destruct Hm as (t4 & d4 & Hq2 & Hm).
  apply matches_seq_inv in Hm. destruct Hm as (t5 & d5 & Hc & Hm).
  apply matches_chr_inv in Hc. destruct Hc as (cl & -> & Hcl & _).
  apply (@mark_read ")"%char) in Hcl; [|simpl; auto]. subst cl.
  apply matches_seq_inv in Hm. destruct Hm as (t6 & d6 & Hs & Hm).
  apply matches_star_class in Hs. destruct Hs as (sp & -> & Hs).
  apply matches_seq_inv in Hm. destruct Hm as (t7 & d7 & Hf & _).
  apply matches_word_i in Hf. destruct Hf as (wf & -> & Hf).
  (* the text up to the first closing parenthesis, read in two ways *)
  assert (Hpre : exists pre, url_text qu u ++ tail = pre ++ ")"%char :: sp ++ wf ++ t7 /\
                             forallb (is_not ")") pre = true).
  { apply matches_quote_opt in Hq1, Hq2.
    assert (H1 : exists pre1, t1 = pre1 ++ a :: body ++ t3 /\
                              forallb (is_not ")") pre1 = true).
    { destruct Hq1 as [->|(b & -> & Hb)].
      - exists []. auto.
      - exists [b]. split; [reflexivity|]. simpl.
        unfold one_of in Hb. simpl in Hb. rewrite orb_false_r in Hb.
        apply orb_true_iff in Hb. unfold chr_eqb in Hb.
        destruct Hb as [Hb|Hb]; apply Ascii.eqb_eq in Hb; subst b; reflexivity. }
    assert (H2 : exists pre2, t3 = pre2 ++ ")"%char :: sp ++ wf ++ t7 /\
                              forallb (is_not ")") pre2 = true).
    { destruct Hq2 as [->|(b & -> & Hb)].
      - exists []. auto.
      - exists [b]. split; [reflexivity|]. simpl.
        unfold one_of in Hb. simpl in Hb. rewrite orb_false_r in Hb.
        apply orb_true_iff in Hb. unfold chr_eqb in Hb.
        destruct Hb as [Hb|Hb]; apply Ascii.eqb_eq in Hb; subst b; reflexivity. }
    destruct H1 as (pre1 & -> & Hp1). destruct H2 as (pre2 & -> & Hp2).
    exists (w ++ pre1 ++ a :: body ++ pre2). split.
    - rewrite E. rewrite <- !app_assoc. cbn [app]. rewrite <- !app_assoc. reflexivity.
    - rewrite !forallb_app. cbn [forallb]. rewrite forallb_app, Hp1, Hp2.
      assert (Hw' : forallb (is_not ")") w = true).
      { apply lower_free; [reflexivity|]. rewrite Hw. reflexivity. }
      assert (Hcls : forall x, negb (one_of (squote :: dquote :: js ")") x || is_space x) = true ->
                               is_not ")" x = true).
      { intros x Hx. apply negb_true_iff in Hx. apply orb_false_iff in Hx.
        destruct Hx as [Hx _]. unfold one_of in Hx. simpl in Hx.
        rewrite orb_false_r in Hx. apply orb_false_iff in Hx. destruct Hx as [_ Hx].
        apply orb_false_iff in Hx. destruct Hx as [_ Hx].
        unfold is_not. now rewrite Hx. }
      rewrite Hw', (Hcls a Ha), (@forallb_impl _ _ _ Hcls Hbody). reflexivity. }
  destruct Hpre as (pre & Epre & Hpre).
  rewrite url_text_app in Epre.
  replace (js "url(" ++ quote_text qu ++ u ++ quote_text qu ++ ")"%char :: tail)
    with ((js "url(" ++ quote_text qu ++ u ++ quote_text qu) ++ ")"%char :: tail) in Epre
    by (now rewrite <- !app_assoc).
  apply split_first with (P := fun c => negb (is_not ")" c)) in Epre.
  - destruct Epre as (_ & _ & Et).
    assert (Hlen : length (toLowerCase wf) = 7) by (rewrite Hf; reflexivity).
    unfold toLowerCase in Hlen. rewrite length_map in Hlen.
    destruct tail as [|c tail].
    + apply (f_equal (@length ascii)) in Et. rewrite !length_app in Et. simpl in Et. lia.
    + subst c. destruct sp as [|b sp].
      * destruct wf as [|b wf]; [discriminate|]. injection Et as <- _.
        discriminate Hf.
      * injection Et as <- _. discriminate Hs.
  - apply forallb_forall. intros c Hc.
    assert (Hq : forall q, forallb (is_not ")") (quote_text q) = true)
      by (intros []; reflexivity).
    assert (Hu' : forallb (is_not ")") u = true).
    { revert Hban. apply forallb_impl. intros x Hx. apply negb_true_iff in Hx.
      unfold one_of in Hx. simpl in Hx. rewrite orb_false_r in Hx.
      repeat (apply orb_false_iff in Hx; destruct Hx as [? Hx]).
      unfold is_not. now rewrite H2. }
    assert (Hall : forallb (is_not ")") (js "url(" ++ quote_text qu ++ u ++ quote_text qu) = true).
    { rewrite !forallb_app, Hq, Hu'. reflexivity. }
    rewrite forallb_forall in Hall. now rewrite (Hall c Hc).
  - apply forallb_forall. intros c Hc. rewrite forallb_forall in Hpre.
    now rewrite (Hpre c Hc).
  - reflexivity.
  - reflexivity.
Qed.

(** ** The two loops over a src value *)

Lemma while_exec_skip St (r : regex) (body : St -> captures -> outcome St) fuel s s' st :
  search r s = search r s' ->
  while_exec fuel r s body st = while_exec fuel r s' body st.
Proof. intros H. destruct fuel; [reflexivity|]. cbn [while_exec]. now rewrite H. Qed.

Lemma while_exec_done St (r : regex) (body : St -> captures -> outcome St) fuel s st :
  search r s = None -> 0 < fuel -> while_exec fuel r s body st = Ok st.
Proof. intros H Hf. destruct fuel; [lia|]. cbn [while_exec]. now rewrite H. Qed.

Lemma while_exec_turn St (r : regex) (body : St -> captures -> outcome St) fuel s s1 m st :
  search r s = Some (s1, m) ->
  while_exec (S fuel) r s body st = (st' <- body st m ;; while_exec fuel r s1 body st').
Proof. intros H. cbn [while_exec]. now rewrite H. Qed.

Lemma quote_free x q :
  x <> squote -> x <> dquote -> forallb (is_not x) (quote_text q) = true.
Proof.
  intros H1 H2. destruct q; cbn [quote_text forallb]; [reflexivity| |];
    rewrite andb_true_r; unfold is_not, chr_eqb; apply negb_true_iff, Ascii.eqb_neq;
    congruence.
Qed.

Lemma banned_free x banned s :
  In x banned -> forallb (fun c => negb (one_of banned c)) s = true ->
  forallb (is_not x) s = true.
Proof.
  intros Hx. apply forallb_impl. intros c Hc.
  destruct (is_not x c) eqn:E; [reflexivity|]. apply is_not_eq in E. subst c.
  apply negb_true_iff in Hc. unfold one_of in Hc.
  assert (existsb (chr_eqb x) banned = true).
  { apply existsb_exists. exists x. split; [exact Hx|]. unfold chr_eqb.
    apply Ascii.eqb_refl. }
  congruence.
Qed.

(** What is left of an entry after its url( holds no opening parenthesis. *)
Lemma url_rest_free qu u :
  plain (squote :: dquote :: js "();}") u = true ->
  forallb (is_not "(") (quote_text qu ++ u ++ quote_text qu ++ js ")") = true.
Proof.
  intros Hu. apply plain_parts in Hu. destruct Hu as (_ & _ & Hu).
  assert (Hq : forallb (is_not "(") (quote_text qu) = true)
    by (apply quote_free; discriminate).
  assert (Hu' : forallb (is_not "(") u = true)
    by (revert Hu; apply banned_free; simpl; auto).
  rewrite !forallb_app, Hq, Hu'. reflexivity.
Qed.

Lemma format_rest_free qf f :
  forallb (fun c => negb (one_of (squote :: dquote :: js "();}") c)) f = true ->
  forallb (is_not "(") (quote_text qf ++ f ++ quote_text qf ++ js ")") = true.
Proof.
  intros Hf.
  assert (Hq : forallb (is_not "(") (quote_text qf) = true)
    by (apply quote_free; discriminate).
  assert (Hf' : forallb (is_not "(") f = true)
    by (revert Hf; apply banned_free; simpl; auto).
  rewrite !forallb_app, Hq, Hf'. reflexivity.
Qed.

Lemma rest_text_head sp es :
  match rest_text sp es with a :: _ => a = ","%char | [] => True end.
Proof. destruct es; [exact I | reflexivity]. Qed.

Lemma rest_text_cons sp e es :
  rest_text sp (e :: es) = (","%char :: sp) ++ entry_text e ++ rest_text sp es.
Proof. unfold rest_text. cbn [flat_map app]. now rewrite <- app_assoc. Qed.

Lemma comma_free sp : forallb is_space sp = true -> forallb (is_not "(") (","%char :: sp) = true.
Proof.
  intros H. cbn [forallb]. apply andb_true_iff. split; [reflexivity|].
  revert H. apply forallb_impl. intros c Hc.
  destruct (is_not "(" c) eqn:E; [reflexivity|]. apply is_not_eq in E. subst c.
  discriminate.
Qed.

Lemma entry_text_url e :
  exists t, forall tail, entry_text e ++ tail = js "url" ++ "("%char :: t ++ tail.
Proof.
  destruct e as [qu u qf f|qu u]; unfold entry_text, url_text.
  - exists (quote_text qu ++ u ++ quote_text qu ++ js ")" ++ js " format" ++
            "("%char :: quote_text qf ++ f ++ quote_text qf ++ js ")").
    intros tail. cbn [js list_ascii_of_string app]. rewrite <- !app_assoc.
    cbn [app]. rewrite <- !app_assoc. reflexivity.
  - exists (quote_text qu ++ u ++ quote_text qu ++ js ")").
    intros tail. cbn [js list_ascii_of_string app]. rewrite <- !app_assoc. reflexivity.
Qed.

(** No match of a url pattern begins before the next entry. *)
Lemma entry_find rest pre e tail :
  forallb (is_not "(") pre = true ->
  search (Seq (word_i (js "url(")) rest) (pre ++ entry_text e ++ tail)
  = search (Seq (word_i (js "url(")) rest) (entry_text e ++ tail).
Proof.
  intros Hpre. destruct (entry_text_url e) as (t & Ht). rewrite Ht.
  now apply url_find.
Qed.

Lemma bare_passed qu u tail :
  plain (squote :: dquote :: js "();}") u = true ->
  match tail with a :: _ => a = ","%char | [] => True end ->
  search FontExtractor.urlRegex (url_text qu u ++ tail)
  = search FontExtractor.urlRegex
      ((quote_text qu ++ u ++ quote_text qu ++ js ")") ++ tail).
Proof.
  intros Hu Htail.
  pose proof (@no_pair_at_bare qu u tail Hu Htail) as Hnone.
  assert (E : url_text qu u ++ tail
              = "u"%char :: js "rl" ++ "("%char ::
                  (quote_text qu ++ u ++ quote_text qu ++ js ")") ++ tail).
  { unfold url_text. cbn [js list_ascii_of_string app]. reflexivity. }
  rewrite E in *. rewrite (@search_next _ _ _ Hnone).
  unfold FontExtractor.urlRegex, FontExtractor.url_part. cbn [seqs app].
  apply url_skip; reflexivity.
Qed.

Lemma pair_passed qu u qf f tail :
  entry_ok (Pair qu u qf f) = true ->
  exists t,
    rmatch_at FontExtractor.simpleUrlRegex (entry_text (Pair qu u qf f) ++ tail)
    = Some (t, [(1, u)]) /\
    search FontExtractor.simpleUrlRegex t
    = search FontExtractor.simpleUrlRegex
        ((quote_text qf ++ f ++ quote_text qf ++ js ")") ++ tail).
Proof.
  intros Hok. cbn [entry_ok] in Hok. apply andb_true_iff in Hok. destruct Hok as [Hu Hf].
  exists (js " format" ++ "("%char :: (quote_text qf ++ f ++ quote_text qf ++ js ")") ++ tail).
  split.
  - unfold entry_text. rewrite <- app_assoc.
    replace ((js " format" ++ "("%char :: quote_text qf ++ f ++ quote_text qf ++ js ")") ++ tail)
      with (js " format" ++ "("%char :: (quote_text qf ++ f ++ quote_text qf ++ js ")") ++ tail)
      by (cbn [js list_ascii_of_string app]; rewrite <- !app_assoc; reflexivity).
    now apply url_at.
  - unfold FontExtractor.simpleUrlRegex, FontExtractor.url_part. cbn [seqs].
    apply url_skip; reflexivity.
Qed.

Section SrcLoops.
Variable URL_href : jsstring -> jsstring -> option jsstring.
Variable URL_hostname : jsstring -> option jsstring.
Variable baseUrl : jsstring.
Variable b : Block.
Variable sp : jsstring.
Variable fam : jsstring.
Variable wt : jsstring.
Variable sty : jsstring.

Hypothesis sp_space : forallb is_space sp = true.
Hypothesis fam_eq : fam = block_family b.
Hypothesis wt_eq : FontExtractor.normalizeWeight wt = block_weight b.
Hypothesis sty_eq : sty = block_style b.

Local Abbreviation pair_step :=
  (FontExtractor.pair_step URL_href URL_hostname baseUrl fam wt sty).
Local Abbreviation simple_step :=
  (FontExtractor.simple_step URL_href URL_hostname baseUrl fam wt sty).
Local Abbreviation add := (add_font URL_href URL_hostname baseUrl b).
Local Abbreviation pairs := (add_pair URL_href URL_hostname baseUrl b).
Local Abbreviation bares := (add_bare URL_href URL_hostname baseUrl b).

Lemma push_font_add fontUrl fmt fonts :
  FontExtractor.push_font URL_href URL_hostname baseUrl fam wt sty fontUrl fmt fonts
  = Ok (add fontUrl fmt fonts).
Proof.
  rewrite push_font_eq, fam_eq, wt_eq, sty_eq. unfold add_font.
  destruct (URL_href fontUrl baseUrl); [destruct (URL_hostname baseUrl)|]; reflexivity.
Qed.

Lemma add_font_extends fontUrl fmt fonts :
  exists more, add fontUrl fmt fonts = fonts ++ more.
Proof.
  unfold add_font.
  destruct (URL_href fontUrl baseUrl); [destruct (URL_hostname baseUrl)|];
    eauto using app_nil_r.
Qed.

Lemma add_pair_extends fonts e : exists more, pairs fonts e = fonts ++ more.
Proof.
  destruct e; cbn [add_pair]; [apply add_font_extends|].
  exists []. now rewrite app_nil_r.
Qed.

Lemma add_bare_extends fonts e : exists more, bares fonts e = fonts ++ more.
Proof.
  destruct e; cbn [add_bare].
  - exists []. now rewrite app_nil_r.
  - destruct (FontExtractor.already_matched fonts u); [|apply add_font_extends].
    exists []. now rewrite app_nil_r.
Qed.

Lemma add_pairs_extends es : forall fonts,
  exists more, fold_left pairs es fonts = fonts ++ more.
Proof.
  induction es as [|e es IH]; intros fonts; cbn [fold_left].
  - exists []. now rewrite app_nil_r.
  - destruct (add_pair_extends fonts e) as (m1 & ->).
    destruct (IH (fonts ++ m1)) as (m2 & ->).
    exists (m1 ++ m2). now rewrite app_assoc.
Qed.

(** The first loop: one turn for each url() with a format(). *)
Lemma pairs_loop : forall es pre fonts fuel,
  forallb (is_not "(") pre = true ->
  forallb entry_ok es = true ->
  length es < fuel ->
  while_exec fuel FontExtractor.urlRegex (pre ++ rest_text sp es) pair_step fonts
  = Ok (fold_left pairs es fonts).
Proof.
  induction es as [|e es IH]; intros pre fonts fuel Hpre Hok Hfuel.
  - cbn [rest_text flat_map fold_left]. rewrite app_nil_r.
    apply while_exec_done; [|lia].
    unfold FontExtractor.urlRegex, FontExtractor.url_part. cbn [seqs app].
    now apply url_none.
  - cbn [forallb] in Hok. apply andb_true_iff in Hok. destruct Hok as [He Hes].
    cbn [length] in Hfuel. cbn [fold_left].
    rewrite rest_text_cons, app_assoc.
    rewrite (@while_exec_skip _ _ _ _ _ (entry_text e ++ rest_text sp es)).
    2:{ unfold FontExtractor.urlRegex, FontExtractor.url_part. cbn [seqs app].
        apply entry_find. rewrite forallb_app, Hpre. now apply comma_free. }
    destruct e as [qu u qf f|qu u].
    + destruct fuel as [|fuel]; [lia|].
      rewrite (@while_exec_turn _ _ _ _ _ _ _ _
                 (search_here _ _ (@pair_at qu u qf f (rest_text sp es) He))).
      unfold FontExtractor.pair_step. cbn [capture Nat.eqb defined bind].
      rewrite push_font_add. cbn [bind add_pair].
      apply (IH []); [reflexivity | exact Hes | lia].
    + cbn [entry_text entry_ok] in *.
      rewrite (@while_exec_skip _ _ _ _ _
                 ((quote_text qu ++ u ++ quote_text qu ++ js ")") ++ rest_text sp es)).
      2:{ apply bare_passed; [exact He | apply rest_text_head]. }
      cbn [add_pair].
      apply IH; [now apply url_rest_free | exact Hes | lia].
Qed.

(** An entry that the second loop leaves alone, whatever is added to the
    list. *)
Local Abbreviation settled fonts e :=
  (match e with
   | Pair _ u _ _ =>
       forall more, simple_step (fonts ++ more) [(1, u)] = Ok (fonts ++ more)
   | Bare _ _ => True
   end).

Lemma already_matched_app fonts more u :
  FontExtractor.already_matched fonts u = true ->
  FontExtractor.already_matched (fonts ++ more) u = true.
Proof.
  unfold FontExtractor.already_matched. rewrite existsb_app. now intros ->.
Qed.

Lemma pair_settled fonts e :
  in_full URL_href baseUrl e = true -> settled (pairs fonts e) e.
Proof.
  destruct e as [qu u qf f|qu u]; [|exact (fun _ => I)].
  cbn [in_full add_pair]. intros Hfull more.
  unfold FontExtractor.simple_step. cbn [capture Nat.eqb defined bind].
  rewrite push_font_add. unfold add_font.
  destruct (URL_href u baseUrl) as [fullUrl|] eqn:Eu;
    [destruct (URL_hostname baseUrl) as [host|] eqn:Eh|].
  - rewrite already_matched_app; [reflexivity|].
    unfold FontExtractor.already_matched. rewrite existsb_app. cbn [existsb url].
    rewrite Hfull. now rewrite orb_true_r.
  - now destruct (FontExtractor.already_matched _ _).
  - now destruct (FontExtractor.already_matched _ _).
Qed.

Lemma settled_app fonts more e : settled fonts e -> settled (fonts ++ more) e.
Proof.
  destruct e as [qu u qf f|qu u]; [|auto].
  intros H more'. rewrite <- app_assoc. apply H.
Qed.

Lemma pairs_settled es : forall fonts,
  forallb (in_full URL_href baseUrl) es = true ->
  Forall (fun e => settled (fold_left pairs es fonts) e) es.
Proof.
  induction es as [|e es IH]; intros fonts Hfull; [constructor|].
  cbn [forallb] in Hfull. apply andb_true_iff in Hfull. destruct Hfull as [He Hes].
  cbn [fold_left]. constructor.
  - destruct (add_pairs_extends es (pairs fonts e)) as (more & ->).
    apply settled_app, pair_settled, He.
  - apply IH, Hes.
Qed.

(** The second loop: one turn for each entry; only a bare url() whose text
    is not part of a URL of the list adds a descriptor. *)
Lemma bares_loop : forall es pre fonts fuel,
  forallb (is_not "(") pre = true ->
  forallb entry_ok es = true ->
  Forall (fun e => settled fonts e) es ->
  length es < fuel ->
  while_exec fuel FontExtractor.simpleUrlRegex (pre ++ rest_text sp es) simple_step fonts
  = Ok (fold_left bares es fonts).
Proof.
  induction es as [|e es IH]; intros pre fonts fuel Hpre Hok Hset Hfuel.
  - cbn [rest_text flat_map fold_left]. rewrite app_nil_r.
    apply while_exec_done; [|lia].
    unfold FontExtractor.simpleUrlRegex, FontExtractor.url_part. cbn [seqs].
    now apply url_none.
  - cbn [forallb] in Hok. apply andb_true_iff in Hok. destruct Hok as [He Hes].
    cbn [length] in Hfuel. cbn [fold_left].
    inversion Hset as [|e0 es0 Hse Hses]; subst e0 es0.
    rewrite rest_text_cons, app_assoc.
    rewrite (@while_exec_skip _ _ _ _ _ (entry_text e ++ rest_text sp es)).
    2:{ unfold FontExtractor.simpleUrlRegex, FontExtractor.url_part. cbn [seqs].
        apply entry_find. rewrite forallb_app, Hpre. now apply comma_free. }
    destruct fuel as [|fuel]; [lia|].
    destruct e as [qu u qf f|qu u].
    + destruct (@pair_passed qu u qf f (rest_text sp es) He) as (t & Hat & Hskip).
      rewrite (@while_exec_turn _ _ _ _ _ _ _ _ (search_here _ _ Hat)).
      specialize (Hse []). rewrite app_nil_r in Hse. rewrite Hse. cbn [bind add_bare].
      rewrite (@while_exec_skip _ _ _ _ _ _ _ Hskip).
      cbn [entry_ok] in He. apply andb_true_iff in He. destruct He as [_ Hf].
      apply IH; [|exact Hes | exact Hses | lia].
      apply format_rest_free. destruct f; [discriminate | exact Hf].
    + cbn [entry_text entry_ok] in *.
      rewrite (@while_exec_turn _ _ _ _ _ _ _ _
                 (search_here _ _ (@url_at qu u (rest_text sp es) He))).
      assert (Hstep : simple_step fonts [(1, u)] = Ok (bares fonts (Bare qu u))).
      { unfold FontExtractor.simple_step. cbn [capture Nat.eqb defined bind add_bare].
        destruct (FontExtractor.already_matched fonts u); [reflexivity|].
        apply push_font_add. }
      rewrite Hstep. cbn [bind].
      apply (IH []); [reflexivity | exact Hes | | lia].
      destruct (add_bare_extends fonts (Bare qu u)) as (more & ->).
      eapply Forall_impl; [|exact Hses]. intros e. apply settled_app.
Qed.

Lemma entries_length es : length es <= length (rest_text sp es).
Proof.
  induction es as [|e es IH]; [apply Nat.le_refl|].
  rewrite rest_text_cons. cbn [app length].
  rewrite !length_app. lia.
Qed.

(** Both loops over the src value of a block. *)
Lemma src_loops e es fonts :
  forallb entry_ok (e :: es) = true ->
  forallb (in_full URL_href baseUrl) (e :: es) = true ->
  (fonts1 <- for_each_match FontExtractor.urlRegex (entry_text e ++ rest_text sp es)
               pair_step fonts ;;
   for_each_match FontExtractor.simpleUrlRegex (entry_text e ++ rest_text sp es)
     simple_step fonts1)
  = Ok (fold_left bares (e :: es) (fold_left pairs (e :: es) fonts)).
Proof.
  intros Hok Hfull. unfold for_each_match.
  assert (Hlen : length (e :: es) < S (length (entry_text e ++ rest_text sp es))).
  { pose proof (entries_length es) as H.
    destruct (entry_text_url e) as (t & Ht). rewrite Ht.
    cbn [js list_ascii_of_string app length]. rewrite length_app. lia. }
  rewrite (@while_exec_skip _ FontExtractor.urlRegex _ _ _ ([] ++ rest_text sp (e :: es))).
  2:{ rewrite rest_text_cons, app_nil_l.
      unfold FontExtractor.urlRegex, FontExtractor.url_part. cbn [seqs app].
      symmetry. apply (@entry_find _ (","%char :: sp)). now apply comma_free. }
  rewrite pairs_loop; [|reflexivity | exact Hok | exact Hlen].
  cbn [bind].
  rewrite (@while_exec_skip _ FontExtractor.simpleUrlRegex _ _ _
             ([] ++ rest_text sp (e :: es))).
  2:{ rewrite rest_text_cons, app_nil_l.
      unfold FontExtractor.simpleUrlRegex, FontExtractor.url_part. cbn [seqs].
      symmetry. apply (@entry_find _ (","%char :: sp)). now apply comma_free. }
  apply bares_loop; [reflexivity | exact Hok | | exact Hlen].
  apply pairs_settled, Hfull.
Qed.
End SrcLoops.

(** ** The declarations of a written block *)

Lemma space_free s :
  forallb is_space s = true ->
  forallb (fun c => is_not ":" c && is_not ";" c) s = true.
Proof.
  apply forallb_impl. intros c Hc.
  destruct (is_not ":" c) eqn:E1; [destruct (is_not ";" c) eqn:E2; [reflexivity|]|];
    [apply is_not_eq in E2 | apply is_not_eq in E1]; subst c; discriminate.
Qed.

Lemma digit_free c : is_digit c = true -> is_not ":" c && is_not ";" c = true.
Proof.
  destruct c as [[] [] [] [] [] [] [] []]; intros H; try discriminate H; reflexivity.
Qed.

Lemma weight_word_free w :
  weight_word w = true -> forallb (fun c => is_not ":" c && is_not ";" c) w = true.
Proof.
  unfold weight_word. intros H. apply orb_true_iff in H. destruct H as [H|H].
  - destruct w; [discriminate|]. revert H. apply forallb_impl, digit_free.
  - cbn [existsb] in H. rewrite !orb_false_r in H.
    repeat (apply orb_true_iff in H; destruct H as [H|H]);
      apply str_eqb_eq in H; subst w; reflexivity.
Qed.

Lemma style_word_free s :
  style_word s = true -> forallb (fun c => is_not ":" c && is_not ";" c) s = true.
Proof.
  unfold style_word. intros H. cbn [existsb] in H. rewrite !orb_false_r in H.
  repeat (apply orb_true_iff in H; destruct H as [H|H]);
    apply str_eqb_eq in H; subst s; reflexivity.
Qed.

Lemma family_value_free d :
  family_ok d = true ->
  forallb (fun c => is_not ":" c && is_not ";" c) (family_value d) = true.
Proof.
  destruct d as [q F]. unfold family_ok, family_value. cbn [fst snd]. intros H.
  assert (HF : forallb (fun c => negb (one_of (squote :: dquote :: js ";,:}") c)) F = true).
  { destruct F; [discriminate|]. apply andb_true_iff in H. tauto. }
  assert (Hq : forallb (fun c => is_not ":" c && is_not ";" c) (quote_text q) = true)
    by (destruct q; reflexivity).
  rewrite !forallb_app, Hq, andb_true_r. cbn [andb].
  apply forallb_forall. intros c Hc.
  assert (H1 : forallb (is_not ":") F = true)
    by (revert HF; apply banned_free; simpl; auto 10).
  assert (H2 : forallb (is_not ";") F = true)
    by (revert HF; apply banned_free; simpl; auto 10).
  rewrite forallb_forall in H1, H2. now rewrite (H1 c Hc), (H2 c Hc).
Qed.

Lemma declaration_app g p key v tail :
  declaration g p key (Some v) ++ tail = g ++ key ++ ":"%char :: p ++ v ++ ";"%char :: tail.
Proof.
  unfold declaration. rewrite <- !app_assoc. cbn [app]. rewrite <- !app_assoc.
  reflexivity.
Qed.

(** A pattern for one keyword passes over the declaration of another. *)
Lemma decl_skip p rest g pd key value tail :
  match p with
  | [] => false
  | _ => forallb (fun c => negb (is_space c) && is_not ":" c && is_not ";" c)
           (toLowerCase p)
  end = true ->
  forallb is_space g = true -> forallb is_space pd = true ->
  match key with
  | [] => false
  | _ => forallb (fun c => negb (is_space c) && is_not ":" c) key
  end = true ->
  includes (toLowerCase key) (toLowerCase p) = false ->
  (forall v, value = Some v ->
             forallb (fun c => is_not ":" c && is_not ";" c) v = true) ->
  search (Seq (word_i p) (Seq (Star ws) (Seq (lit_i ":") rest)))
    (declaration g pd key value ++ tail)
  = search (Seq (word_i p) (Seq (Star ws) (Seq (lit_i ":") rest))) tail.
Proof.
  intros Hp Hg Hpd Hkey Hinc Hv. destruct value as [v|]; [|reflexivity].
  rewrite declaration_app.
  replace (g ++ key ++ ":"%char :: pd ++ v ++ ";"%char :: tail)
    with (g ++ key ++ ":"%char :: (pd ++ v) ++ ";"%char :: tail)
    by (now rewrite <- app_assoc).
  apply (@kw_skip p ":"%char rest); try assumption.
  - simpl. auto.
  - discriminate.
  - rewrite forallb_app, (space_free _ Hpd), (Hv v eq_refl). reflexivity.
Qed.

(** A pattern finds its own declaration after the white space before it. *)
Lemma decl_find p rest g tail :
  match p with
  | [] => false
  | _ => forallb (fun c => negb (is_space c) && is_not ":" c && is_not ";" c)
           (toLowerCase p)
  end = true ->
  forallb (fun c => negb (is_space c) && is_not ":" c) p = true ->
  forallb is_space g = true ->
  search (Seq (word_i p) (Seq (Star ws) (Seq (lit_i ":") rest)))
    (g ++ p ++ ":"%char :: tail)
  = search (Seq (word_i p) (Seq (Star ws) (Seq (lit_i ":") rest)))
      (p ++ ":"%char :: tail).
Proof.
  intros Hp Hp' Hg.
  assert (H1 : forallb (fun c => negb (is_space c)) p = true /\
               forallb (is_not ":") p = true).
  { rewrite forallb_forall in Hp'.
    split; apply forallb_forall; intros c Hc; specialize (Hp' c Hc);
      apply andb_true_iff in Hp'; tauto. }
  apply (@kw_find p ":"%char rest (or_introl eq_refl) Hp g p [] tail).
  - rewrite forallb_app. apply andb_true_iff. split; [|tauto].
    revert Hg. apply forallb_impl. intros c Hc.
    destruct (is_not ":" c) eqn:E; [reflexivity|]. apply is_not_eq in E. subst c.
    discriminate.
  - reflexivity.
  - tauto.
  - reflexivity.
Qed.

Lemma absent_none p rest b :
  absent p b = true -> toLowerCase p = p ->
  search (Seq (word_i p) rest) (body_text b) = None.
Proof.
  unfold absent. intros H Hp. apply negb_true_iff in H.
  apply search_word_absent. now rewrite Hp.
Qed.

Section BlockFields.
Variable b : Block.
Hypothesis b_ok : block_ok b = true.

Lemma block_ok_parts :
  forallb (is_not "{") (lead b) = true /\ forallb is_space (gap b) = true /\
  forallb is_space (pad b) = true /\
  match family_decl b with
  | Some d => family_ok d
  | None => absent (js "font-family") b
  end = true /\
  match weight_decl b with
  | Some w => weight_word w
  | None => absent (js "font-weight") b
  end = true /\
  match style_decl b with
  | Some s => style_word s
  | None => absent (js "font-style") b
  end = true /\
  forallb entry_ok (entries b) = true /\
  forallb is_space (sep b) = true.
Proof.
  pose proof b_ok as H. unfold block_ok in H.
  repeat (apply andb_true_iff in H; destruct H as [H ?]). tauto.
Qed.

Local Abbreviation after_family :=
  (declaration (gap b) (pad b) (js "font-weight") (weight_decl b) ++
   declaration (gap b) (pad b) (js "font-style") (style_decl b) ++
   gap b ++ js "src" ++ ":"%char :: pad b ++ src_text b ++
   (if src_closed b then ";"%char :: gap b else [])).

Local Abbreviation after_weight :=
  (declaration (gap b) (pad b) (js "font-style") (style_decl b) ++
   gap b ++ js "src" ++ ":"%char :: pad b ++ src_text b ++
   (if src_closed b then ";"%char :: gap b else [])).

Local Abbreviation after_style :=
  (gap b ++ js "src" ++ ":"%char :: pad b ++ src_text b ++
   (if src_closed b then ";"%char :: gap b else [])).

Lemma family_read :
  str_match FontExtractor.familyRegex (body_text b)
  = match family_decl b with
    | Some d => Some [(1, snd d)]
    | None => None
    end.
Proof.
  destruct block_ok_parts as (_ & Hg & Hp & Hf & _).
  unfold str_match. destruct (family_decl b) as [d|] eqn:Ed.
  - unfold body_text. rewrite Ed. cbn [option_map]. rewrite declaration_app.
    unfold FontExtractor.familyRegex at 1. cbn [seqs].
    rewrite decl_find; [|reflexivity | reflexivity | exact Hg].
    rewrite (search_here _ _ (@family_at (pad b) d _ Hp Hf)). reflexivity.
  - unfold FontExtractor.familyRegex. cbn [seqs].
    rewrite absent_none; [reflexivity | exact Hf | reflexivity].
Qed.

Lemma weight_read :
  match weight_decl b with
  | Some w =>
      exists v, str_match FontExtractor.weightRegex (body_text b) = Some [(1, v)] /\
                FontExtractor.normalizeWeight v = FontExtractor.normalizeWeight w
  | None => str_match FontExtractor.weightRegex (body_text b) = None
  end.
Proof.
  destruct block_ok_parts as (_ & Hg & Hp & Hf & Hw & _).
  unfold str_match. destruct (weight_decl b) as [w|] eqn:Ew.
  - destruct (@weight_at (pad b) w after_weight Hp Hw) as (s1 & v & Hat & Hv).
    exists v. split; [|exact Hv].
    unfold body_text. rewrite Ew.
    unfold FontExtractor.weightRegex at 1. cbn [seqs].
    rewrite decl_skip; try reflexivity; try assumption.
    2:{ intros v0 Hv0. destruct (family_decl b) as [d|]; [|discriminate].
        injection Hv0 as <-. now apply family_value_free. }
    rewrite declaration_app.
    rewrite decl_find; [|reflexivity | reflexivity | exact Hg].
    unfold FontExtractor.weightRegex in Hat. cbn [seqs] in Hat.
    rewrite (search_here _ _ Hat). reflexivity.
  - unfold FontExtractor.weightRegex. cbn [seqs].
    rewrite absent_none; [reflexivity | exact Hw | reflexivity].
Qed.

Lemma style_read :
  str_match FontExtractor.styleRegex (body_text b)
  = match style_decl b with
    | Some s => Some [(1, s)]
    | None => None
    end.
Proof.
  destruct block_ok_parts as (_ & Hg & Hp & Hf & Hw & Hs & _).
  unfold str_match. destruct (style_decl b) as [s|] eqn:Es.
  - pose proof (@style_at (pad b) s (";"%char :: after_style) Hp Hs) as Hat.
    unfold body_text. rewrite Es.
    unfold FontExtractor.styleRegex at 1. cbn [seqs].
    rewrite decl_skip; try reflexivity; try assumption.
    2:{ intros v0 Hv0. destruct (family_decl b) as [d|]; [|discriminate].
        injection Hv0 as <-. now apply family_value_free. }
    rewrite decl_skip; try reflexivity; try assumption.
    2:{ intros v0 Hv0. destruct (weight_decl b) as [w|]; [|discriminate].
        injection Hv0 as <-. now apply weight_word_free. }
    rewrite declaration_app.
    rewrite decl_find; [|reflexivity | reflexivity | exact Hg].
    unfold FontExtractor.styleRegex in Hat. cbn [seqs] in Hat.
    rewrite (search_here _ _ Hat). reflexivity.
  - unfold FontExtractor.styleRegex. cbn [seqs].
    rewrite absent_none; [reflexivity | exact Hs | reflexivity].
Qed.

Lemma src_text_free : forallb (is_not ";") (src_text b) = true.
Proof.
  destruct block_ok_parts as (_ & _ & _ & _ & _ & _ & He & Hsep).
  assert (Hq : forall q, forallb (is_not ";") (quote_text q) = true)
    by (intros []; reflexivity).
  assert (Hentry : forall e, entry_ok e = true -> forallb (is_not ";") (entry_text e) = true).
  { intros [qu u qf f|qu u] Hok; cbn [entry_ok entry_text] in *; unfold url_text.
    - apply andb_true_iff in Hok. destruct Hok as [Hu Hf].
      apply plain_parts in Hu. destruct Hu as (_ & _ & Hu).
      assert (Hf' : forallb (fun c => negb (one_of (squote :: dquote :: js "();}") c)) f = true)
        by (destruct f; [discriminate | exact Hf]).
      assert (H1 : forallb (is_not ";") u = true)
        by (revert Hu; apply banned_free; simpl; auto 10).
      assert (H2 : forallb (is_not ";") f = true)
        by (revert Hf'; apply banned_free; simpl; auto 10).
      repeat (first [rewrite forallb_app | progress cbn [forallb]]).
      rewrite ?Hq, ?H1, ?H2. reflexivity.
    - apply plain_parts in Hok. destruct Hok as (_ & _ & Hu).
      assert (H1 : forallb (is_not ";") u = true)
        by (revert Hu; apply banned_free; simpl; auto 10).
      repeat (first [rewrite forallb_app | progress cbn [forallb]]).
      rewrite ?Hq, ?H1. reflexivity. }
  assert (Hcomma : forallb (is_not ";") (","%char :: sep b) = true).
  { cbn [forallb]. apply andb_true_iff. split; [reflexivity|].
    revert Hsep. apply forallb_impl. intros c Hc.
    destruct (is_not ";" c) eqn:E; [reflexivity|]. apply is_not_eq in E. subst c.
    discriminate. }
  unfold src_text. unfold entries in He. cbn [forallb] in He.
  apply andb_true_iff in He. destruct He as [H1 Hm].
  rewrite forallb_app, (Hentry _ H1). cbn [andb].
  induction (src_more b) as [|e es IH]; [reflexivity|].
  cbn [forallb] in Hm. apply andb_true_iff in Hm. destruct Hm as [He Hes].
  rewrite rest_text_cons, !forallb_app, Hcomma, (Hentry _ He), (IH Hes). reflexivity.
Qed.

Lemma src_read :
  str_match FontExtractor.srcRegex (body_text b) = Some [(1, src_text b)].
Proof.
  destruct block_ok_parts as (_ & Hg & Hp & Hf & Hw & Hs & He & Hsep).
  unfold str_match, body_text.
  unfold FontExtractor.srcRegex at 1. cbn [seqs].
  rewrite decl_skip; try reflexivity; try assumption.
  2:{ intros v0 Hv0. destruct (family_decl b) as [d|]; [|discriminate].
      injection Hv0 as <-. now apply family_value_free. }
  rewrite decl_skip; try reflexivity; try assumption.
  2:{ intros v0 Hv0. destruct (weight_decl b) as [w|]; [|discriminate].
      injection Hv0 as <-. now apply weight_word_free. }
  rewrite decl_skip; try reflexivity; try assumption.
  2:{ intros v0 Hv0. destruct (style_decl b) as [s|]; [|discriminate].
      injection Hv0 as <-. now apply style_word_free. }
  rewrite decl_find; [|reflexivity | reflexivity | exact Hg].
  assert (Hat : rmatch_at FontExtractor.srcRegex
                  (js "src" ++ ":"%char :: pad b ++ src_text b ++
                   (if src_closed b then ";"%char :: gap b else []))
                = Some ((if src_closed b then ";"%char :: gap b else []),
                        [(1, src_text b)])).
  { apply src_at.
    - exact Hp.
    - unfold src_text. destruct (entry_text_url (src_first b)) as (t & Ht).
      rewrite Ht. reflexivity.
    - apply src_text_free.
    - destruct (src_closed b); [reflexivity | exact I]. }
  unfold FontExtractor.srcRegex in Hat. cbn [seqs] in Hat.
  rewrite (search_here _ _ Hat). reflexivity.
Qed.

Lemma body_text_open : forallb not_close (body_text b) = true.
Proof.
  destruct block_ok_parts as (_ & Hg & Hp & Hf & Hw & Hs & He & Hsep).
  assert (Hsp : forall s, forallb is_space s = true -> forallb not_close s = true).
  { intros s. apply forallb_impl. intros c Hc.
    destruct (not_close c) eqn:E; [reflexivity|].
    unfold not_close, one_of in E. cbn [js list_ascii_of_string existsb] in E.
    rewrite orb_false_r in E. apply negb_false_iff in E. unfold chr_eqb in E.
    apply Ascii.eqb_eq in E. subst c. discriminate. }
  assert (Hfree : forall s, forallb (is_not "}") s = true -> forallb not_close s = true).
  { intros s. apply forallb_impl. intros c Hc. unfold not_close, one_of.
    cbn [js list_ascii_of_string existsb]. now rewrite orb_false_r. }
  assert (Hq : forall q, forallb not_close (quote_text q) = true)
    by (intros []; reflexivity).
  assert (Hdecl : forall key value,
             forallb not_close key = true ->
             (forall v, value = Some v -> forallb not_close v = true) ->
             forallb not_close (declaration (gap b) (pad b) key value) = true).
  { intros key [v|] Hkey Hv; [|reflexivity]. unfold declaration.
    rewrite !forallb_app. cbn [forallb]. rewrite !forallb_app.
    rewrite (Hsp _ Hg), (Hsp _ Hp), Hkey, (Hv v eq_refl). reflexivity. }
  assert (Hentry : forall e, entry_ok e = true -> forallb not_close (entry_text e) = true).
  { intros [qu u qf f|qu u] Hok; cbn [entry_ok entry_text] in *; unfold url_text.
    - apply andb_true_iff in Hok. destruct Hok as [Hu Hf'].
      apply plain_parts in Hu. destruct Hu as (_ & _ & Hu).
      assert (Hf2 : forallb (fun c => negb (one_of (squote :: dquote :: js "();}") c)) f = true)
        by (destruct f; [discriminate | exact Hf']).
      assert (H1 : forallb not_close u = true)
        by (apply Hfree; revert Hu; apply banned_free; simpl; auto 10).
      assert (H2 : forallb not_close f = true)
        by (apply Hfree; revert Hf2; apply banned_free; simpl; auto 10).
      repeat (first [rewrite forallb_app | progress cbn [forallb]]).
      rewrite ?Hq, ?H1, ?H2. reflexivity.
    - apply plain_parts in Hok. destruct Hok as (_ & _ & Hu).
      assert (H1 : forallb not_close u = true)
        by (apply Hfree; revert Hu; apply banned_free; simpl; auto 10).
      repeat (first [rewrite forallb_app | progress cbn [forallb]]).
      rewrite ?Hq, ?H1. reflexivity. }
  assert (Hsrc : forallb not_close (src_text b) = true).
  { assert (Hcomma : forallb not_close (","%char :: sep b) = true).
    { cbn [forallb]. now rewrite (Hsp _ Hsep). }
    unfold src_text. unfold entries in He. cbn [forallb] in He.
    apply andb_true_iff in He. destruct He as [H1 Hm].
    rewrite forallb_app, (Hentry _ H1). cbn [andb].
    induction (src_more b) as [|e es IH]; [reflexivity|].
    cbn [forallb] in Hm. apply andb_true_iff in Hm. destruct Hm as [He Hes].
    rewrite rest_text_cons, !forallb_app, Hcomma, (Hentry _ He), (IH Hes).
    reflexivity. }
  unfold body_text. rewrite !forallb_app. cbn [forallb]. rewrite !forallb_app.
  rewrite !Hdecl, (Hsp _ Hg), (Hsp _ Hp), Hsrc; try reflexivity.
  - destruct (src_closed b); [|reflexivity]. cbn [forallb]. now rewrite (Hsp _ Hg).
  - intros v Hv. destruct (style_decl b) as [s|]; [|discriminate].
    injection Hv as <-. unfold style_word in Hs. cbn [existsb] in Hs.
    rewrite !orb_false_r in Hs.
    repeat (apply orb_true_iff in Hs; destruct Hs as [Hs|Hs]);
      apply str_eqb_eq in Hs; subst s; reflexivity.
  - intros v Hv. destruct (weight_decl b) as [w|]; [|discriminate].
    injection Hv as <-. unfold weight_word in Hw. apply orb_true_iff in Hw.
    destruct Hw as [Hw|Hw].
    + destruct w; [discriminate|]. revert Hw. apply forallb_impl.
      intros c. destruct c as [[] [] [] [] [] [] [] []]; intros H;
        try discriminate H; reflexivity.
    + cbn [existsb] in Hw. rewrite !orb_false_r in Hw.
      repeat (apply orb_true_iff in Hw; destruct Hw as [Hw|Hw]);
        apply str_eqb_eq in Hw; subst w; reflexivity.
  - intros v Hv. destruct (family_decl b) as [[q F]|]; [|discriminate].
    injection Hv as <-. unfold family_value, family_ok in *. cbn [fst snd] in *.
    assert (HF : forallb (fun c => negb (one_of (squote :: dquote :: js ";,:}") c)) F = true).
    { destruct F; [discriminate|]. apply andb_true_iff in Hf. tauto. }
    rewrite !forallb_app, !Hq, andb_true_r. cbn [andb].
    apply Hfree. revert HF. apply banned_free. simpl. auto 10.
Qed.
End BlockFields.

(** ** A written sheet, block by block *)

Section Sheets.
Variable URL_href : jsstring -> jsstring -> option jsstring.
Variable URL_hostname : jsstring -> option jsstring.
Variable baseUrl : jsstring.

Local Abbreviation block_step := (FontExtractor.block_step URL_href URL_hostname baseUrl).
Local Abbreviation fonts_of := (block_fonts URL_href URL_hostname baseUrl).
Local Abbreviation full := (in_full URL_href baseUrl).

(** The body of the loop over the blocks, on the body of a written
    block. *)
Lemma block_step_written b fonts :
  block_ok b = true -> forallb full (entries b) = true ->
  block_step fonts [(1, body_text b)] = Ok (fonts_of fonts b).
Proof.
  intros Hok Hfull.
  destruct (@block_ok_parts b Hok) as (_ & _ & _ & _ & _ & _ & He & Hsep).
  unfold FontExtractor.block_step. cbn [capture Nat.eqb defined bind].
  rewrite (@family_read b Hok), (@style_read b Hok), (@src_read b Hok).
  pose proof (@weight_read b Hok) as Hw.
  unfold block_fonts, entries, src_text in *.
  destruct (family_decl b) as [d|] eqn:Ed; cbn [capture Nat.eqb defined bind];
    (destruct (weight_decl b) as [w|] eqn:Ew;
     [destruct Hw as (v & -> & Hv) | rewrite Hw]; cbn [capture Nat.eqb defined bind];
     destruct (style_decl b) as [s|] eqn:Es; cbn [capture Nat.eqb defined bind];
     apply src_loops; try assumption;
     unfold block_family, block_weight, block_style;
     rewrite ?Ed, ?Ew, ?Es; try reflexivity; exact Hv).
Qed.

Lemma fontFace_find pre p tail :
  forallb (is_not "{") pre = true -> forallb is_space p = true ->
  search FontExtractor.fontFaceRegex (pre ++ js "@font-face" ++ p ++ "{"%char :: tail)
  = search FontExtractor.fontFaceRegex (js "@font-face" ++ p ++ "{"%char :: tail).
Proof.
  intros Hpre Hp. unfold FontExtractor.fontFaceRegex. cbv zeta. cbn [seqs].
  apply (@kw_find (js "@font-face") "{"%char).
  - simpl. auto.
  - reflexivity.
  - rewrite forallb_app, Hpre. reflexivity.
  - reflexivity.
  - reflexivity.
  - exact Hp.
Qed.

Lemma fontFace_none tail :
  forallb (is_not "{") tail = true -> search FontExtractor.fontFaceRegex tail = None.
Proof.
  intros H. unfold FontExtractor.fontFaceRegex. cbv zeta. cbn [seqs].
  apply (@kw_none (js "@font-face") "{"%char); [simpl; auto | exact H].
Qed.

Lemma css_text_length blocks : length blocks <= length (css_text blocks).
Proof.
  induction blocks as [|b bs IH]; [apply Nat.le_refl|].
  assert (H : 1 <= length (block_text b)).
  { unfold block_text. rewrite !length_app. cbn [length]. rewrite !length_app.
    cbn [length]. lia. }
  unfold css_text in *. cbn [flat_map length]. rewrite length_app. lia.
Qed.

Lemma sheet_loop trailer : forall blocks fonts fuel,
  forallb block_ok blocks = true ->
  forallb (fun b => forallb full (entries b)) blocks = true ->
  forallb (is_not "{") trailer = true ->
  length blocks < fuel ->
  while_exec fuel FontExtractor.fontFaceRegex (css_text blocks ++ trailer) block_step fonts
  = Ok (fold_left fonts_of blocks fonts).
Proof.
  induction blocks as [|b bs IH]; intros fonts fuel Hok Hfull Htr Hfuel.
  - cbn [css_text flat_map app fold_left].
    apply while_exec_done; [now apply fontFace_none | lia].
  - cbn [forallb] in Hok, Hfull. apply andb_true_iff in Hok, Hfull.
    destruct Hok as [Hb Hbs]. destruct Hfull as [Hf Hfs].
    destruct (@block_ok_parts b Hb) as (Hlead & _ & Hp & _).
    cbn [length] in Hfuel. destruct fuel as [|fuel]; [lia|].
    assert (E : css_text (b :: bs) ++ trailer
                = lead b ++ js "@font-face" ++ pad b ++ "{"%char :: body_text b ++
                    "}"%char :: (css_text bs ++ trailer)).
    { unfold css_text. cbn [flat_map]. unfold block_text.
      rewrite <- !app_assoc. cbn [app]. rewrite <- !app_assoc. reflexivity. }
    rewrite E.
    rewrite (@while_exec_skip _ _ _ _ _ _ _ (@fontFace_find _ _ _ Hlead Hp)).
    rewrite (@while_exec_turn _ _ _ _ _ _ _ _
               (search_here _ _ (@block_at (pad b) (body_text b) (css_text bs ++ trailer)
                                   Hp (@body_text_open b Hb)))).
    rewrite (@block_step_written b _ Hb Hf). cbn [bind fold_left].
    apply IH; [exact Hbs | exact Hfs | exact Htr | lia].
Qed.

(** What parseFontFaces returns for a written sheet. *)
Lemma parseFontFaces_written blocks trailer :
  forallb block_ok blocks = true ->
  forallb (fun b => forallb full (entries b)) blocks = true ->
  forallb (is_not "{") trailer = true ->
  FontExtractor.parseFontFaces URL_href URL_hostname (css_text blocks ++ trailer) baseUrl
  = Ok (written_fonts URL_href URL_hostname baseUrl blocks).
Proof.
  intros Hok Hfull Htr. unfold FontExtractor.parseFontFaces, for_each_match.
  apply sheet_loop; try assumption.
  pose proof (css_text_length blocks). rewrite length_app. lia.
Qed.
End Sheets.

(** ** The descriptors of a written sheet *)

Lemma trimStart_keeps l c :
  is_space c = false -> trimStart (l ++ [c]) <> [].
Proof.
  intros Hc. induction l as [|a l IH]; cbn [app trimStart].
  - rewrite Hc. discriminate.
  - destruct (is_space a); [exact IH | discriminate].
Qed.

Lemma trim_nonempty c s : is_space c = false -> trim (c :: s) <> [].
Proof.
  intros Hc. unfold trim. cbn [trimStart]. rewrite Hc. cbn [rev].
  intros E. apply (f_equal (@rev ascii)) in E. rewrite rev_involutive in E.
  cbn [rev] in E. revert E. now apply trimStart_keeps.
Qed.

Lemma block_family_nonempty b : block_ok b = true -> block_family b <> [].
Proof.
  intros Hok. destruct (@block_ok_parts b Hok) as (_ & _ & _ & Hf & _).
  unfold block_family. destruct (family_decl b) as [[q F]|]; [|discriminate].
  unfold family_ok in Hf. cbn [fst snd] in *. destruct F as [|c F]; [discriminate|].
  apply andb_true_iff in Hf. destruct Hf as [Hc _]. apply negb_true_iff in Hc.
  now apply trim_nonempty.
Qed.

Section WrittenFacts.
Variable URL_href : jsstring -> jsstring -> option jsstring.
Variable URL_hostname : jsstring -> option jsstring.
Variable baseUrl : jsstring.

Local Abbreviation add := (add_font URL_href URL_hostname baseUrl).
Local Abbreviation pairs := (add_pair URL_href URL_hostname baseUrl).
Local Abbreviation bares := (add_bare URL_href URL_hostname baseUrl).
Local Abbreviation fonts_of := (block_fonts URL_href URL_hostname baseUrl).

Lemma add_bares_extends b es : forall fonts,
  exists more, fold_left (bares b) es fonts = fonts ++ more.
Proof.
  induction es as [|e es IH]; intros fonts; cbn [fold_left].
  - exists []. now rewrite app_nil_r.
  - destruct (add_bare_extends URL_href URL_hostname baseUrl b fonts e) as (m1 & ->).
    destruct (IH (fonts ++ m1)) as (m2 & ->).
    exists (m1 ++ m2). now rewrite app_assoc.
Qed.

Lemma block_fonts_extends fonts b : exists more, fonts_of fonts b = fonts ++ more.
Proof.
  unfold block_fonts.
  destruct (add_pairs_extends URL_href URL_hostname baseUrl b (entries b) fonts)
    as (m1 & ->).
  destruct (add_bares_extends b (entries b) (fonts ++ m1)) as (m2 & ->).
  exists (m1 ++ m2). now rewrite app_assoc.
Qed.

Lemma written_extends blocks : forall fonts,
  exists more, fold_left fonts_of blocks fonts = fonts ++ more.
Proof.
  induction blocks as [|b bs IH]; intros fonts; cbn [fold_left].
  - exists []. now rewrite app_nil_r.
  - destruct (block_fonts_extends fonts b) as (m1 & ->).
    destruct (IH (fonts ++ m1)) as (m2 & ->).
    exists (m1 ++ m2). now rewrite app_assoc.
Qed.

(** Every descriptor carries the three fields of the block it comes
    from. *)
Lemma add_font_fields (P : FontInfo -> Prop) b fontUrl fmt fonts :
  (forall d, family d = block_family b -> weight d = block_weight b ->
             style d = block_style b -> P d) ->
  Forall P fonts -> Forall P (add b fontUrl fmt fonts).
Proof.
  intros HP Hf. unfold add_font.
  destruct (URL_href fontUrl baseUrl); [destruct (URL_hostname baseUrl)|]; try exact Hf.
  apply Forall_app. split; [exact Hf|]. constructor; [|constructor].
  now apply HP.
Qed.

Lemma block_fonts_fields (P : FontInfo -> Prop) b fonts :
  (forall d, family d = block_family b -> weight d = block_weight b ->
             style d = block_style b -> P d) ->
  Forall P fonts -> Forall P (fonts_of fonts b).
Proof.
  intros HP. unfold block_fonts.
  assert (H1 : forall es fonts, Forall P fonts -> Forall P (fold_left (pairs b) es fonts)).
  { induction es as [|e es IH]; intros f Hf; cbn [fold_left]; [exact Hf|].
    apply IH. destruct e; cbn [add_pair]; [now apply add_font_fields | exact Hf]. }
  assert (H2 : forall es fonts, Forall P fonts -> Forall P (fold_left (bares b) es fonts)).
  { induction es as [|e es IH]; intros f Hf; cbn [fold_left]; [exact Hf|].
    apply IH. destruct e; cbn [add_bare]; [exact Hf|].
    destruct (FontExtractor.already_matched f u); [exact Hf|].
    now apply add_font_fields. }
  intros Hf. apply H2, H1, Hf.
Qed.

Lemma written_fields (P : FontInfo -> Prop) blocks :
  (forall b d, In b blocks -> family d = block_family b -> weight d = block_weight b ->
               style d = block_style b -> P d) ->
  Forall P (written_fonts URL_href URL_hostname baseUrl blocks).
Proof.
  intros HP. unfold written_fonts.
  assert (H : forall fonts, Forall P fonts -> Forall P (fold_left fonts_of blocks fonts)).
  { induction blocks as [|b bs IH]; intros fonts Hf; cbn [fold_left]; [exact Hf|].
    apply IH.
    - intros b' d Hb'. apply HP. now right.
    - apply block_fonts_fields; [|exact Hf]. intros d. apply HP. now left. }
  apply H. constructor.
Qed.

(** The first entry of a block, when it is a pair and all resolves, gives a
    descriptor of the sheet. *)
Lemma first_pair_kept blocks b qu u qf f fullUrl host :
  In b blocks -> src_first b = Pair qu u qf f ->
  URL_href u baseUrl = Some fullUrl -> URL_hostname baseUrl = Some host ->
  In {| family := block_family b; weight := block_weight b; style := block_style b;
        source := host; url := Some fullUrl;
        format := Some (VStr (toLowerCase f)) |}
     (written_fonts URL_href URL_hostname baseUrl blocks).
Proof.
  intros Hb Hfirst Hu Hh. unfold written_fonts. generalize (@nil FontInfo).
  induction blocks as [|b0 bs IH]; intros fonts; [contradiction|].
  cbn [fold_left]. destruct Hb as [->|Hb]; [|now apply IH].
  destruct (written_extends bs (fonts_of fonts b)) as (m3 & ->).
  apply in_or_app. left.
  unfold block_fonts, entries. rewrite Hfirst. cbn [fold_left add_pair add_bare].
  unfold add_font. rewrite Hu, Hh.
  set (d := {| family := block_family b; weight := block_weight b;
               style := block_style b; source := host;
               url := Some fullUrl;
               format := Some (VStr (toLowerCase f)) |}).
  destruct (add_pairs_extends URL_href URL_hostname baseUrl b (src_more b)
              (fonts ++ [d])) as (m1 & ->).
  destruct (add_bares_extends b (src_more b) ((fonts ++ [d]) ++ m1)) as (m2 & ->).
  apply in_or_app. left. apply in_or_app. left. apply in_or_app. right. now left.
Qed.

(** A sheet of pairs only. *)
Lemma pairs_fold b host es :
  URL_hostname baseUrl = Some host ->
  forall fonts,
    fold_left (pairs b) es fonts = fonts ++ flat_map (pair_font URL_href baseUrl b host) es.
Proof.
  intros Hh. induction es as [|e es IH]; intros fonts; cbn [fold_left flat_map].
  - now rewrite app_nil_r.
  - rewrite IH. destruct e as [qu u qf f|qu u]; cbn [add_pair pair_font].
    + unfold add_font. rewrite Hh. destruct (URL_href u baseUrl).
      * now rewrite <- app_assoc.
      * reflexivity.
    + reflexivity.
Qed.

Lemma bares_fold b es :
  forallb is_pair es = true -> forall fonts, fold_left (bares b) es fonts = fonts.
Proof.
  induction es as [|e es IH]; intros Hp fonts; cbn [fold_left]; [reflexivity|].
  cbn [forallb] in Hp. apply andb_true_iff in Hp. destruct Hp as [He Hes].
  destruct e; [|discriminate]. cbn [add_bare]. now apply IH.
Qed.

Lemma written_pairs host blocks :
  URL_hostname baseUrl = Some host ->
  forallb (fun b => forallb is_pair (entries b)) blocks = true ->
  written_fonts URL_href URL_hostname baseUrl blocks
  = flat_map (fun b => flat_map (pair_font URL_href baseUrl b host) (entries b)) blocks.
Proof.
  intros Hh Hp. unfold written_fonts.
  assert (H : forall fonts,
             fold_left fonts_of blocks fonts
             = fonts ++ flat_map (fun b => flat_map (pair_font URL_href baseUrl b host)
                                             (entries b)) blocks).
  { induction blocks as [|b bs IH]; intros fonts; cbn [fold_left flat_map].
    - now rewrite app_nil_r.
    - cbn [forallb] in Hp. apply andb_true_iff in Hp. destruct Hp as [Hb Hbs].
      rewrite (IH Hbs). unfold block_fonts.
      rewrite (bares_fold b (entries b) Hb), (pairs_fold b (entries b) Hh).
      now rewrite <- app_assoc. }
  apply H.
Qed.

Lemma pair_fonts_length b host es :
  forallb is_pair es = true ->
  forallb (resolving URL_href baseUrl) es = true ->
  length (flat_map (pair_font URL_href baseUrl b host) es) = length es.
Proof.
  induction es as [|e es IH]; intros Hp Hr; [reflexivity|].
  cbn [forallb] in Hp, Hr. apply andb_true_iff in Hp, Hr.
  destruct Hp as [He Hes]. destruct Hr as [Hre Hres].
  cbn [flat_map]. rewrite length_app, (IH Hes Hres).
  destruct e as [qu u qf f|]; [|discriminate]. cbn [pair_font resolving] in *.
  destruct (URL_href u baseUrl); [reflexivity | discriminate].
Qed.

Lemma written_pairs_length host blocks :
  forallb (fun b => forallb is_pair (entries b)) blocks = true ->
  forallb (fun b => forallb (resolving URL_href baseUrl) (entries b)) blocks = true ->
  length (flat_map (fun b => flat_map (pair_font URL_href baseUrl b host) (entries b))
            blocks)
  = length (flat_map entries blocks).
Proof.
  induction blocks as [|b bs IH]; intros Hp Hr; [reflexivity|].
  cbn [forallb] in Hp, Hr. apply andb_true_iff in Hp, Hr.
  destruct Hp as [Hb Hbs]. destruct Hr as [Hrb Hrbs].
  cbn [flat_map]. rewrite !length_app, (IH Hbs Hrbs), (pair_fonts_length b host _ Hb Hrb).
  reflexivity.
Qed.
End WrittenFacts.

(* ===================================================================== *)
(** * The properties of the specification *)
(* ===================================================================== *)

(** C1. parseFontFaces is total: for every CSS text and base URL, and whatever
    the URL constructor does, it returns a list of descriptors and neither
    throws nor loops; run on top of descriptors already found it only adds to
    them; a URL that does not resolve costs its own entry and nothing else.
    The inline parser of App.tsx completes as well. *)
Theorem parseFontFaces_total :
  forall (URL_href : jsstring -> jsstring -> option jsstring)
         (URL_hostname : jsstring -> option jsstring),
    (forall cssText baseUrl, exists fonts,
        FontExtractor.parseFontFaces URL_href URL_hostname cssText baseUrl = Ok fonts) /\
    (forall cssText baseUrl fonts, exists more,
        for_each_match FontExtractor.fontFaceRegex cssText
          (FontExtractor.block_step URL_href URL_hostname baseUrl) fonts
        = Ok (fonts ++ more)) /\
    (forall baseUrl fam wt sty fontUrl fmt fonts,
        FontExtractor.push_font URL_href URL_hostname baseUrl fam wt sty fontUrl fmt fonts =
        match URL_href fontUrl baseUrl, URL_hostname baseUrl with
        | Some fullUrl, Some host =>
            Ok (fonts ++ [ {| family := fam;
                              weight := FontExtractor.normalizeWeight wt;
                              style := sty; source := host;
                              url := Some fullUrl; format := Some fmt |} ])
        | _, _ => Ok fonts
        end) /\
    (forall css fontMap baseUrl, exists fontMap',
        App.parseFontFaces URL_href css fontMap baseUrl = Ok fontMap').
Proof.
  intros URL_href URL_hostname. repeat split.
  - intros. apply parseFontFaces_ok.
  - intros cssText baseUrl fonts.
    destruct (parse_loop_ok URL_href URL_hostname cssText baseUrl fonts)
      as (fonts' & E & more & ->).
    exists more. exact E.
  - intros. apply push_font_eq.
  - intros. apply App_parseFontFaces_ok.
Qed.

(** C2, at the failing input: a body with one level of nested braces is cut at
    the inner closing brace, so the src declaration after it is not seen and
    the block gives no descriptor. *)
Theorem nested_body_cut_at_inner_brace :
  forall (URL_href : jsstring -> jsstring -> option jsstring)
         (URL_hostname : jsstring -> option jsstring),
    search FontExtractor.fontFaceRegex Examples.css_nested
    = Some (js " src: url(https://ex.com/a.woff2) format('woff2'); }",
            [(1, js " font-family: 'A'; x { y ")]) /\
    FontExtractor.parseFontFaces URL_href URL_hostname
      Examples.css_nested Examples.base = Ok [] /\
    App.parseFontFaces URL_href Examples.css_nested [] (Some Examples.base) = Ok [].
Proof.
  intros. repeat split; vm_compute; reflexivity.
Qed.




(** C4, at the failing input: for a block that declares font-weight: lighter
    the inline parser of App.tsx gives the weight 400, where
    utils/fontExtractor.ts gives 300. *)
Theorem App_lighter_weight_400 :
  App.parseFontFaces Examples.URL_href Examples.css_lighter [] (Some Examples.base)
  = Ok [(js "A", [ {| App.weight := js "400"; App.style := js "normal";
                      App.url := js "https://ex.com/a.woff2";
                      App.format := js "woff2" |} ])] /\
  FontExtractor.parseFontFaces Examples.URL_href Examples.URL_hostname
    Examples.css_lighter Examples.base
  = Ok [Examples.descriptor "A" "300" "normal" "https://ex.com/a.woff2"
          (VStr (js "woff2"))].
Proof. split; vm_compute; reflexivity. Qed.

(** What utils/fontExtractor.ts does with weights: the four keywords, in any
    mix of cases, go to their numbers and digits pass through. *)
Lemma normalizeWeight_table w :
  (toLowerCase w = js "normal" -> FontExtractor.normalizeWeight w = VStr (js "400")) /\
  (toLowerCase w = js "bold" -> FontExtractor.normalizeWeight w = VStr (js "700")) /\
  (toLowerCase w = js "bolder" -> FontExtractor.normalizeWeight w = VStr (js "700")) /\
  (toLowerCase w = js "lighter" -> FontExtractor.normalizeWeight w = VStr (js "300")) /\
  (numeric w = true -> FontExtractor.normalizeWeight w = VStr w).
Proof.
  unfold FontExtractor.normalizeWeight.
  repeat split; try (intros ->; reflexivity).
  apply normalizeWeight_digits.
Qed.




(** C6, at the failing inputs: a URL captured with a declared format is given
    a second descriptor with the format of its extension when its text is not
    part of its resolved form; a dot in the query hides the extension; and an
    extension that names a member of Object.prototype gives that member, not
    the string unknown. *)
Theorem format_inference_slips :
  FontExtractor.parseFontFaces Examples.URL_href Examples.URL_hostname
    Examples.css_relative Examples.base
  = Ok [Examples.descriptor "A" "400" "normal" "https://ex.com/fonts/x.woff2"
          (VStr (js "woff2-variations"));
        Examples.descriptor "A" "400" "normal" "https://ex.com/fonts/x.woff2"
          (VStr (js "woff2"))] /\
  FontExtractor.parseFontFaces Examples.URL_href Examples.URL_hostname
    Examples.css_query Examples.base
  = Ok [Examples.descriptor "A" "400" "normal" "https://ex.com/css/a.woff2?v=1.2"
          (VStr (js "unknown"))] /\
  FontExtractor.parseFontFaces Examples.URL_href Examples.URL_hostname
    Examples.css_inherited Examples.base
  = Ok [Examples.descriptor "A" "400" "normal" "https://ex.com/css/a.constructor"
          (VInherited (js "constructor"))].
Proof. repeat split; vm_compute; reflexivity. Qed.

(** The table of getFormatFromUrl on the five extensions it knows. *)
Lemma getFormatFromUrl_table :
  map FontExtractor.getFormatFromUrl
    [js "a.woff2"; js "a.woff"; js "a.ttf"; js "a.otf"; js "a.eot"; js "a.svg"]
  = map VStr [js "woff2"; js "woff"; js "truetype"; js "opentype";
              js "embedded-opentype"; js "unknown"].
Proof. reflexivity. Qed.

(** C7. For every link, whatever its family parameter: a parameter made of
    segments name:weights between bars gives, segment after segment and
    token after token of the weights between commas, one descriptor with the
    name as family (each plus sign a space), the digits of the token as
    weight (400 when it has none), the style italic when the token holds an i
    and normal otherwise, the source Google Fonts, and no url and no format.
    So a link whose family parameter is Roboto:400,700i gives the two
    descriptors Roboto 400 normal and Roboto 700 italic.  Every descriptor of
    every link has the source Google Fonts and no url. *)
Theorem google_fonts_decoding :
  forall (URL_searchParam : jsstring -> jsstring -> option (option jsstring)),
    (forall link segs,
        segs <> [] -> forallb segment_ok segs = true ->
        URL_searchParam link (js "family")
        = Some (Some (join "|" (map family_segment segs))) ->
        FontExtractor.parseGoogleFontsUrl URL_searchParam link
        = flat_map (fun seg => map (token_descriptor (fst seg)) (split "," (snd seg)))
                   segs) /\
    (forall link,
        URL_searchParam link (js "family") = Some (Some (js "Roboto:400,700i")) ->
        FontExtractor.parseGoogleFontsUrl URL_searchParam link
        = [Examples.google "Roboto" "400" "normal";
           Examples.google "Roboto" "700" "italic"]) /\
    (forall name weights,
        forallb (is_not ":") name = true -> forallb (is_not ":") weights = true ->
        weights <> [] ->
        FontExtractor.google_family (name ++ ":"%char :: weights)
        = map (FontExtractor.google_weight (replace_chr "+" " " name))
              (split "," weights)) /\
    (forall fontName w,
        FontExtractor.google_weight fontName w =
        {| family := fontName;
           weight := VStr (match strip_non_digits w with [] => js "400" | d => d end);
           style := if includes w (js "i") then js "italic" else js "normal";
           source := js "Google Fonts"; url := None; format := None |}) /\
    (forall link d,
        In d (FontExtractor.parseGoogleFontsUrl URL_searchParam link) ->
        google_descriptor d).
Proof.
  intros URL_searchParam.
  assert (Hgen : forall link segs,
             segs <> [] -> forallb segment_ok segs = true ->
             URL_searchParam link (js "family")
             = Some (Some (join "|" (map family_segment segs))) ->
             FontExtractor.parseGoogleFontsUrl URL_searchParam link
             = flat_map (fun seg => map (token_descriptor (fst seg))
                                        (split "," (snd seg))) segs).
  { intros link segs Hne Hok E. unfold FontExtractor.parseGoogleFontsUrl. rewrite E.
    rewrite forallb_forall in Hok.
    assert (Hp : join "|" (map family_segment segs) <> []).
    { apply join_nonempty; [now destruct segs|].
      apply Forall_forall. intros s Hs. apply in_map_iff in Hs.
      destruct Hs as ([n w] & <- & _). unfold family_segment. cbn [fst].
      now destruct n. }
    destruct (join "|" (map family_segment segs)) as [|a p] eqn:Ej; [contradiction|].
    rewrite <- Ej. rewrite split_join.
    - clear Ej Hp E Hne. induction segs as [|seg segs IH]; [reflexivity|].
      cbn [map flat_map]. rewrite google_family_segment by (apply Hok; now left).
      f_equal. apply IH. intros x Hx. apply Hok. now right.
    - now destruct segs.
    - apply Forall_forall. intros s Hs. apply in_map_iff in Hs.
      destruct Hs as (seg & <- & Hin). apply family_segment_no_bar. now apply Hok. }
  split; [exact Hgen|]. split; [|split; [|split]].
  - intros link H.
    apply (Hgen link [(js "Roboto", js "400,700i")]); [discriminate | reflexivity | exact H].
  - apply google_family_tokens.
  - apply google_weight_eq.
  - apply parseGoogleFontsUrl_descriptor.
Qed.

Lemma google_fonts_decoding_witness :
  FontExtractor.parseGoogleFontsUrl Examples.URL_searchParam Examples.google_link
  = flat_map (fun seg => map (token_descriptor (fst seg)) (split "," (snd seg)))
             [(js "Roboto", js "400,700i")] /\
  FontExtractor.parseGoogleFontsUrl WeightsExample.URL_searchParam WeightsExample.link
  = [Examples.google "Open Sans" "300" "normal";
     Examples.google "Open Sans" "600" "italic";
     Examples.google "Lato" "400" "italic"] /\
  FontExtractor.google_family (js "Open+Sans" ++ ":"%char :: js "300,600italic")
  = map (FontExtractor.google_weight (replace_chr "+" " " (js "Open+Sans")))
        (split "," (js "300,600italic")) /\
  google_descriptor (Examples.google "Roboto" "700" "italic").
Proof.
  pose proof (google_fonts_decoding Examples.URL_searchParam) as (H1 & _ & H2 & _ & H4).
  pose proof (google_fonts_decoding WeightsExample.URL_searchParam) as (G1 & _).
  split; [|split; [|split]].
  - apply H1; [discriminate | reflexivity | reflexivity].
  - apply (G1 WeightsExample.link
              [(js "Open Sans", js "300,600italic"); (js "Lato", js "i")]);
      [discriminate | reflexivity | reflexivity].
  - apply H2; [reflexivity | reflexivity | discriminate].
  - apply (H4 Examples.google_link). vm_compute. auto.
Defined.

(** C8. Deduplication is first-wins on the key, and the key is the family,
    the weight and the style joined by hyphens.  For every list: the result
    is the input with every descriptor dropped whose key was met before, so
    the first descriptor of a key is kept whole, url included, in the order
    of first appearance; no key is left twice; descriptors with the same
    family, weight and style have the same key; a list without a repeated
    key is returned as it is.  For every list of descriptors without a hyphen
    in weight and style, as all descriptors of the two parsers are, equal
    keys are equal families, weights and styles, and the result is the input
    with every descriptor dropped whose family, weight and style were seen
    before. *)
Theorem dedupe_first_wins_by_key :
  forall (inherited_text : jsstring -> jsstring) (fonts : list FontInfo),
    let key := FontExtractor.key_of inherited_text in
    let out := FontExtractor.dedupe inherited_text fonts in
    (forall f, key f = family f ++ js "-"
                       ++ FontExtractor.to_text inherited_text (weight f)
                       ++ js "-" ++ style f) /\
    out = first_wins key [] fonts /\
    NoDup (map key out) /\
    (forall f, In f out <->
               exists l1 l2, fonts = l1 ++ f :: l2 /\ ~ In (key f) (map key l1)) /\
    (forall f g, family f = family g -> weight f = weight g -> style f = style g ->
                 key f = key g) /\
    (NoDup (map key fonts) -> out = fonts) /\
    (forallb hyphen_free fonts = true ->
     out = first_seen [] fonts /\
     forall f g, In f fonts -> In g fonts ->
                 (key f = key g <->
                  (family f, weight f, style f) = (family g, weight g, style g))) /\
    (forall URL_href URL_hostname URL_searchParam cssText baseUrl link parsed,
        FontExtractor.parseFontFaces URL_href URL_hostname cssText baseUrl = Ok parsed ->
        forallb hyphen_free
          (parsed ++ FontExtractor.parseGoogleFontsUrl URL_searchParam link) = true).
Proof.
  intros inherited_text fonts key out. subst key out.
  split; [reflexivity|].
  rewrite dedupe_first_wins. split; [reflexivity|].
  split; [|split; [|split; [|split; [|split]]]].
  - apply first_wins_NoDup.
  - intros f. rewrite first_wins_In. split.
    + intros (l1 & l2 & E & _ & H). eauto.
    + intros (l1 & l2 & E & H). exists l1, l2. auto.
  - apply key_of_triple.
  - intros Hnd. apply first_wins_id; auto.
  - intros Hp. split.
    + rewrite <- dedupe_first_wins. now apply dedupe_first_seen.
    + intros f g Hf Hg. rewrite forallb_forall in Hp.
      rewrite <- same_identity_eq. apply hyphen_free_key; auto.
  - intros. eapply parsers_hyphen_free; eassumption.
Qed.

Lemma dedupe_first_wins_by_key_witness :
  FontExtractor.dedupe Examples.inherited_text
    [Examples.descriptor "A" "400" "normal" "https://ex.com/a.woff2" (VStr (js "woff2"));
     Examples.descriptor "B" "400" "italic" "https://ex.com/a.eot" (VStr (js "eot"));
     Examples.descriptor "A" "400" "normal" "https://ex.com/a.woff" (VStr (js "woff"))]
  = [Examples.descriptor "A" "400" "normal" "https://ex.com/a.woff2" (VStr (js "woff2"));
     Examples.descriptor "B" "400" "italic" "https://ex.com/a.eot" (VStr (js "eot"))] /\
  FontExtractor.dedupe Examples.inherited_text
    [Examples.descriptor "A" "400" "normal" "https://ex.com/a.woff2" (VStr (js "woff2"));
     Examples.descriptor "A" "700" "normal" "https://ex.com/a.woff" (VStr (js "woff"))]
  = [Examples.descriptor "A" "400" "normal" "https://ex.com/a.woff2" (VStr (js "woff2"));
     Examples.descriptor "A" "700" "normal" "https://ex.com/a.woff" (VStr (js "woff"))].
Proof.
  split.
  - pose proof (dedupe_first_wins_by_key Examples.inherited_text
      [Examples.descriptor "A" "400" "normal" "https://ex.com/a.woff2" (VStr (js "woff2"));
       Examples.descriptor "B" "400" "italic" "https://ex.com/a.eot" (VStr (js "eot"));
       Examples.descriptor "A" "400" "normal" "https://ex.com/a.woff" (VStr (js "woff"))])
      as (_ & _ & _ & _ & _ & _ & H & _).
    destruct (H eq_refl) as [E _]. exact E.
  - pose proof (dedupe_first_wins_by_key Examples.inherited_text
      [Examples.descriptor "A" "400" "normal" "https://ex.com/a.woff2" (VStr (js "woff2"));
       Examples.descriptor "A" "700" "normal" "https://ex.com/a.woff" (VStr (js "woff"))])
      as (_ & _ & _ & _ & _ & H & _).
    apply H. vm_compute. repeat constructor; simpl; intuition discriminate.
Defined.

(** Deduplication on an example: the second descriptor has the key of the
    first and goes; the first keeps its url. *)
Example dedupe_example :
  FontExtractor.dedupe Examples.inherited_text
    [Examples.descriptor "A" "400" "normal" "https://ex.com/a.woff2" (VStr (js "woff2"));
     Examples.descriptor "A" "400" "normal" "https://ex.com/a.woff" (VStr (js "woff"));
     Examples.descriptor "A" "700" "normal" "https://ex.com/a.eot" (VStr (js "eot"))]
  = [Examples.descriptor "A" "400" "normal" "https://ex.com/a.woff2" (VStr (js "woff2"));
     Examples.descriptor "A" "700" "normal" "https://ex.com/a.eot" (VStr (js "eot"))].
Proof. reflexivity. Qed.

(** C9 as stated fails: with every relay down the error is the fixed message
    All proxies failed, which does not hold the target URL. *)
Lemma all_relays_down_error_without_url :
  snd (App.fetchWithProxy (fun _ => None) (js "https://example.com"))
  = Throw (Error (js "All proxies failed")) /\
  includes (js "All proxies failed") (js "https://example.com") = false.
Proof. split; reflexivity. Qed.

(** C9, amended: fetchWithProxy asks the relays in their order, each with the
    request relay + encodeURIComponent(target); a rejected fetch and a
    response that is not ok are passed over; the first ok response is the
    result and no later relay is asked; when no relay gives one the call
    fails with the error All proxies failed, after asking them all. *)
Theorem fetchWithProxy_first_ok_response :
  forall (fetch : jsstring -> option App.Response) (targetUrl : jsstring),
    match App.fetchWithProxy fetch targetUrl with
    | (log, Ok r) =>
        exists before p after,
          App.CORS_PROXIES = before ++ p :: after /\
          log = map (request_for targetUrl) (before ++ [p]) /\
          fetch (request_for targetUrl p) = Some r /\ App.ok r = true /\
          Forall (fun q => failed (fetch (request_for targetUrl q))) before
    | (log, Throw e) =>
        e = Error (js "All proxies failed") /\
        log = map (request_for targetUrl) App.CORS_PROXIES /\
        Forall (fun q => failed (fetch (request_for targetUrl q))) App.CORS_PROXIES
    | (log, Diverge) => False
    end.
Proof.
  intros fetch targetUrl. unfold App.fetchWithProxy. apply try_proxies_spec.
Qed.

(** C10 as stated fails in every run: the descriptors that reach the
    deduplication come from the two parsers, and among those equal keys are
    equal families, weights and styles.  A family that ends in a hyphen and
    digits is kept apart from the family without them: the style sheet of the
    example gives the families Inter-400 (weight 700) and Inter (weight 400),
    and deduplication keeps both. *)
Lemma parser_descriptors_never_collide :
  (FontExtractor.parseFontFaces Examples.URL_href Examples.URL_hostname
     KeyExample.css Examples.base = Ok KeyExample.fonts /\
   FontExtractor.dedupe Examples.inherited_text KeyExample.fonts = KeyExample.fonts) /\
  (forall inherited_text URL_href URL_hostname URL_searchParam cssText baseUrl link
          parsed f g,
      FontExtractor.parseFontFaces URL_href URL_hostname cssText baseUrl = Ok parsed ->
      In f (parsed ++ FontExtractor.parseGoogleFontsUrl URL_searchParam link) ->
      In g (parsed ++ FontExtractor.parseGoogleFontsUrl URL_searchParam link) ->
      (family f, weight f, style f) <> (family g, weight g, style g) ->
      FontExtractor.key_of inherited_text f <> FontExtractor.key_of inherited_text g).
Proof.
  split; [split; vm_compute; reflexivity|].
  intros inherited_text URL_href URL_hostname URL_searchParam cssText baseUrl link
         parsed f g Hp Hf Hg Hne Hk.
  pose proof (parsers_hyphen_free URL_href URL_hostname URL_searchParam _ _ link Hp) as H.
  rewrite forallb_forall in H.
  apply Hne. apply same_identity_eq.
  apply (hyphen_free_key inherited_text); auto.
Qed.

(** C10, amended: the deduplication key is the family, the weight and the
    style joined by hyphens.  Two descriptors with different family, weight
    or style can have the same key only when a weight or a style holds a
    hyphen (as in Inter-400, 700 and Inter, 400-700), and deduplication of
    such a pair would keep only the first.  No descriptor of the two parsers
    has a hyphen in its weight or style: on the descriptors that reach the
    deduplication equal keys are equal families, weights and styles, and
    deduplication drops a descriptor only when its family, weight and style
    were seen before. *)
Theorem joined_key_collides_only_with_hyphen :
  forall (inherited_text : jsstring -> jsstring),
    let key := FontExtractor.key_of inherited_text in
    (forall f, key f = family f ++ js "-"
                       ++ FontExtractor.to_text inherited_text (weight f)
                       ++ js "-" ++ style f) /\
    (forall f g, hyphen_free f = true -> hyphen_free g = true ->
                 (key f = key g <->
                  (family f, weight f, style f) = (family g, weight g, style g))) /\
    (exists f g,
        hyphen_free f = true /\ hyphen_free g = false /\
        (family f, weight f, style f) <> (family g, weight g, style g) /\
        key f = key g /\
        FontExtractor.dedupe inherited_text [f; g] = [f]) /\
    (forall URL_href URL_hostname URL_searchParam cssText baseUrl link parsed,
        FontExtractor.parseFontFaces URL_href URL_hostname cssText baseUrl = Ok parsed ->
        let fonts := parsed ++ FontExtractor.parseGoogleFontsUrl URL_searchParam link in
        forallb hyphen_free fonts = true /\
        FontExtractor.dedupe inherited_text fonts = first_seen [] fonts).
Proof.
  intros inherited_text key. subst key.
  split; [reflexivity|]. split; [|split].
  - intros f g Hf Hg. rewrite <- same_identity_eq. now apply hyphen_free_key.
  - exists (Examples.descriptor "Inter-400" "700" "normal" "https://ex.com/a.woff2"
              (VStr (js "woff2"))),
           (Examples.descriptor "Inter" "400-700" "normal" "https://ex.com/a.woff"
              (VStr (js "woff"))).
    split; [reflexivity|]. split; [reflexivity|]. split; [discriminate|].
    split; reflexivity.
  - intros URL_href URL_hostname URL_searchParam cssText baseUrl link parsed Hp fonts.
    subst fonts.
    pose proof (parsers_hyphen_free URL_href URL_hostname URL_searchParam _ _ link Hp) as H.
    split; [exact H | now apply dedupe_first_seen].
Qed.

Lemma joined_key_collides_only_with_hyphen_witness :
  (FontExtractor.key_of Examples.inherited_text
     (Examples.descriptor "Inter-400" "700" "normal" "https://ex.com/a.woff2"
        (VStr (js "woff2")))
   = FontExtractor.key_of Examples.inherited_text
       (Examples.descriptor "Inter" "400" "normal" "https://ex.com/a.woff"
          (VStr (js "woff")))
   <-> (js "Inter-400", VStr (js "700"), js "normal")
       = (js "Inter", VStr (js "400"), js "normal")) /\
  FontExtractor.dedupe Examples.inherited_text
    (KeyExample.fonts
     ++ FontExtractor.parseGoogleFontsUrl Examples.URL_searchParam Examples.google_link)
  = first_seen []
      (KeyExample.fonts
       ++ FontExtractor.parseGoogleFontsUrl Examples.URL_searchParam Examples.google_link).
Proof.
  pose proof (joined_key_collides_only_with_hyphen Examples.inherited_text)
    as (_ & H2 & _ & H4).
  split.
  - apply (H2 (Examples.descriptor "Inter-400" "700" "normal" "https://ex.com/a.woff2"
                 (VStr (js "woff2")))
              (Examples.descriptor "Inter" "400" "normal" "https://ex.com/a.woff"
                 (VStr (js "woff")))); reflexivity.
  - apply (H4 Examples.URL_href Examples.URL_hostname Examples.URL_searchParam
              KeyExample.css Examples.base Examples.google_link KeyExample.fonts).
    vm_compute. reflexivity.
Defined.

(* ===================================================================== *)
(** * Grouping by family *)
(* ===================================================================== *)

Lemma for_each_app A St (body : St -> A -> outcome St) l1 l2 st :
  for_each body (l1 ++ l2) st = (st' <- for_each body l1 st ;; for_each body l2 st').
Proof.
  revert st. induction l1 as [|x l1 IH]; intros st; simpl; [reflexivity|].
  destruct (body st x); simpl; auto.
Qed.

Section FirstWinsMore.
Variable A : Type.
Variable key : A -> jsstring.

Lemma first_wins_snoc x : forall l seen,
  first_wins key seen (l ++ [x]) =
  first_wins key seen l ++
  (if existsb (fun k => str_eqb k (key x)) (seen ++ map key l) then [] else [x]).
Proof.
  induction l as [|y l IH]; intros seen; simpl.
  - rewrite app_nil_r. now destruct (existsb _ seen).
  - destruct (existsb (fun k => str_eqb k (key y)) seen) eqn:E.
    + rewrite IH. f_equal.
      rewrite !existsb_app. simpl.
      destruct (str_eqb (key y) (key x)) eqn:Ek; [|reflexivity].
      apply str_eqb_eq in Ek. rewrite <- Ek, E. reflexivity.
    + simpl. rewrite IH. f_equal. f_equal.
      now rewrite <- app_assoc.
Qed.

(** The keys kept are the keys of the list that were not seen before. *)
Lemma first_wins_keys k : forall l seen,
  In k (map key (first_wins key seen l)) <-> In k (map key l) /\ ~ In k seen.
Proof.
  induction l as [|y l IH]; intros seen; simpl; [tauto|].
  destruct (existsb (fun k' => str_eqb k' (key y)) seen) eqn:E.
  - apply seen_In in E. rewrite IH. split; [tauto|].
    intros [[Hk|Hk] Hs]; [congruence | tauto].
  - apply seen_not_In in E. simpl. rewrite IH, in_app_iff. simpl.
    destruct (str_eqb (key y) k) eqn:Ek.
    + apply str_eqb_eq in Ek. subst k. tauto.
    + apply str_eqb_neq in Ek. tauto.
Qed.
End FirstWinsMore.

Lemma Map_get_app_absent V (m : Map V) k v :
  Map_has m k = false -> Map_get (m ++ [(k, v)]) k = Some v.
Proof.
  unfold Map_has. induction m as [|[k' v'] m IH]; simpl.
  - now rewrite str_eqb_refl.
  - intros H. apply orb_false_iff in H. destruct H as [H1 H2].
    rewrite H1. auto.
Qed.

(** Setting the last key again changes the last entry. *)
Lemma Map_set_last V (m : Map V) k v v' :
  Map_has m k = false -> Map_set (m ++ [(k, v)]) k v' = m ++ [(k, v')].
Proof.
  unfold Map_has. induction m as [|[k1 v1] m IH]; simpl.
  - now rewrite str_eqb_refl.
  - intros H. apply orb_false_iff in H. destruct H as [H1 H2].
    rewrite H1. now rewrite IH.
Qed.

(** With distinct keys, setting a present key is an update of its entry. *)
Lemma Map_set_update V (h : V -> V) k : forall (m : Map V) g,
  NoDup (map fst m) -> Map_get m k = Some g ->
  Map_set m k (h g) =
  map (fun e => if str_eqb (fst e) k then (fst e, h (snd e)) else e) m.
Proof.
  induction m as [|[k1 v1] m IH]; intros g Hnd Hget; simpl in *; [discriminate|].
  inversion Hnd as [|x xs Hk1 Hm]; subst.
  destruct (str_eqb k1 k) eqn:E.
  - injection Hget as ->. f_equal.
    apply str_eqb_eq in E. subst k1.
    rewrite <- (map_id m) at 1. apply map_ext_in.
    intros [k2 v2] Hin. simpl.
    destruct (str_eqb k2 k) eqn:E2; [|reflexivity].
    apply str_eqb_eq in E2. subst k2.
    exfalso. apply Hk1. change k with (fst (k, v2)). now apply in_map.
  - f_equal. now apply IH.
Qed.

Lemma Map_has_In V (m : Map V) k : Map_has m k = true <-> In k (map fst m).
Proof. rewrite Map_has_keys. apply seen_In. Qed.

Lemma Map_has_not_In V (m : Map V) k : Map_has m k = false <-> ~ In k (map fst m).
Proof. rewrite Map_has_keys. apply seen_not_In. Qed.

Lemma add_weights_nil g : add_weights g [] = g.
Proof. destruct g. unfold add_weights. simpl. now rewrite app_nil_r. Qed.

Lemma weights_of_cons_same f l :
  weights_of (family f) (f :: l) = FontPeek.weight_of f :: weights_of (family f) l.
Proof. unfold weights_of. simpl. now rewrite str_eqb_refl. Qed.

Lemma weights_of_cons_other k f l :
  family f <> k -> weights_of k (f :: l) = weights_of k l.
Proof.
  intros H. unfold weights_of. simpl.
  apply str_eqb_neq in H. now rewrite H.
Qed.

Lemma group_of_cons_other f g l :
  family f <> family g -> group_of (f :: l) g = group_of l g.
Proof.
  intros H. unfold group_of. simpl.
  apply str_eqb_neq in H. now rewrite H.
Qed.

(** One font more: what [group_step] makes of a map with distinct keys. *)
Lemma group_step_merge m f l :
  NoDup (map fst m) ->
  exists m', FontPeek.group_step m f = Ok m' /\ NoDup (map fst m') /\
             merge_groups m' l = merge_groups m (f :: l).
Proof.
  intros Hnd. unfold FontPeek.group_step, FontPeek.font_family, FontPeek.font_source.
  destruct (Map_has m (family f)) eqn:E; cbn [negb].
  - destruct (Map_has_get _ _ E) as [g Hg]. rewrite Hg. cbn [defined bind].
    fold (add_weights g [FontPeek.weight_of f]).
    rewrite (@Map_set_update _ (fun g => add_weights g [FontPeek.weight_of f]) _ _ _ Hnd Hg).
    eexists. split; [reflexivity|]. split.
    + rewrite map_map.
      erewrite map_ext; [exact Hnd|]. intros [k v]. simpl. now destruct (str_eqb k _).
    + unfold merge_groups. f_equal.
      * rewrite map_map. apply map_ext. intros [k v]. cbn [fst snd].
        destruct (str_eqb k (family f)) eqn:Ek; cbn [fst snd].
        -- apply str_eqb_eq in Ek. subst k. rewrite weights_of_cons_same.
           unfold add_weights. cbn. now rewrite <- app_assoc.
        -- apply str_eqb_neq in Ek. rewrite weights_of_cons_other; congruence.
      * rewrite map_map.
        erewrite (map_ext (fun x => fst (if str_eqb (fst x) (family f)
                                         then (fst x, add_weights (snd x) [FontPeek.weight_of f])
                                         else x)) fst)
          by (intros [k v]; simpl; now destruct (str_eqb k _)).
        cbn [first_wins].
        apply Map_has_In in E. apply seen_In in E. rewrite E.
        apply map_ext_in. intros g' Hin.
        apply first_wins_In in Hin. destruct Hin as (_ & _ & _ & Hseen & _).
        rewrite group_of_cons_other; [reflexivity|].
        intros Ef. apply Hseen. rewrite <- Ef. now apply seen_In.
  - pose proof E as Habs. apply Map_has_not_In in Habs.
    rewrite (@Map_set_fresh _ _ _ _ E), (@Map_get_app_absent _ _ _ _ E).
    cbn [defined bind FontPeek.family FontPeek.source FontPeek.weights app].
    rewrite (@Map_set_last _ _ _ _ _ E).
    eexists. split; [reflexivity|]. split.
    + rewrite map_app. simpl. apply NoDup_app; auto.
      * constructor; [intros []|constructor].
      * intros k Hk [<-|[]]. contradiction.
    + unfold merge_groups. rewrite !map_app. cbn [map fst snd first_wins].
      assert (Es : existsb (fun k => str_eqb k (family f)) (map fst m) = false)
        by now apply seen_not_In.
      rewrite Es. cbn [map]. rewrite <- app_assoc. cbn [app].
      f_equal; [|f_equal].
      * apply map_ext_in. intros [k v] Hin. cbn [fst snd].
        rewrite weights_of_cons_other; [reflexivity|].
        intros Ef. apply Habs. rewrite Ef.
        change k with (fst (k, v)). now apply in_map.
      * unfold group_of, add_weights. cbn. now rewrite str_eqb_refl.
      * apply map_ext_in. intros g' Hin.
        apply first_wins_In in Hin. destruct Hin as (_ & _ & _ & Hseen & _).
        rewrite group_of_cons_other; [reflexivity|].
        intros Ef. apply Hseen. rewrite in_app_iff. right. left. exact Ef.
Qed.

Lemma for_each_group_step l : forall m,
  NoDup (map fst m) ->
  for_each FontPeek.group_step l m = Ok (merge_groups m l).
Proof.
  induction l as [|f l IH]; intros m Hnd.
  - simpl. unfold merge_groups. simpl. rewrite app_nil_r. f_equal.
    rewrite <- (map_id m) at 1. apply map_ext. intros [k v]. simpl.
    unfold weights_of. simpl. now rewrite add_weights_nil.
  - simpl. destruct (@group_step_merge m f l Hnd) as (m' & -> & Hnd' & <-).
    simpl. now apply IH.
Qed.

Lemma weight_count_update k w : forall (m : Map FontPeek.FontGroup),
  NoDup (map fst m) -> In k (map fst m) ->
  weight_count
    (map snd (map (fun e => if str_eqb (fst e) k
                            then (fst e, add_weights (snd e) [w]) else e) m))
  = S (weight_count (map snd m)).
Proof.
  unfold weight_count.
  induction m as [|[k1 g1] m IH]; intros Hnd Hin; simpl in *; [contradiction|].
  inversion Hnd as [|x xs Hk1 Hm]; subst.
  destruct (str_eqb k1 k) eqn:E; simpl.
  - apply str_eqb_eq in E. subst k1. rewrite length_app. simpl.
    replace (map _ m) with m; [lia|].
    rewrite <- (map_id m) at 1. apply map_ext_in. intros [k2 g2] Hin2. simpl.
    destruct (str_eqb k2 k) eqn:E2; [|reflexivity].
    apply str_eqb_eq in E2. subst k2. exfalso. apply Hk1.
    change k with (fst (k, g2)). now apply in_map.
  - apply str_eqb_neq in E. destruct Hin as [Hin|Hin]; [contradiction|].
    rewrite IH; auto.
Qed.

(** Every font becomes one weight of one group. *)
Lemma group_step_count m f m' :
  NoDup (map fst m) -> FontPeek.group_step m f = Ok m' ->
  weight_count (map snd m') = S (weight_count (map snd m)).
Proof.
  intros Hnd. unfold FontPeek.group_step, FontPeek.font_family, FontPeek.font_source.
  destruct (Map_has m (family f)) eqn:E; cbn [negb].
  - destruct (Map_has_get _ _ E) as [g Hg]. rewrite Hg. cbn [defined bind].
    fold (add_weights g [FontPeek.weight_of f]).
    rewrite (@Map_set_update _ (fun g => add_weights g [FontPeek.weight_of f]) _ _ _ Hnd Hg).
    intros [= <-]. apply weight_count_update; [exact Hnd|].
    now apply Map_has_In.
  - rewrite (@Map_set_fresh _ _ _ _ E), (@Map_get_app_absent _ _ _ _ E).
    cbn [defined bind FontPeek.family FontPeek.source FontPeek.weights app].
    rewrite (@Map_set_last _ _ _ _ _ E).
    intros [= <-]. unfold weight_count. rewrite !map_app, list_sum_app. simpl. lia.
Qed.

Lemma for_each_group_count l : forall m m',
  NoDup (map fst m) -> for_each FontPeek.group_step l m = Ok m' ->
  weight_count (map snd m') = weight_count (map snd m) + length l.
Proof.
  induction l as [|f l IH]; intros m m' Hnd H; simpl in H.
  - injection H as <-. simpl. lia.
  - destruct (@group_step_merge m f l Hnd) as (m1 & E1 & Hnd1 & _).
    rewrite E1 in H. simpl in H.
    rewrite (IH _ _ Hnd1 H), (@group_step_count _ _ _ Hnd E1). simpl. lia.
Qed.

Lemma groups_eq (fonts : list FontInfo) :
  FontPeek.groupFontsByFamily fonts
  = Ok (map (group_of fonts) (first_wins (@family) [] fonts)).
Proof.
  unfold FontPeek.groupFontsByFamily.
  rewrite for_each_group_step by constructor. simpl.
  unfold merge_groups, Map_values. simpl. now rewrite map_map.
Qed.

Lemma groups_families_distinct (fonts : list FontInfo) :
  NoDup (map FontPeek.family (map (group_of fonts) (first_wins (@family) [] fonts))).
Proof.
  rewrite map_map. cbn [group_of FontPeek.family].
  apply (first_wins_NoDup (@family)).
Qed.

Lemma groups_nonempty (fonts : list FontInfo) :
  Forall (fun g => FontPeek.weights g <> [])
         (map (group_of fonts) (first_wins (@family) [] fonts)).
Proof.
  apply Forall_forall. intros g Hin. apply in_map_iff in Hin.
  destruct Hin as (f & <- & Hin). cbn [group_of FontPeek.weights].
  apply first_wins_In in Hin. destruct Hin as (l1 & l2 & -> & _).
  rewrite filter_app. cbn [filter]. rewrite str_eqb_refl, map_app. simpl.
  intros E. apply app_eq_nil in E. destruct E as [_ E]. discriminate E.
Qed.

(** X1. groupFontsByFamily completes, and gives one group for each family in
    the order in which the families first appear, with the source of the
    first font of the family and, as weights, all the fonts of the family in
    their order. *)
Theorem groupFontsByFamily_groups :
  forall fonts : list FontInfo,
    FontPeek.groupFontsByFamily fonts
    = Ok (map (group_of fonts) (first_wins (@family) [] fonts)).
Proof. exact groups_eq. Qed.

(** X2. The groups of groupFontsByFamily have distinct family names, none of
    them is without a weight, and together they hold as many weights as
    there are fonts: no font is dropped or merged, also when two fonts have
    the same weight and style. *)
Theorem groupFontsByFamily_keeps_all :
  forall fonts : list FontInfo,
  exists groups,
    FontPeek.groupFontsByFamily fonts = Ok groups /\
    NoDup (map FontPeek.family groups) /\
    Forall (fun g => FontPeek.weights g <> []) groups /\
    weight_count groups = length fonts.
Proof.
  intros fonts. eexists. split; [apply groups_eq|].
  split; [apply groups_families_distinct|]. split; [apply groups_nonempty|].
  pose proof (groups_eq fonts) as H.
  unfold FontPeek.groupFontsByFamily in H.
  destruct (for_each FontPeek.group_step fonts []) as [m| |] eqn:E; try discriminate.
  simpl in H. injection H as H. unfold Map_values in H. rewrite <- H.
  rewrite (@for_each_group_count fonts [] m (NoDup_nil _) E). reflexivity.
Qed.

(* ===================================================================== *)
(** * utils/fontConverter.ts *)
(* ===================================================================== *)

Lemma space_not_safe c : is_space c = true -> name_safe c = false.
Proof. destruct c as [[] [] [] [] [] [] [] []]; intros H; try discriminate H; reflexivity. Qed.

Lemma hyphenate_safe : forall s in_run,
  forallb (fun c => is_alnum c || is_space c || chr_eqb c "-") s = true ->
  forallb name_safe (FontConverter.hyphenate in_run s) = true.
Proof.
  induction s as [|c s IH]; intros in_run H; simpl in *; [reflexivity|].
  apply andb_true_iff in H. destruct H as [Hc Hs].
  destruct (is_space c) eqn:E.
  - destruct in_run; simpl; auto.
  - simpl. rewrite IH by assumption. rewrite andb_true_r.
    unfold name_safe. rewrite orb_false_r in Hc.
    destruct (is_alnum c); simpl in *; auto.
Qed.

Lemma hyphenate_id : forall s in_run,
  forallb name_safe s = true -> FontConverter.hyphenate in_run s = s.
Proof.
  induction s as [|c s IH]; intros in_run H; simpl in *; [reflexivity|].
  apply andb_true_iff in H. destruct H as [Hc Hs].
  destruct (is_space c) eqn:E.
  - apply space_not_safe in E. congruence.
  - f_equal. now apply IH.
Qed.

Lemma filter_id A (p : A -> bool) l : forallb p l = true -> filter p l = l.
Proof.
  induction l as [|x l IH]; simpl; [reflexivity|].
  intros H. apply andb_true_iff in H. destruct H as [-> Hl]. now rewrite IH.
Qed.

Lemma forallb_filter A (p : A -> bool) l : forallb p (filter p l) = true.
Proof.
  induction l as [|x l IH]; simpl; [reflexivity|].
  destruct (p x) eqn:E; simpl; [now rewrite E|exact IH].
Qed.

(** X3. A cleaned font name holds only letters, digits and hyphens, and
    cleaning it again changes nothing. *)
Theorem cleanName_safe_idempotent :
  forall fontName : jsstring,
    forallb name_safe (FontConverter.cleanName fontName) = true /\
    FontConverter.cleanName (FontConverter.cleanName fontName)
    = FontConverter.cleanName fontName.
Proof.
  intros fontName.
  assert (H : forallb name_safe (FontConverter.cleanName fontName) = true).
  { unfold FontConverter.cleanName. apply hyphenate_safe, forallb_filter. }
  split; [exact H|].
  unfold FontConverter.cleanName at 1.
  rewrite filter_id.
  - now apply hyphenate_id.
  - eapply forallb_forall. intros c Hc.
    rewrite forallb_forall in H. specialize (H c Hc).
    unfold name_safe in H. apply orb_true_iff in H.
    destruct H as [-> | ->]; [reflexivity | apply orb_true_r].
Qed.

Section DownloadFacts.
Variable fetch : jsstring -> option FontConverter.Response.
Variable network_error : exn.
Variable inherited_text : jsstring -> jsstring.

Lemma downloadFont_eq fontUrl fontName targetFormat useCorsProxy :
  FontConverter.downloadFont fetch network_error inherited_text
    fontUrl fontName targetFormat useCorsProxy
  = match fetch (if useCorsProxy
                 then js "https://api.allorigins.win/raw?url="
                      ++ App.encodeURIComponent fontUrl
                 else fontUrl) with
    | None => Throw network_error
    | Some r =>
        if FontConverter.ok r then
          Ok {| FontConverter.file := FontConverter.blob r;
                FontConverter.name :=
                  if strict_eq (FontConverter.getFormatFromUrl fontUrl)
                       (FontConverter.format_name targetFormat)
                  then FontConverter.cleanName fontName ++ js "."
                       ++ FontConverter.format_name targetFormat
                  else FontConverter.cleanName fontName ++ js "-original."
                       ++ FontExtractor.to_text inherited_text
                            (FontConverter.getExtensionForFormat
                               (FontConverter.getFormatFromUrl fontUrl)) |}
        else Throw (Error (js "Failed to fetch font: "
                           ++ number_text (FontConverter.status r)))
    end.
Proof.
  unfold FontConverter.downloadFont, FontConverter.canConvertDirectly.
  destruct (fetch _) as [r|]; [|reflexivity].
  cbn [bind]. destruct (FontConverter.ok r); [|reflexivity].
  cbn [negb].
  destruct (strict_eq _ _); reflexivity.
Qed.

(** X4. downloadFont never converts: what it saves is the fetched blob as
    it is, type included, under the cleaned name followed by a dot and the
    target format when the extension of the URL is that format, and by
    -original, a dot and the extension found otherwise.  It saves exactly
    when the fetch gives an ok response; when the fetch is rejected it
    fails with that error, and on another status with an Error that names
    the status. *)
Theorem downloadFont_saves_original :
  forall (fontUrl fontName : jsstring) (targetFormat : FontConverter.FontFormat)
         (useCorsProxy : bool),
    let request := if useCorsProxy
                   then js "https://api.allorigins.win/raw?url="
                        ++ App.encodeURIComponent fontUrl
                   else fontUrl in
    match FontConverter.downloadFont fetch network_error inherited_text
            fontUrl fontName targetFormat useCorsProxy with
    | Ok saved =>
        exists r,
          fetch request = Some r /\ FontConverter.ok r = true /\
          FontConverter.file saved = FontConverter.blob r /\
          FontConverter.name saved =
          FontConverter.cleanName fontName ++
          (if strict_eq (FontConverter.getFormatFromUrl fontUrl)
                (FontConverter.format_name targetFormat)
           then js "." ++ FontConverter.format_name targetFormat
           else js "-original."
                ++ FontExtractor.to_text inherited_text
                     (FontConverter.getExtensionForFormat
                        (FontConverter.getFormatFromUrl fontUrl)))
    | Throw e =>
        (fetch request = None /\ e = network_error) \/
        (exists r, fetch request = Some r /\ FontConverter.ok r = false /\
                   e = Error (js "Failed to fetch font: "
                              ++ number_text (FontConverter.status r)))
    | Diverge => False
    end.
Proof.
  intros fontUrl fontName targetFormat useCorsProxy request.
  rewrite downloadFont_eq. subst request. cbv zeta.
  destruct (fetch _) as [r|]; [|left; split; reflexivity].
  destruct (FontConverter.ok r) eqn:Eok.
  - exists r. cbn [FontConverter.file FontConverter.name].
    split; [reflexivity|]. split; [exact Eok|]. split; [reflexivity|].
    destruct (strict_eq _ _); reflexivity.
  - right. exists r. auto.
Qed.
End DownloadFacts.

(* ===================================================================== *)
(** * The extension of a URL *)
(* ===================================================================== *)

Lemma split_nonempty sep s : split sep s <> [].
Proof.
  destruct s as [|c s]; simpl; [discriminate|].
  destruct (chr_eqb c sep); [discriminate|].
  destruct (split sep s); discriminate.
Qed.

(** Splitting around a separator splits both sides. *)
Lemma split_app sep b : forall a,
  split sep (a ++ sep :: b) = split sep a ++ split sep b.
Proof.
  induction a as [|c a IH]; cbn [split app].
  - unfold chr_eqb. now rewrite Ascii.eqb_refl.
  - destruct (chr_eqb c sep); rewrite IH; [reflexivity|].
    pose proof (split_nonempty sep a) as Hne.
    destruct (split sep a); [contradiction | reflexivity].
Qed.

Lemma pop_app l1 l2 : l2 <> [] -> pop (l1 ++ l2) = pop l2.
Proof.
  intros Hne. unfold pop. rewrite rev_app_distr.
  destruct (rev l2) eqn:E; [|reflexivity].
  apply (f_equal (@rev jsstring)) in E. rewrite rev_involutive in E.
  simpl in E. contradiction.
Qed.

Lemma lower_keeps_question c : is_not "?" (lower_chr c) = is_not "?" c.
Proof. destruct c as [[] [] [] [] [] [] [] []]; reflexivity. Qed.

Lemma lower_no_question s :
  forallb (is_not "?") s = true -> forallb (is_not "?") (toLowerCase s) = true.
Proof.
  unfold toLowerCase. induction s as [|c s IH]; simpl; [reflexivity|].
  intros H. apply andb_true_iff in H. destruct H as [Hc Hs].
  now rewrite lower_keeps_question, Hc, IH.
Qed.

(** The extension is the text after the last dot, in lower case, up to a
    question mark. *)
Lemma extension_of_plain stem ext :
  forallb (is_not ".") ext = true -> forallb (is_not "?") ext = true ->
  FontExtractor.extension_of (stem ++ "."%char :: ext) = Some (toLowerCase ext).
Proof.
  intros Hdot Hq. unfold FontExtractor.extension_of.
  rewrite split_app, pop_app by apply split_nonempty.
  rewrite (split_no_sep _ _ Hdot). cbn [pop rev app].
  now rewrite (split_no_sep _ _ (lower_no_question _ Hq)).
Qed.

Lemma extension_of_query stem ext query :
  forallb (is_not ".") ext = true -> forallb (is_not "?") ext = true ->
  forallb (is_not ".") query = true ->
  FontExtractor.extension_of (stem ++ "."%char :: ext ++ "?"%char :: query)
  = Some (toLowerCase ext).
Proof.
  intros Hdot Hq Hqd. unfold FontExtractor.extension_of.
  rewrite split_app, pop_app by apply split_nonempty.
  rewrite split_no_sep.
  - cbn [pop rev app]. unfold toLowerCase. rewrite map_app. cbn [map].
    change (lower_chr "?") with "?"%char.
    now rewrite (split_at_first _ _ _ (lower_no_question _ Hq)).
  - rewrite forallb_app. cbn [forallb]. now rewrite Hdot, Hqd.
Qed.

Lemma nonempty_or_nil (e : jsstring) :
  match e with (_ :: _) as e' => e' | [] => [] end = e.
Proof. now destruct e. Qed.

(** X5. getFormatFromUrl of utils/fontExtractor.ts looks only at the text after the last dot, without
    regard to case and without a query that holds no dot: the format is what
    formatMap gives for that text in lower case, and unknown when it gives
    nothing. *)
Theorem getFormatFromUrl_extension :
  forall stem ext query : jsstring,
    forallb (is_not ".") ext = true -> forallb (is_not "?") ext = true ->
    forallb (is_not ".") query = true ->
    FontExtractor.getFormatFromUrl (stem ++ "."%char :: ext)
    = or_else (get_property FontExtractor.formatMap (toLowerCase ext))
              (VStr (js "unknown")) /\
    FontExtractor.getFormatFromUrl (stem ++ "."%char :: ext ++ "?"%char :: query)
    = FontExtractor.getFormatFromUrl (stem ++ "."%char :: ext).
Proof.
  intros stem ext query Hdot Hq Hqd. unfold FontExtractor.getFormatFromUrl.
  rewrite (extension_of_plain _ _ Hdot Hq), (extension_of_query _ _ _ Hdot Hq Hqd).
  now rewrite nonempty_or_nil.
Qed.

Lemma getFormatFromUrl_extension_witness :
  FontExtractor.getFormatFromUrl (js "https://ex.com/fonts/a.b" ++ "."%char :: js "WOFF2")
  = or_else (get_property FontExtractor.formatMap (toLowerCase (js "WOFF2")))
            (VStr (js "unknown")) /\
  FontExtractor.getFormatFromUrl
    (js "https://ex.com/fonts/a.b" ++ "."%char :: js "WOFF2" ++ "?"%char :: js "v=3")
  = FontExtractor.getFormatFromUrl (js "https://ex.com/fonts/a.b" ++ "."%char :: js "WOFF2").
Proof.
  apply (getFormatFromUrl_extension (js "https://ex.com/fonts/a.b") (js "WOFF2") (js "v=3"));
    reflexivity.
Defined.

(* ===================================================================== *)
(** * More on parseFontFaces *)
(* ===================================================================== *)

Section ExtractorKeeps.
Import FontExtractor.
Variable URL_href : jsstring -> jsstring -> option jsstring.
Variable URL_hostname : jsstring -> option jsstring.
Variable baseUrl : jsstring.
Variable Q : FontInfo -> Prop.

(** [Q] holds of every descriptor that the try block can push. *)
Hypothesis pushed :
  forall fam wt sty raw fmt full host,
    URL_href raw baseUrl = Some full -> URL_hostname baseUrl = Some host ->
    Q {| family := fam; weight := normalizeWeight wt; style := sty;
         source := host; url := Some full; format := Some fmt |}.

Lemma push_font_keeps fam wt sty fontUrl fmt fonts fonts' :
  Forall Q fonts ->
  push_font URL_href URL_hostname baseUrl fam wt sty fontUrl fmt fonts = Ok fonts' ->
  Forall Q fonts'.
Proof.
  intros HQ. rewrite push_font_eq.
  destruct (URL_href fontUrl baseUrl) eqn:Eu; [destruct (URL_hostname baseUrl) eqn:Eh|];
    intros [= <-]; auto.
  apply Forall_app. split; [exact HQ|]. constructor; [|constructor].
  eapply pushed; [eassumption | reflexivity].
Qed.

Lemma src_loops_keep fam wt sty srcValue fonts fonts' :
  Forall Q fonts ->
  (fonts1 <- for_each_match urlRegex srcValue
               (pair_step URL_href URL_hostname baseUrl fam wt sty) fonts ;;
   for_each_match simpleUrlRegex srcValue
     (simple_step URL_href URL_hostname baseUrl fam wt sty) fonts1) = Ok fonts' ->
  Forall Q fonts'.
Proof.
  intros HQ.
  destruct (for_each_match urlRegex srcValue _ fonts) as [fonts1| |] eqn:E1;
    simpl; try discriminate.
  intros E2.
  apply for_each_match_inv with (P := Forall Q) in E1; auto.
  - apply for_each_match_inv with (P := Forall Q) in E2; auto.
    intros st u u1 m st' _ Hst. unfold simple_step.
    destruct (capture 1 m); [|discriminate]. cbn [defined bind].
    destruct (already_matched st j); [now intros [= <-]|].
    now apply push_font_keeps.
  - intros st u u1 m st' _ Hst. unfold pair_step.
    destruct (capture 1 m); [|discriminate].
    destruct (capture 2 m); [|discriminate]. cbn [defined bind].
    now apply push_font_keeps.
Qed.

Lemma block_step_keeps fonts m fonts' :
  Forall Q fonts ->
  block_step URL_href URL_hostname baseUrl fonts m = Ok fonts' ->
  Forall Q fonts'.
Proof.
  intros HQ. unfold block_step.
  destruct (capture 1 m) as [block|]; [|discriminate]. cbn [defined bind].
  intros H.
  apply read_family in H. destruct H as (fam & _ & H).
  apply read_weight in H. destruct H as (wt & _ & H).
  apply read_style in H. destruct H as (sty & _ & H).
  destruct (str_match srcRegex block) as [srcm|].
  - destruct (capture 1 srcm) as [srcValue|]; [|discriminate].
    cbn [defined bind] in H. eapply src_loops_keep; eassumption.
  - now injection H as <-.
Qed.

(** What holds of every descriptor the try block can push holds of every
    descriptor of the result. *)
Lemma parseFontFaces_keeps cssText fonts :
  parseFontFaces URL_href URL_hostname cssText baseUrl = Ok fonts ->
  Forall Q fonts.
Proof.
  unfold parseFontFaces. apply for_each_match_inv; [|constructor].
  intros st u u1 m st' _ Hst Hb. eapply block_step_keeps; eassumption.
Qed.
End ExtractorKeeps.

(** X6. A style sheet that does not hold the text [@font-face], in any mix of
    cases, gives no descriptor in utils/fontExtractor.ts and leaves the font
    map of App.tsx as it was. *)
Theorem no_font_face_no_fonts :
  forall (URL_href : jsstring -> jsstring -> option jsstring)
         (URL_hostname : jsstring -> option jsstring)
         (App_href : jsstring -> jsstring -> option jsstring)
         (cssText baseUrl : jsstring)
         (fontMap : Map (list App.FontWeight)) (appBase : option jsstring),
    includes (toLowerCase cssText) (js "@font-face") = false ->
    FontExtractor.parseFontFaces URL_href URL_hostname cssText baseUrl = Ok [] /\
    App.parseFontFaces App_href cssText fontMap appBase = Ok fontMap.
Proof.
  intros URL_href URL_hostname App_href cssText baseUrl fontMap appBase H.
  unfold FontExtractor.parseFontFaces, App.parseFontFaces, for_each_match.
  cbn [while_exec].
  unfold FontExtractor.fontFaceRegex, App.fontFaceRegex. cbn [seqs].
  rewrite !(@search_word_absent (js "@font-face") _ cssText H). auto.
Qed.

Lemma no_font_face_no_fonts_witness :
  FontExtractor.parseFontFaces Examples.URL_href Examples.URL_hostname
    (js "body { font-family: Arial }") Examples.base = Ok [] /\
  App.parseFontFaces Examples.URL_href (js "body { font-family: Arial }") []
    (Some Examples.base) = Ok [].
Proof.
  apply (@no_font_face_no_fonts Examples.URL_href Examples.URL_hostname
           Examples.URL_href (js "body { font-family: Arial }") Examples.base
           [] (Some Examples.base)).
  reflexivity.
Defined.

(** X7. When the URL constructor rejects the base URL, parseFontFaces of
    utils/fontExtractor.ts returns no descriptor, whatever the style sheet
    holds: every url() entry is dropped by the catch. *)
Theorem invalid_base_no_fonts :
  forall (URL_href : jsstring -> jsstring -> option jsstring)
         (URL_hostname : jsstring -> option jsstring)
         (cssText baseUrl : jsstring),
    URL_hostname baseUrl = None ->
    FontExtractor.parseFontFaces URL_href URL_hostname cssText baseUrl = Ok [].
Proof.
  intros URL_href URL_hostname cssText baseUrl Hbase.
  destruct (parseFontFaces_ok URL_href URL_hostname cssText baseUrl) as [fonts E].
  rewrite E. f_equal.
  apply parseFontFaces_keeps with (Q := fun _ => False) in E.
  - destruct fonts as [|d fonts]; [reflexivity|]. now inversion E.
  - intros fam wt sty raw fmt full host _ Hh. congruence.
Qed.

Lemma invalid_base_no_fonts_witness :
  FontExtractor.parseFontFaces Examples.URL_href Examples.URL_hostname
    Examples.css_one_pair (js "ex.com/css/a.css") = Ok [].
Proof.
  apply (@invalid_base_no_fonts Examples.URL_href Examples.URL_hostname
           Examples.css_one_pair (js "ex.com/css/a.css")).
  reflexivity.
Defined.

(** X8. Every descriptor of parseFontFaces of utils/fontExtractor.ts has as
    source the host name of the base URL, as url the resolved form of some
    text against the base URL, and a format. *)
Theorem parseFontFaces_fields :
  forall (URL_href : jsstring -> jsstring -> option jsstring)
         (URL_hostname : jsstring -> option jsstring)
         (cssText baseUrl : jsstring),
    exists fonts,
      FontExtractor.parseFontFaces URL_href URL_hostname cssText baseUrl = Ok fonts /\
      Forall (fun d => URL_hostname baseUrl = Some (source d) /\
                       (exists raw full, URL_href raw baseUrl = Some full /\
                                         url d = Some full) /\
                       format d <> None) fonts.
Proof.
  intros URL_href URL_hostname cssText baseUrl.
  destruct (parseFontFaces_ok URL_href URL_hostname cssText baseUrl) as [fonts E].
  exists fonts. split; [exact E|].
  apply parseFontFaces_keeps with (2 := E).
  intros fam wt sty raw fmt full host Hu Hh. cbn [source url format].
  split; [exact Hh|]. split; [eauto | discriminate].
Qed.

(* ===================================================================== *)
(** * More on the Google Fonts links and on dedupe *)
(* ===================================================================== *)

Lemma split_pieces (P : ascii -> bool) sep : forall s piece,
  forallb P s = true -> In piece (split sep s) -> forallb P piece = true.
Proof.
  induction s as [|c s IH]; intros piece Hs Hin; simpl in *.
  - destruct Hin as [<-|[]]. reflexivity.
  - apply andb_true_iff in Hs. destruct Hs as [Hc Hs].
    destruct (chr_eqb c sep).
    + destruct Hin as [<-|Hin]; [reflexivity | auto].
    + destruct (split sep s) as [|h t] eqn:E.
      * destruct Hin as [<-|[]]. simpl. now rewrite Hc.
      * destruct Hin as [<-|Hin].
        -- simpl. rewrite Hc. apply IH; [exact Hs | now left].
        -- apply IH; [exact Hs | now right].
Qed.

Lemma flat_map_length_ge A B (f : A -> list B) : forall l,
  (forall x, f x <> []) -> length l <= length (flat_map f l).
Proof.
  induction l as [|x l IH]; intros Hf; simpl; [lia|].
  rewrite length_app. specialize (IH Hf).
  specialize (Hf x). destruct (f x); [contradiction | simpl; lia].
Qed.

Section GoogleMore.
Import FontExtractor.
Variable URL_searchParam : jsstring -> jsstring -> option (option jsstring).

Lemma google_family_nonempty fam : google_family fam <> [].
Proof.
  unfold google_family.
  destruct (nth_error (split ":" fam) 1) as [[|c weights]|]; try discriminate.
  pose proof (split_nonempty "," (c :: weights)) as H.
  destruct (split "," (c :: weights)); [contradiction | discriminate].
Qed.

Lemma google_family_name fam :
  forallb (is_not ":") fam = true ->
  google_family fam =
  [ {| family := replace_chr "+" " " fam; weight := VStr (js "400");
       style := js "normal"; source := js "Google Fonts";
       url := None; format := None |} ].
Proof.
  intros H. unfold google_family. now rewrite (split_no_sep _ _ H).
Qed.

(** X9. parseGoogleFontsUrl returns no descriptor exactly when the link is
    not a URL or has no family parameter or an empty one; otherwise it
    returns at least one descriptor for each segment of the parameter
    between bars. *)
Theorem parseGoogleFontsUrl_empty_iff :
  forall link : jsstring,
    (parseGoogleFontsUrl URL_searchParam link = [] <->
     forall p, URL_searchParam link (js "family") = Some (Some p) -> p = []) /\
    (forall p, URL_searchParam link (js "family") = Some (Some p) -> p <> [] ->
               1 <= length (split "|" p) <=
               length (parseGoogleFontsUrl URL_searchParam link)).
Proof.
  intros link. unfold parseGoogleFontsUrl.
  destruct (URL_searchParam link (js "family")) as [[[|c p]|]|].
  - split; [split; [now intros _ q [= <-] | reflexivity]|].
    intros q [= <-] Hq. contradiction.
  - assert (Hlen : 1 <= length (split "|" (c :: p))
                   <= length (flat_map google_family (split "|" (c :: p)))).
    { split; [|apply flat_map_length_ge, google_family_nonempty].
      pose proof (split_nonempty "|" (c :: p)).
      destruct (split "|" (c :: p)); [contradiction | simpl; lia]. }
    split; [split|].
    + intros E. rewrite E in Hlen. simpl in Hlen. lia.
    + intros H. specialize (H _ eq_refl). discriminate.
    + intros q [= <-] _. exact Hlen.
  - split; [split; [intros _ q; discriminate | reflexivity]|].
    intros q; discriminate.
  - split; [split; [intros _ q; discriminate | reflexivity]|].
    intros q; discriminate.
Qed.

(** X10. For a family parameter without a colon, parseGoogleFontsUrl gives
    one descriptor for each segment between bars, in order: the segment with
    each plus sign turned into a space as family, weight 400, style
    normal. *)
Theorem parseGoogleFontsUrl_names :
  forall link p,
    URL_searchParam link (js "family") = Some (Some p) ->
    forallb (is_not ":") p = true ->
    p <> [] ->
    parseGoogleFontsUrl URL_searchParam link =
    map (fun seg => {| family := replace_chr "+" " " seg; weight := VStr (js "400");
                       style := js "normal"; source := js "Google Fonts";
                       url := None; format := None |})
        (split "|" p).
Proof.
  intros link p E Hp Hne. unfold parseGoogleFontsUrl. rewrite E.
  destruct p as [|c p]; [contradiction|].
  assert (H : forall seg, In seg (split "|" (c :: p)) ->
                          forallb (is_not ":") seg = true)
    by (intros seg; now apply split_pieces).
  induction (split "|" (c :: p)) as [|seg l IH]; [reflexivity|].
  cbn [flat_map map]. rewrite google_family_name by (apply H; now left).
  cbn [app]. f_equal. apply IH. intros s Hs. apply H. now right.
Qed.
End GoogleMore.

Lemma parseGoogleFontsUrl_names_witness :
  FontExtractor.parseGoogleFontsUrl PageExamples.URL_searchParam PageExamples.names_link =
  map (fun seg => {| family := replace_chr "+" " " seg; weight := VStr (js "400");
                     style := js "normal"; source := js "Google Fonts";
                     url := None; format := None |})
      (split "|" (js "Open Sans|Roboto")).
Proof.
  apply (@parseGoogleFontsUrl_names PageExamples.URL_searchParam
           PageExamples.names_link (js "Open Sans|Roboto"));
    [reflexivity | reflexivity | discriminate].
Defined.

Section FirstWinsAppend.
Variable A : Type.
Variable key : A -> jsstring.

(** Only the set of the keys seen matters. *)
Lemma first_wins_ext : forall l seen seen',
  (forall k, In k seen <-> In k seen') ->
  first_wins key seen l = first_wins key seen' l.
Proof.
  induction l as [|x l IH]; intros seen seen' H; simpl; [reflexivity|].
  assert (E : existsb (fun k => str_eqb k (key x)) seen
              = existsb (fun k => str_eqb k (key x)) seen').
  { destruct (existsb _ seen) eqn:E1; destruct (existsb _ seen') eqn:E2; auto.
    - apply seen_In in E1. apply seen_not_In in E2. apply H in E1. contradiction.
    - apply seen_not_In in E1. apply seen_In in E2. apply H in E2. contradiction. }
  rewrite E. destruct (existsb _ seen'); [now apply IH|].
  f_equal. apply IH. intros k. rewrite !in_app_iff, H. reflexivity.
Qed.

Lemma first_wins_app : forall l1 l2 seen,
  first_wins key seen (l1 ++ l2) =
  first_wins key seen l1 ++ first_wins key (seen ++ map key l1) l2.
Proof.
  induction l1 as [|x l1 IH]; intros l2 seen; simpl.
  - now rewrite app_nil_r.
  - destruct (existsb _ seen) eqn:E.
    + rewrite IH. f_equal. apply first_wins_ext.
      intros k. rewrite !in_app_iff. simpl. apply seen_In in E.
      split; [tauto|]. intros [H|[<-|H]]; auto.
    + simpl. rewrite IH. now rewrite <- app_assoc.
Qed.
End FirstWinsAppend.

(** X11. Deduplicating twice changes nothing more; the keys of the result are
    the keys of the input; the result holds only descriptors of the input;
    and the result for two lists one after the other is the result for the
    first, followed by the descriptors of the second whose key is new. *)
Theorem dedupe_idempotent_stable :
  forall (inherited_text : jsstring -> jsstring) (l1 l2 : list FontInfo),
    let key := FontExtractor.key_of inherited_text in
    let dedupe := FontExtractor.dedupe inherited_text in
    dedupe (dedupe l1) = dedupe l1 /\
    (forall k, In k (map key (dedupe l1)) <-> In k (map key l1)) /\
    incl (dedupe l1) l1 /\
    dedupe (l1 ++ l2) = dedupe l1 ++ first_wins key (map key l1) l2.
Proof.
  intros inherited_text l1 l2 key dedupe. subst key dedupe.
  rewrite !dedupe_first_wins. repeat split.
  - apply first_wins_id; [apply first_wins_NoDup | auto].
  - intros H. now apply first_wins_keys in H.
  - intros H. apply first_wins_keys. auto.
  - intros d Hd. apply first_wins_In in Hd. destruct Hd as (a & b & -> & _).
    apply in_elt.
  - now rewrite first_wins_app.
Qed.

(* ===================================================================== *)
(** * Grouping what dedupe returns *)
(* ===================================================================== *)

Section GroupsOfDeduped.
Variable inherited_text : jsstring -> jsstring.

Local Abbreviation key_of := (FontExtractor.key_of inherited_text).

(** Among descriptors with distinct keys, those of one family have distinct
    pairs of weight and style. *)
Lemma family_weights_distinct k : forall l : list FontInfo,
  NoDup (map key_of l) ->
  NoDup (map (fun w => (FontPeek.weight w, FontPeek.style w)) (weights_of k l)).
Proof.
  unfold weights_of.
  induction l as [|x l IH]; intros Hnd; simpl; [constructor|].
  inversion Hnd as [|y ys Hx Hl]; subst.
  destruct (str_eqb (family x) k) eqn:E; [|auto].
  simpl. constructor; [|auto].
  rewrite map_map, in_map_iff. intros (d & Hd & Hin).
  apply filter_In in Hin. destruct Hin as [Hin Hk].
  apply str_eqb_eq in E, Hk.
  unfold FontPeek.weight_of, FontPeek.font_weight, FontPeek.font_style in Hd.
  simpl in Hd. injection Hd as Hw Hs.
  apply Hx. replace (key_of x) with (key_of d); [now apply in_map|].
  apply key_of_triple; congruence.
Qed.

Lemma groups_weights_distinct (fonts : list FontInfo) :
  NoDup (map key_of fonts) ->
  Forall (fun g => NoDup (map (fun w => (FontPeek.weight w, FontPeek.style w))
                              (FontPeek.weights g)))
         (map (group_of fonts) (first_wins (@family) [] fonts)).
Proof.
  intros Hnd. apply Forall_forall. intros g Hg. apply in_map_iff in Hg.
  destruct Hg as (f & <- & _). unfold group_of. cbn [FontPeek.weights].
  now apply family_weights_distinct.
Qed.

(** X12. Grouping the descriptors that dedupe returns gives groups in which
    no pair of weight and style occurs twice. *)
Theorem groups_of_deduped_distinct :
  forall fonts : list FontInfo,
    exists groups,
      FontPeek.groupFontsByFamily (FontExtractor.dedupe inherited_text fonts)
      = Ok groups /\
      Forall (fun g => NoDup (map (fun w => (FontPeek.weight w, FontPeek.style w))
                                  (FontPeek.weights g))) groups.
Proof.
  intros fonts. eexists. split; [apply groups_eq|].
  apply groups_weights_distinct.
  rewrite dedupe_first_wins. apply first_wins_NoDup.
Qed.
End GroupsOfDeduped.

(* ===================================================================== *)
(** * extractFontsFromCSS *)
(* ===================================================================== *)

Section PageFacts.
Variable URL_href : jsstring -> jsstring -> option jsstring.
Variable URL_hostname : jsstring -> option jsstring.
Variable URL_searchParam : jsstring -> jsstring -> option (option jsstring).
Variable fetch : nat -> jsstring -> option App.Response.
Variable network_error : exn.
Variable parseFromString : jsstring -> FontExtractorPage.Document.
Variable inherited_text : jsstring -> jsstring.

Lemma parsed_eq cssText baseUrl :
  FontExtractor.parseFontFaces URL_href URL_hostname cssText baseUrl
  = Ok (parsed URL_href URL_hostname cssText baseUrl).
Proof.
  unfold parsed.
  destruct (parseFontFaces_ok URL_href URL_hostname cssText baseUrl) as [fonts ->].
  reflexivity.
Qed.

Lemma parsed_nil baseUrl : parsed URL_href URL_hostname [] baseUrl = [].
Proof. reflexivity. Qed.

Lemma link_steps url links : forall acc,
  fold_left (FontExtractorPage.link_step URL_href url) links acc
  = acc ++ sheet_urls URL_href url {| FontExtractorPage.styleLinks := links;
                                     FontExtractorPage.inlineStyles := [];
                                     FontExtractorPage.googleFontsLinks := [] |}.
Proof.
  unfold sheet_urls. cbn [FontExtractorPage.styleLinks].
  induction links as [|href links IH]; intros acc; simpl.
  - now rewrite app_nil_r.
  - rewrite IH. unfold FontExtractorPage.link_step, FontExtractor.new_URL_href.
    destruct href as [[|c h]|]; simpl; try reflexivity.
    destruct (URL_href (c :: h) url); simpl; [|reflexivity].
    now rewrite <- app_assoc.
Qed.

Lemma inline_steps url styles : forall acc,
  for_each (FontExtractorPage.inline_step URL_href URL_hostname url) styles acc
  = Ok (acc ++ inline_fonts URL_href URL_hostname url
                 {| FontExtractorPage.styleLinks := [];
                    FontExtractorPage.inlineStyles := styles;
                    FontExtractorPage.googleFontsLinks := [] |}).
Proof.
  unfold inline_fonts. cbn [FontExtractorPage.inlineStyles].
  induction styles as [|t styles IH]; intros acc; simpl.
  - now rewrite app_nil_r.
  - unfold FontExtractorPage.inline_step at 1. rewrite parsed_eq. cbn [bind].
    rewrite IH. f_equal. rewrite <- app_assoc. f_equal. f_equal.
    destruct t as [[|c t]|]; reflexivity.
Qed.

Lemma sheet_steps useCorsProxy urls : forall n acc,
  for_each (FontExtractorPage.sheet_step URL_href URL_hostname fetch network_error
              useCorsProxy) urls (n, acc)
  = Ok (n + length urls,
        acc ++ sheet_fonts URL_href URL_hostname fetch useCorsProxy n urls).
Proof.
  induction urls as [|u urls IH]; intros n acc; simpl.
  - now rewrite app_nil_r, Nat.add_0_r.
  - destruct (fetch n _) as [r|]; cbn [bind try_catch].
    + destruct (App.ok r).
      * rewrite parsed_eq. cbn [bind try_catch]. rewrite IH.
        now rewrite <- app_assoc, Nat.add_succ_r.
      * cbn [bind try_catch]. rewrite IH. now rewrite Nat.add_succ_r.
    + rewrite IH. now rewrite Nat.add_succ_r.
Qed.

Lemma google_steps links : forall acc,
  fold_left (FontExtractorPage.google_step URL_searchParam) links acc
  = acc ++ google_fonts URL_searchParam
             {| FontExtractorPage.styleLinks := [];
                FontExtractorPage.inlineStyles := [];
                FontExtractorPage.googleFontsLinks := links |}.
Proof.
  unfold google_fonts. cbn [FontExtractorPage.googleFontsLinks].
  induction links as [|href links IH]; intros acc; simpl.
  - now rewrite app_nil_r.
  - rewrite IH. destruct href as [[|c h]|]; simpl; try reflexivity.
    now rewrite <- app_assoc.
Qed.

Lemma extractFontsFromCSS_eq url useCorsProxy :
  FontExtractorPage.extractFontsFromCSS URL_href URL_hostname URL_searchParam
    fetch network_error parseFromString inherited_text url useCorsProxy
  = match fetch 0 (FontExtractorPage.proxied useCorsProxy url) with
    | None => Throw network_error
    | Some r =>
        if negb (App.ok r)
        then Throw (Error (js "Failed to fetch: " ++ number_text (App.status r)))
        else if FontExtractorPage.bot_protected (App.body r)
        then Throw (Error (js "Site is protected by anti-bot measures. Try using a different URL or the demo."))
        else Ok (FontExtractor.dedupe inherited_text
                   (page_fonts URL_href URL_hostname URL_searchParam fetch
                      url useCorsProxy (parseFromString (App.body r))))
    end.
Proof.
  unfold FontExtractorPage.extractFontsFromCSS.
  destruct (fetch 0 _) as [r|]; [|reflexivity]. cbn [bind].
  destruct (App.ok r); [|reflexivity]. cbn [negb].
  destruct (FontExtractorPage.bot_protected (App.body r)); [reflexivity|].
  rewrite inline_steps. cbn [bind app].
  rewrite link_steps. cbn [app].
  rewrite sheet_steps. cbn [bind snd try_catch].
  rewrite google_steps.
  unfold page_fonts, inline_fonts, sheet_urls, google_fonts.
  cbn [FontExtractorPage.styleLinks FontExtractorPage.inlineStyles
       FontExtractorPage.googleFontsLinks].
  now rewrite <- app_assoc.
Qed.
End PageFacts.

Section PageResults.
Variable URL_href : jsstring -> jsstring -> option jsstring.
Variable URL_hostname : jsstring -> option jsstring.
Variable URL_searchParam : jsstring -> jsstring -> option (option jsstring).
Variable fetch : nat -> jsstring -> option App.Response.
Variable network_error : exn.
Variable parseFromString : jsstring -> FontExtractorPage.Document.
Variable inherited_text : jsstring -> jsstring.

Local Abbreviation extractFontsFromCSS :=
  (FontExtractorPage.extractFontsFromCSS URL_href URL_hostname URL_searchParam
     fetch network_error parseFromString inherited_text).
Local Abbreviation fonts_of_page :=
  (page_fonts URL_href URL_hostname URL_searchParam fetch).

(** X13. extractFontsFromCSS returns exactly when the page loads with an ok
    status and holds none of the bot protection markers, and then it returns
    dedupe of the descriptors of the inline styles, then of the style sheets
    that load, then of the Google Fonts links: a style sheet that fails to
    load, or any style sheet text, cannot make the call fail.  When it
    fails, the error is that of the rejected fetch or an Error. *)
Theorem extractFontsFromCSS_outcome :
  forall (url : jsstring) (useCorsProxy : bool),
    let result := extractFontsFromCSS url useCorsProxy in
    (forall fonts,
       result = Ok fonts <->
       exists r, fetch 0 (FontExtractorPage.proxied useCorsProxy url) = Some r /\
                 App.ok r = true /\
                 FontExtractorPage.bot_protected (App.body r) = false /\
                 fonts = FontExtractor.dedupe inherited_text
                           (fonts_of_page url useCorsProxy (parseFromString (App.body r)))) /\
    result <> Diverge /\
    (forall e, result = Throw e ->
               (e = network_error /\
                fetch 0 (FontExtractorPage.proxied useCorsProxy url) = None) \/
               exists message, e = Error message).
Proof.
  intros url useCorsProxy result. subst result.
  rewrite extractFontsFromCSS_eq.
  destruct (fetch 0 _) as [r|].
  - destruct (App.ok r) eqn:Eok; cbn [negb].
    + destruct (FontExtractorPage.bot_protected (App.body r)) eqn:Ebot.
      * split; [|split; [discriminate|]].
        -- intros fonts. split; [discriminate|].
           intros (r' & [= <-] & _ & ? & _). congruence.
        -- intros e [= <-]. right. eauto.
      * split; [|split; discriminate].
        intros fonts. split.
        -- intros [= <-]. exists r. auto.
        -- intros (r' & [= <-] & _ & _ & ->). reflexivity.
    + split; [|split; [discriminate|]].
      * intros fonts. split; [discriminate|].
        intros (r' & [= <-] & ? & _). congruence.
      * intros e [= <-]. right. eauto.
  - split; [|split; [discriminate|]].
    + intros fonts. split; [discriminate|]. intros (r' & ? & _). discriminate.
    + intros e [= <-]. left. auto.
Qed.

Lemma parsed_shape cssText baseUrl :
  Forall (fun d => weight_ok (weight d) /\ url d <> None /\ format d <> None)
         (parsed URL_href URL_hostname cssText baseUrl).
Proof.
  pose proof (parsed_eq URL_href URL_hostname cssText baseUrl) as E.
  pose proof (parse_weights_styles _ _ _ _ E) as H1.
  assert (H2 : Forall (fun d => url d <> None /\ format d <> None)
                      (parsed URL_href URL_hostname cssText baseUrl)).
  { apply parseFontFaces_keeps with (2 := E).
    intros fam wt sty raw fmt full host _ _. split; discriminate. }
  rewrite Forall_forall in *. intros d Hd.
  destruct (H1 d Hd) as [Hw _]. destruct (H2 d Hd). auto.
Qed.

Lemma sheet_fonts_shape useCorsProxy urls : forall n,
  Forall (fun d => weight_ok (weight d) /\ url d <> None /\ format d <> None)
         (sheet_fonts URL_href URL_hostname fetch useCorsProxy n urls).
Proof.
  induction urls as [|u urls IH]; intros n; simpl; [constructor|].
  apply Forall_app. split; [|apply IH].
  destruct (fetch n _) as [r|]; [|constructor].
  destruct (App.ok r); [apply parsed_shape | constructor].
Qed.

(** X14. No two descriptors that extractFontsFromCSS returns have the same
    key; each of them has a weight that is a non-empty string of digits; and
    each either has a url and a format, or comes from a Google Fonts link
    and has the source Google Fonts, no url and no format. *)
Theorem extractFontsFromCSS_descriptors :
  forall (pageUrl : jsstring) (useCorsProxy : bool),
    match extractFontsFromCSS pageUrl useCorsProxy with
    | Ok fonts =>
        NoDup (map (FontExtractor.key_of inherited_text) fonts) /\
        Forall (fun d => weight_ok (weight d) /\
                         ((url d <> None /\ format d <> None) \/
                          (source d = js "Google Fonts" /\ url d = None /\
                           format d = None))) fonts
    | _ => True
    end.
Proof.
  intros pageUrl useCorsProxy. rewrite extractFontsFromCSS_eq.
  destruct (fetch 0 _) as [r|]; [|exact I].
  destruct (App.ok r); cbn [negb]; [|exact I].
  destruct (FontExtractorPage.bot_protected (App.body r)); [exact I|].
  rewrite dedupe_first_wins. split; [apply first_wins_NoDup|].
  apply Forall_forall. intros d Hd.
  apply first_wins_In in Hd. destruct Hd as (l1 & l2 & E & _).
  assert (Hin : In d (fonts_of_page pageUrl useCorsProxy (parseFromString (App.body r))))
    by (rewrite E; apply in_elt).
  clear E. unfold page_fonts in Hin. rewrite !in_app_iff in Hin.
  destruct Hin as [Hin|[Hin|Hin]].
  - unfold inline_fonts in Hin. apply in_flat_map in Hin.
    destruct Hin as (t & _ & Hin). destruct (present t); [|contradiction].
    pose proof (parsed_shape j pageUrl) as H. rewrite Forall_forall in H.
    destruct (H d Hin) as (? & ? & ?). auto.
  - pose proof (sheet_fonts_shape useCorsProxy
                  (sheet_urls URL_href pageUrl (parseFromString (App.body r))) 1) as H.
    rewrite Forall_forall in H. destruct (H d Hin) as (? & ? & ?). auto.
  - unfold google_fonts in Hin. apply in_flat_map in Hin.
    destruct Hin as (t & _ & Hin). destruct (present t); [|contradiction].
    apply parseGoogleFontsUrl_descriptor in Hin.
    destruct Hin as (? & ? & ? & ? & _). auto.
Qed.
End PageResults.

(* ===================================================================== *)
(** * The font map of App.tsx *)
(* ===================================================================== *)

Lemma Map_get_set_other V (m : Map V) k k' v :
  k <> k' -> Map_get (Map_set m k v) k' = Map_get m k'.
Proof.
  intros Hk. induction m as [|[k1 v1] m IH]; simpl.
  - apply str_eqb_neq in Hk. now rewrite Hk.
  - destruct (str_eqb k1 k) eqn:E; simpl.
    + apply str_eqb_eq in E. subst k1.
      apply str_eqb_neq in Hk. now rewrite Hk.
    + destruct (str_eqb k1 k'); auto.
Qed.

Lemma Map_set_keys V (m : Map V) k v :
  map fst (Map_set m k v) = if Map_has m k then map fst m else map fst m ++ [k].
Proof.
  unfold Map_has. induction m as [|[k1 v1] m IH]; simpl; [reflexivity|].
  destruct (str_eqb k1 k) eqn:E; simpl; [reflexivity|].
  rewrite IH. now destruct (existsb _ m).
Qed.

Lemma Map_get_has V (m : Map V) k : Map_has m k = false -> Map_get m k = None.
Proof.
  unfold Map_has. induction m as [|[k1 v1] m IH]; simpl; [reflexivity|].
  intros H. apply orb_false_iff in H. destruct H as [H1 H2]. rewrite H1. auto.
Qed.

Lemma Map_get_In V (m : Map V) k v :
  NoDup (map fst m) -> In (k, v) m -> Map_get m k = Some v.
Proof.
  induction m as [|[k1 v1] m IH]; intros Hnd Hin; simpl in *; [contradiction|].
  inversion Hnd as [|x xs Hk1 Hm]; subst.
  destruct Hin as [[= -> ->]|Hin].
  - now rewrite str_eqb_refl.
  - destruct (str_eqb k1 k) eqn:E; [|auto].
    apply str_eqb_eq in E. subst k1. exfalso. apply Hk1.
    change k with (fst (k, v)). now apply in_map.
Qed.

Lemma weight_style_absent weight style ws :
  existsb (fun w => str_eqb (App.weight w) weight && str_eqb (App.style w) style) ws
  = false ->
  ~ In (weight, style) (map weight_style ws).
Proof.
  intros H Hin. apply in_map_iff in Hin. destruct Hin as (w & E & Hin).
  assert (Ht : existsb (fun w => str_eqb (App.weight w) weight
                                 && str_eqb (App.style w) style) ws = true).
  { apply existsb_exists. exists w. split; [exact Hin|].
    unfold weight_style in E. injection E as -> ->. now rewrite !str_eqb_refl. }
  congruence.
Qed.

Lemma grows_refl m : grows m m.
Proof.
  split; [apply extends_refl|]. intros k ws H. exists []. now rewrite app_nil_r.
Qed.

Lemma grows_trans m1 m2 m3 : grows m1 m2 -> grows m2 m3 -> grows m1 m3.
Proof.
  intros [E1 G1] [E2 G2]. split; [eapply extends_trans; eassumption|].
  intros k ws H. destruct (G1 _ _ H) as [more1 H1].
  destruct (G2 _ _ H1) as [more2 H2]. exists (more1 ++ more2).
  now rewrite app_assoc.
Qed.

(** Adding a weight keeps the map good and only adds to it. *)
Lemma add_to_map_good m family weight style fontUrl format m' :
  good_map m ->
  App.add_to_map m family weight style fontUrl format = Ok m' ->
  good_map m' /\ grows m m'.
Proof.
  intros [Hnd Hws]. unfold App.add_to_map.
  destruct (Map_has m family) eqn:Eh; cbn [negb].
  - destruct (Map_has_get _ _ Eh) as [ws Hget]. rewrite Hget. cbn [defined bind].
    destruct (existsb _ ws) eqn:Eex; cbn [negb]; intros [= <-].
    + split; [split; assumption | apply grows_refl].
    + destruct (Hws _ _ Hget) as [_ Hndw].
      split; [split|split].
      * now rewrite Map_set_keys, Eh.
      * intros k ws'. destruct (str_eqb family k) eqn:Ek.
        -- apply str_eqb_eq in Ek. subst k. rewrite Map_get_set. intros [= <-].
           split; [now destruct ws|].
           rewrite map_app. apply NoDup_app; [exact Hndw | repeat constructor; auto|].
           intros x Hx [<-|[]]. revert Hx. now apply weight_style_absent.
        -- apply str_eqb_neq in Ek. rewrite Map_get_set_other by exact Ek. apply Hws.
      * rewrite Map_set_keys, Eh. apply extends_refl.
      * intros k ws' Hk. destruct (str_eqb family k) eqn:Ek.
        -- apply str_eqb_eq in Ek. subst k. rewrite Map_get_set.
           rewrite Hget in Hk. injection Hk as <-. eauto.
        -- apply str_eqb_neq in Ek. rewrite Map_get_set_other by exact Ek.
           exists []. now rewrite app_nil_r.
  - rewrite Map_get_set. cbn [defined bind existsb negb app]. intros [= <-].
    assert (Hkeys : map fst (Map_set (Map_set m family []) family
                      [ {| App.weight := weight; App.style := style;
                           App.url := fontUrl; App.format := format |} ])
                    = map fst m ++ [family]).
    { rewrite (@Map_set_fresh _ _ _ _ Eh), (@Map_set_last _ _ _ _ _ Eh).
      rewrite map_app. reflexivity. }
    split; [split|split].
    + rewrite Hkeys. apply NoDup_app; [exact Hnd | repeat constructor; auto|].
      intros x Hx [<-|[]]. apply Map_has_not_In in Eh. contradiction.
    + intros k ws'. destruct (str_eqb family k) eqn:Ek.
      * apply str_eqb_eq in Ek. subst k. rewrite Map_get_set. intros [= <-].
        split; [discriminate | repeat constructor; auto].
      * apply str_eqb_neq in Ek. rewrite !Map_get_set_other by exact Ek. apply Hws.
    + rewrite Hkeys. eexists. reflexivity.
    + intros k ws' Hk. destruct (str_eqb family k) eqn:Ek.
      * apply str_eqb_eq in Ek. subst k.
        rewrite (Map_get_has _ _ Eh) in Hk. discriminate.
      * apply str_eqb_neq in Ek. rewrite !Map_get_set_other by exact Ek.
        exists []. now rewrite app_nil_r.
Qed.

Section AppMap.
Variable URL_href : jsstring -> jsstring -> option jsstring.

(** A block leaves the map as it was or adds one weight to it. *)
Lemma App_block_step_cases baseUrl fontMap m fontMap' :
  App.block_step URL_href baseUrl fontMap m = Ok fontMap' ->
  fontMap' = fontMap \/
  exists family weight style fontUrl format,
    App.add_to_map fontMap family weight style fontUrl format = Ok fontMap'.
Proof.
  unfold App.block_step.
  destruct (capture 1 m) as [block|]; [|discriminate]. cbn [defined bind].
  destruct (str_match App.familyRegex block) as [fm|]; [|intros [= <-]; auto].
  destruct (capture 1 fm) as [f|]; [|discriminate]. cbn [defined bind].
  destruct (match str_match App.weightRegex block with
            | Some wm => _ | None => _ end) as [weight| |]; try discriminate.
  cbn [bind].
  destruct (match str_match App.styleRegex block with
            | Some sm => _ | None => _ end) as [style| |]; try discriminate.
  cbn [bind].
  destruct (str_match App.srcRegex block) as [sm|]; [|intros [= <-]; auto].
  destruct (capture 1 sm) as [srcValue|]; [|discriminate]. cbn [defined bind].
  destruct (match str_match App.urlFormatRegex srcValue with
            | Some um => _ | None => _ end) as [[u fmt]| |]; try discriminate.
  cbn [bind fst snd].
  destruct u as [|c u]; [intros [= <-]; auto|].
  intros H. right. eauto 10.
Qed.

Lemma App_parseFontFaces_good css fontMap baseUrl fontMap' :
  good_map fontMap ->
  App.parseFontFaces URL_href css fontMap baseUrl = Ok fontMap' ->
  good_map fontMap' /\ grows fontMap fontMap'.
Proof.
  intros Hgood. unfold App.parseFontFaces.
  apply for_each_match_inv with (P := fun m => good_map m /\ grows fontMap m).
  - intros st u u1 m st' _ [Hg Hgr] Hb.
    apply App_block_step_cases in Hb.
    destruct Hb as [->|(fam & w & s & fu & fmt & Hadd)]; [auto|].
    destruct (add_to_map_good _ _ _ _ _ Hg Hadd) as [Hg' Hgr'].
    split; [exact Hg' | eapply grows_trans; eassumption].
  - split; [exact Hgood | apply grows_refl].
Qed.
End AppMap.

(** X15. Run on a font map without a repeated family, without a family that
    has no weight and without a repeated weight and style in a family, the
    inline parser of App.tsx completes and gives such a map again; the
    families that were there keep their place and their weights, with any new
    weights after them. *)
Theorem App_parseFontFaces_grows :
  forall (URL_href : jsstring -> jsstring -> option jsstring)
         (css : jsstring) (fontMap : Map (list App.FontWeight))
         (baseUrl : option jsstring),
    good_map fontMap ->
    exists fontMap',
      App.parseFontFaces URL_href css fontMap baseUrl = Ok fontMap' /\
      good_map fontMap' /\ grows fontMap fontMap'.
Proof.
  intros URL_href css fontMap baseUrl Hgood.
  destruct (App_parseFontFaces_ok URL_href css fontMap baseUrl) as [fontMap' E].
  exists fontMap'. split; [exact E|].
  eapply App_parseFontFaces_good; eassumption.
Qed.

Lemma good_map_nil : good_map [].
Proof. split; [constructor | intros k ws H; discriminate]. Qed.

Lemma App_parseFontFaces_grows_witness :
  exists fontMap',
    App.parseFontFaces Examples.URL_href Examples.css_lighter [] (Some Examples.base)
    = Ok fontMap' /\
    good_map fontMap' /\ grows [] fontMap'.
Proof.
  apply (@App_parseFontFaces_grows Examples.URL_href Examples.css_lighter []
           (Some Examples.base)).
  split; [constructor | intros k ws H; discriminate H].
Defined.

(* ===================================================================== *)
(** * extractFonts of App.tsx *)
(* ===================================================================== *)

Lemma for_each_ok A St (body : St -> A -> outcome St) (P : St -> Prop) :
  (forall st x, P st -> exists st', body st x = Ok st' /\ P st') ->
  forall l st, P st -> exists st', for_each body l st = Ok st' /\ P st'.
Proof.
  intros Hbody. induction l as [|x l IH]; intros st Hst; simpl; [eauto|].
  destruct (Hbody st x Hst) as (st1 & -> & H1). simpl. auto.
Qed.

Lemma try_proxies_settles fetch targetUrl : forall proxies,
  snd (App.try_proxies fetch proxies targetUrl) <> Diverge.
Proof.
  induction proxies as [|p proxies IH]; simpl; [discriminate|].
  destruct (fetch _) as [r|]; [destruct (App.ok r); [discriminate|]|];
    destruct (App.try_proxies fetch proxies targetUrl); exact IH.
Qed.

Section AppPageFacts.
Variable URL_href : jsstring -> jsstring -> option jsstring.
Variable fetch : nat -> jsstring -> option App.Response.
Variable parseFromString : jsstring -> AppPage.Document.

Lemma load_sheet_good n fontMap target base :
  target <> Diverge -> good_map fontMap ->
  exists fontMap', AppPage.load_sheet URL_href fetch n fontMap target base = Ok fontMap'
                   /\ good_map fontMap'.
Proof.
  intros Ht Hgood. unfold AppPage.load_sheet.
  destruct target as [u|e|]; [|simpl; eauto | contradiction]. cbn [bind].
  pose proof (@try_proxies_settles (fetch n) u App.CORS_PROXIES) as Hf.
  unfold App.fetchWithProxy.
  destruct (snd (App.try_proxies (fetch n) App.CORS_PROXIES u)) as [r|e|];
    [|simpl; eauto | contradiction]. cbn [bind].
  destruct (App_parseFontFaces_ok URL_href (App.body r) fontMap (base u)) as [m' E].
  rewrite E. cbn [try_catch]. exists m'. split; [reflexivity|].
  eapply App_parseFontFaces_good; eassumption.
Qed.

Lemma extractFonts_good (html baseUrl : jsstring) :
  exists groups,
    AppPage.extractFonts URL_href fetch parseFromString html baseUrl = Ok groups /\
    NoDup (map AppPage.family groups) /\
    Forall (fun g => AppPage.weights g <> [] /\
                     NoDup (map weight_style (AppPage.weights g))) groups.
Proof.
  unfold AppPage.extractFonts.
  destruct (@for_each_ok _ _ (AppPage.google_step URL_href fetch)
              (fun st => good_map (snd st)))
    with (l := AppPage.googleLinks (parseFromString html))
         (st := (0, @nil (jsstring * list App.FontWeight)))
    as (st1 & -> & H1).
  { intros [n m] href Hm. simpl in Hm. unfold AppPage.google_step.
    destruct href as [[|c h]|]; cbn [bind]; eauto.
    destruct (@load_sheet_good n m (@Ok jsstring (c :: h)) (fun _ : jsstring => @None jsstring)) as (m' & -> & Hm');
      [discriminate | exact Hm | simpl; eauto]. }
  { apply good_map_nil. }
  cbn [bind].
  destruct (@for_each_ok _ _ (AppPage.style_step URL_href fetch baseUrl)
              (fun st => good_map (snd st)))
    with (l := AppPage.styleLinks (parseFromString html)) (st := st1)
    as (st2 & -> & H2).
  { intros [n m] href Hm. simpl in Hm. unfold AppPage.style_step.
    destruct href as [[|c h]|]; cbn [bind]; eauto.
    destruct (negb (includes (c :: h) (js "fonts.googleapis.com"))); cbn [bind]; eauto.
    destruct (@load_sheet_good n m
                (FontExtractor.new_URL_href URL_href (c :: h) baseUrl)
                (fun fullUrl => Some fullUrl)) as (m' & -> & Hm');
      [|exact Hm | simpl; eauto].
    unfold FontExtractor.new_URL_href. destruct (URL_href _ _); discriminate. }
  { exact H1. }
  cbn [bind].
  destruct (@for_each_ok _ _ (AppPage.inline_step URL_href baseUrl) good_map)
    with (l := AppPage.inlineStyles (parseFromString html)) (st := snd st2)
    as (m & -> & [Hnd Hws]).
  { intros m t Hm. unfold AppPage.inline_step.
    destruct t as [[|c t]|]; eauto.
    destruct (App_parseFontFaces_ok URL_href (c :: t) m (Some baseUrl)) as [m' E].
    exists m'. split; [exact E|]. eapply App_parseFontFaces_good; eassumption. }
  { exact H2. }
  cbn [bind]. eexists. split; [reflexivity|]. split.
  - rewrite map_map. cbn [AppPage.family]. exact Hnd.
  - apply Forall_forall. intros g Hg. apply in_map_iff in Hg.
    destruct Hg as ([k ws] & <- & Hin). cbn [AppPage.weights snd fst].
    apply Hws with (k := k). now apply Map_get_In.
Qed.

(** X16. extractFonts of App.tsx always completes, whatever the page links
    to and whatever the relays answer; the groups it returns have distinct
    families, each with at least one weight and with no weight and style
    twice. *)
Theorem App_extractFonts_groups :
  forall html baseUrl : jsstring,
    exists groups,
      AppPage.extractFonts URL_href fetch parseFromString html baseUrl = Ok groups /\
      NoDup (map AppPage.family groups) /\
      Forall (fun g => AppPage.weights g <> [] /\
                       NoDup (map weight_style (AppPage.weights g))) groups.
Proof. exact extractFonts_good. Qed.
End AppPageFacts.

(* ===================================================================== *)
(** * convertFont of App.tsx *)
(* ===================================================================== *)

Lemma strict_eq_true v s : strict_eq v s = true -> v = VStr s.
Proof.
  destruct v as [t|name]; simpl; [|discriminate].
  intros H. apply str_eqb_eq in H. now subst.
Qed.

Lemma strict_eq_false v s : v <> VStr s -> strict_eq v s = false.
Proof.
  intros H. destruct (strict_eq v s) eqn:E; [|reflexivity].
  apply strict_eq_true in E. contradiction.
Qed.

(** What the format table gives is never the empty string. *)
Lemma formatMap_truthy k v :
  get_property AppPage.formatMap k = Some v -> truthy v = true.
Proof.
  unfold get_property, AppPage.formatMap. cbn [own_property].
  repeat match goal with
         | |- context [str_eqb k ?x] => destruct (str_eqb k x)
         end;
    try (intros [= <-]; reflexivity).
  destruct (existsb _ _); [intros [= <-]; reflexivity | discriminate].
Qed.

(** The targets for which the library can be asked. *)
Lemma library_targets t :
  In t [AppPage.woff; AppPage.ttf; AppPage.otf] ->
  toLowerCase (AppPage.target_name t) = AppPage.target_name t /\
  str_eqb (AppPage.target_name t) (js "original") = false /\
  or_else (get_property AppPage.formatMap (AppPage.target_name t)) (VStr (js "ttf"))
  = VStr (AppPage.target_name t) /\
  strict_eq (VStr (AppPage.target_name t)) (js "woff2") = false.
Proof.
  intros [<-|[<-|[<-|[]]]]; repeat split.
Qed.

(** X17. convertFont of App.tsx asks the font library exactly when the target
    is woff, ttf or otf and the normalized source format is another name,
    found in the format table and not mapped to woff2: then it returns what
    the library wrote, with the target as extension, and the buffer as it is
    when the library fails.  In every other case (the targets original and
    woff2, a source format equal to the target, unknown to the table or
    mapped to woff2) it returns the buffer as it is.  As it is means: with
    the normalized source format as extension, or woff2 when that is
    empty. *)
Theorem convertFont_as_is_or_written :
  forall (Font_write : jsstring -> jsval -> jsval -> option jsstring)
         (buffer sourceFormat : jsstring) (targetFormat : AppPage.TargetFormat),
    let srcFmt := remove_first "-" (toLowerCase sourceFormat) in
    let target := AppPage.target_name targetFormat in
    let as_is := {| AppPage.data := buffer;
                    AppPage.ext := match srcFmt with [] => js "woff2" | _ => srcFmt end |} in
    let r := AppPage.convertFont Font_write buffer sourceFormat targetFormat in
    (forall sourceType,
        In targetFormat [AppPage.woff; AppPage.ttf; AppPage.otf] ->
        srcFmt <> target ->
        get_property AppPage.formatMap srcFmt = Some sourceType ->
        sourceType <> VStr (js "woff2") ->
        r = match Font_write buffer sourceType (VStr target) with
            | Some converted => {| AppPage.data := converted; AppPage.ext := target |}
            | None => as_is
            end) /\
    (targetFormat = AppPage.original \/ targetFormat = AppPage.woff2 \/
     srcFmt = target \/
     get_property AppPage.formatMap srcFmt = None \/
     get_property AppPage.formatMap srcFmt = Some (VStr (js "woff2")) ->
     r = as_is) /\
    ((targetFormat = AppPage.original \/ targetFormat = AppPage.woff2 \/
      srcFmt = target \/
      get_property AppPage.formatMap srcFmt = None \/
      get_property AppPage.formatMap srcFmt = Some (VStr (js "woff2"))) \/
     (In targetFormat [AppPage.woff; AppPage.ttf; AppPage.otf] /\
      srcFmt <> target /\
      exists sourceType, get_property AppPage.formatMap srcFmt = Some sourceType /\
                         sourceType <> VStr (js "woff2"))).
Proof.
  intros Font_write buffer sourceFormat targetFormat srcFmt target as_is r.
  split; [|split].
  - intros sourceType Ht Hne Hget Hs.
    destruct (library_targets Ht) as (El & Eo & Et & Ew).
    subst r target. unfold AppPage.convertFont. fold srcFmt.
    rewrite El, Eo, Et, Ew, Hget. cbn [orb or_else].
    rewrite (formatMap_truthy _ Hget), (strict_eq_false Hs).
    apply str_eqb_neq in Hne. rewrite Hne. reflexivity.
  - subst r. unfold AppPage.convertFont. fold srcFmt.
    intros [->|[->|[E|[E|E]]]].
    + reflexivity.
    + change (toLowerCase (AppPage.target_name AppPage.woff2)) with (js "woff2").
      change (or_else (get_property AppPage.formatMap (js "woff2")) (VStr (js "ttf")))
        with (VStr (js "woff2")).
      change (strict_eq (VStr (js "woff2")) (js "woff2")) with true.
      rewrite orb_true_r. now destruct (_ || _).
    + assert (El : toLowerCase target = target) by (subst target; now destruct targetFormat).
      subst target. rewrite El.
      replace (str_eqb srcFmt (AppPage.target_name targetFormat)) with true
        by (symmetry; apply str_eqb_eq; exact E).
      rewrite orb_true_r. reflexivity.
    + rewrite E. cbn [or_else strict_eq]. rewrite str_eqb_refl. cbn [orb].
      now destruct (_ || _).
    + rewrite E. cbn [or_else truthy js list_ascii_of_string strict_eq].
      rewrite str_eqb_refl. cbn [orb]. now destruct (_ || _).
  - destruct targetFormat; auto;
      (destruct (str_eqb srcFmt target) eqn:Es;
       [apply str_eqb_eq in Es; auto | apply str_eqb_neq in Es]);
      (destruct (get_property AppPage.formatMap srcFmt) as [v|] eqn:Eg; [|auto 6]);
      (destruct (strict_eq v (js "woff2")) eqn:Ev;
       [apply strict_eq_true in Ev; subst v; auto 6|]);
      right; (split; [simpl; auto|]); (split; [exact Es|]);
      exists v; (split; [reflexivity|]); intros ->; discriminate Ev.
Qed.

Lemma convertFont_as_is_or_written_witness :
  AppPage.convertFont (fun _ _ _ => Some (js "written")) (js "bytes") (js "TrueType")
    AppPage.woff
  = {| AppPage.data := js "written"; AppPage.ext := js "woff" |} /\
  AppPage.convertFont (fun _ _ _ => Some (js "written")) (js "bytes")
    (js "woff2-variations") AppPage.ttf
  = {| AppPage.data := js "bytes"; AppPage.ext := js "woff2variations" |}.
Proof.
  split.
  - apply (proj1 (convertFont_as_is_or_written (fun _ _ _ => Some (js "written"))
                    (js "bytes") (js "TrueType") AppPage.woff) (VStr (js "ttf")));
      [simpl; auto | discriminate | reflexivity | discriminate].
  - apply (proj1 (proj2 (convertFont_as_is_or_written (fun _ _ _ => Some (js "written"))
                           (js "bytes") (js "woff2-variations") AppPage.ttf))).
    right. right. right. left. reflexivity.
Defined.

(* ===================================================================== *)
(** * analyze and download of App.tsx *)
(* ===================================================================== *)

Lemma target_of_http input : startsWith (target_of input) (js "http") = true.
Proof.
  unfold target_of.
  destruct (startsWith (trim input) (js "http")) eqn:E; [exact E | reflexivity].
Qed.

Section AppViewFacts.
Variable URL_href : jsstring -> jsstring -> option jsstring.
Variable fetch : nat -> jsstring -> option App.Response.
Variable parseFromString : jsstring -> AppPage.Document.

(** X18. analyze of App.tsx always completes.  For a blank input it only
    sets the error Enter a URL.  Otherwise the URL it loads begins with
    http, loading is off at the end, and: when every relay fails for the
    page the error is Could not fetch page and no font is shown; when a
    relay answers, extractFonts cannot fail, the groups it returns are
    shown, and the error is No @font-face rules found exactly when there is
    no group. *)
Theorem App_analyze_outcome :
  forall s : AppView.State,
    exists s',
      AppView.analyze URL_href fetch parseFromString s = Ok s' /\
      match trim (AppView.url s) with
      | [] => s' = AppView.setError s (js "Enter a URL")
      | _ =>
          let targetUrl := target_of (AppView.url s) in
          startsWith targetUrl (js "http") = true /\
          AppView.loading s' = false /\ AppView.analyzed s' = true /\
          match snd (App.fetchWithProxy (fetch 0) targetUrl) with
          | Ok response =>
              exists groups,
                AppPage.extractFonts URL_href (fun n => fetch (S n)) parseFromString
                  (App.body response) targetUrl = Ok groups /\
                AppView.fonts s' = groups /\
                AppView.error s' =
                match groups with
                | [] => js "No @font-face rules found on this page"
                | _ => []
                end
          | _ =>
              AppView.fonts s' = [] /\
              AppView.error s' = js "Could not fetch page. Try a different URL."
          end
      end.
Proof.
  intros s. unfold AppView.analyze.
  pose proof (target_of_http (AppView.url s)) as Hhttp.
  unfold target_of in *.
  destruct (trim (AppView.url s)) as [|c t] eqn:Et; [eauto|].
  cbv zeta.
  destruct (negb (startsWith (c :: t) (js "http")));
    match goal with
    | |- context [App.fetchWithProxy (fetch 0) ?u] =>
        pose proof (@try_proxies_settles (fetch 0) u App.CORS_PROXIES) as Hf;
        unfold App.fetchWithProxy in *;
        destruct (snd (App.try_proxies (fetch 0) App.CORS_PROXIES u))
          as [response|e|]; [| |contradiction]
    end;
    cbn [bind try_catch];
    try (eexists; split; [reflexivity|]; split; [exact Hhttp|]; repeat split).
  all: match goal with
       | |- context [AppPage.extractFonts _ _ _ ?html ?u] =>
           destruct (extractFonts_good URL_href (fun n => fetch (S n)) parseFromString
                       html u) as (groups & E & _)
       end;
    rewrite E; cbn [bind];
    destruct groups as [|g groups]; cbn [try_catch bind]; eexists;
      (split; [reflexivity|]); (split; [exact Hhttp|]);
      (split; [reflexivity|]); (split; [reflexivity|]);
      eexists; (split; [reflexivity|]); split; reflexivity.
Qed.
End AppViewFacts.

Lemma file_stem_safe family :
  forallb name_safe (AppView.file_stem family) = true /\
  length (AppView.file_stem family) = length family.
Proof.
  unfold AppView.file_stem. split; [|apply length_map].
  induction family as [|c family IH]; simpl; [reflexivity|].
  rewrite IH, andb_true_r. unfold name_safe.
  destruct (is_alnum c) eqn:E; [now rewrite E | reflexivity].
Qed.

Section DownloadOutcome.
Variable fetch_direct : jsstring -> option App.Response.
Variable fetch : jsstring -> option App.Response.
Variable Font_write : jsstring -> jsval -> jsval -> option jsstring.

(** X19. download of App.tsx always completes.  It opens the font URL in a
    new window exactly when the direct fetch and every relay fail.
    Otherwise it saves what convertFont makes of the body of the direct
    response, if that is ok, and else of the first relay that answers ok;
    the file name is the family with every code unit that is not a letter
    or a digit turned into a hyphen, then a hyphen, the weight, a dot and
    the extension that convertFont gives. *)
Theorem App_download_outcome :
  forall (fontUrl family weight originalFormat : jsstring)
         (selectedFormat : AppPage.TargetFormat),
    exists d,
      AppView.download fetch_direct fetch Font_write fontUrl family weight
        originalFormat selectedFormat = Ok d /\
      match d with
      | AppView.Opened u =>
          u = fontUrl /\ failed (fetch_direct fontUrl) /\
          Forall (fun p => failed (fetch (request_for fontUrl p))) App.CORS_PROXIES
      | AppView.Saved data name =>
          exists r,
            ((fetch_direct fontUrl = Some r /\ App.ok r = true) \/
             (failed (fetch_direct fontUrl) /\
              exists before p after,
                App.CORS_PROXIES = before ++ p :: after /\
                Forall (fun q => failed (fetch (request_for fontUrl q))) before /\
                fetch (request_for fontUrl p) = Some r /\ App.ok r = true)) /\
            let c := AppPage.convertFont Font_write (App.body r) originalFormat
                       selectedFormat in
            data = AppPage.data c /\
            name = AppView.file_stem family ++ js "-" ++ weight ++ js "."
                   ++ AppPage.ext c /\
            forallb name_safe (AppView.file_stem family) = true
      end.
Proof.
  intros fontUrl family weight originalFormat selectedFormat.
  unfold AppView.download.
  assert (Hproxy :
    failed (fetch_direct fontUrl) ->
    exists d,
      try_catch
        (blob <- (proxyResponse <- snd (App.fetchWithProxy fetch fontUrl) ;;
                  Ok (App.body proxyResponse)) ;;
         Ok (AppView.Saved
               (AppPage.data (AppPage.convertFont Font_write blob originalFormat
                                selectedFormat))
               (AppView.file_stem family ++ js "-" ++ weight ++ js "."
                ++ AppPage.ext (AppPage.convertFont Font_write blob originalFormat
                                  selectedFormat))))
        (fun _ => Ok (AppView.Opened fontUrl)) = Ok d /\
      match d with
      | AppView.Opened u =>
          u = fontUrl /\ failed (fetch_direct fontUrl) /\
          Forall (fun p => failed (fetch (request_for fontUrl p))) App.CORS_PROXIES
      | AppView.Saved data name =>
          exists r,
            ((fetch_direct fontUrl = Some r /\ App.ok r = true) \/
             (failed (fetch_direct fontUrl) /\
              exists before p after,
                App.CORS_PROXIES = before ++ p :: after /\
                Forall (fun q => failed (fetch (request_for fontUrl q))) before /\
                fetch (request_for fontUrl p) = Some r /\ App.ok r = true)) /\
            let c := AppPage.convertFont Font_write (App.body r) originalFormat
                       selectedFormat in
            data = AppPage.data c /\
            name = AppView.file_stem family ++ js "-" ++ weight ++ js "."
                   ++ AppPage.ext c /\
            forallb name_safe (AppView.file_stem family) = true
      end).
  { intros Hdirect. unfold App.fetchWithProxy.
    pose proof (try_proxies_spec fetch fontUrl App.CORS_PROXIES) as Hspec.
    destruct (App.try_proxies fetch App.CORS_PROXIES fontUrl) as [log [r|e|]];
      cbn [snd bind try_catch].
    - destruct Hspec as (before & p & after & E & _ & Hp & Hok & Hb).
      eexists. split; [reflexivity|]. exists r. split.
      + right. split; [exact Hdirect|]. exists before, p, after. auto.
      + cbv zeta. split; [reflexivity|]. split; [reflexivity|]. apply file_stem_safe.
    - destruct Hspec as (_ & _ & Hall). eexists. split; [reflexivity|].
      split; [reflexivity|]. split; [exact Hdirect | exact Hall].
    - contradiction. }
  destruct (fetch_direct fontUrl) as [r|] eqn:Ed.
  - destruct (App.ok r) eqn:Eok.
    + cbn [try_catch bind]. eexists. split; [reflexivity|].
      exists r. split; [left; auto|]. cbv zeta.
      split; [reflexivity|]. split; [reflexivity|]. apply file_stem_safe.
    + cbn [try_catch]. apply Hproxy. exact Eok.
  - cbn [try_catch]. apply Hproxy. exact I.
Qed.
End DownloadOutcome.

(* ===================================================================== *)
(** * analyze of components/FontPeek.tsx *)
(* ===================================================================== *)

Section FontPeekViewFacts.
Variable URL_href : jsstring -> jsstring -> option jsstring.
Variable URL_hostname : jsstring -> option jsstring.
Variable URL_searchParam : jsstring -> jsstring -> option (option jsstring).
Variable fetch : nat -> jsstring -> option App.Response.
Variable network_error : exn.
Variable parseFromString : jsstring -> FontExtractorPage.Document.
Variable inherited_text : jsstring -> jsstring.

(** X20. analyze of FontPeek.tsx always completes, and does nothing for a
    blank input.  Otherwise loading is off at the end, and: when the page
    loads with an ok status and without a bot protection marker, no alert
    is shown and the groups shown are those of the descriptors of the page,
    with distinct families, each with at least one weight and with no
    weight and style twice; in every other case an alert with the message
    of the error is shown and no group. *)
Theorem FontPeek_analyze_outcome :
  forall s : FontPeekView.State,
    exists s' alert,
      FontPeekView.analyze URL_href URL_hostname URL_searchParam fetch network_error
        parseFromString inherited_text s = Ok (s', alert) /\
      match trim (FontPeekView.url s) with
      | [] => s' = s /\ alert = None
      | _ =>
          FontPeekView.url s' = FontPeekView.url s /\
          FontPeekView.isLoading s' = false /\
          match fetch 0 (FontExtractorPage.proxied true (FontPeekView.url s)) with
          | Some r =>
              if App.ok r && negb (FontExtractorPage.bot_protected (App.body r))
              then
                alert = None /\
                FontPeek.groupFontsByFamily
                  (FontExtractor.dedupe inherited_text
                     (page_fonts URL_href URL_hostname URL_searchParam fetch
                        (FontPeekView.url s) true (parseFromString (App.body r))))
                = Ok (FontPeekView.fonts s') /\
                NoDup (map FontPeek.family (FontPeekView.fonts s')) /\
                Forall (fun g =>
                          FontPeek.weights g <> [] /\
                          NoDup (map (fun w => (FontPeek.weight w, FontPeek.style w))
                                     (FontPeek.weights g)))
                       (FontPeekView.fonts s')
              else
                FontPeekView.fonts s' = [] /\
                exists message,
                  alert = Some (FontPeekView.alert_text message)
          | None =>
              FontPeekView.fonts s' = [] /\
              alert = Some (FontPeekView.alert_text
                              (FontPeekView.message_of network_error))
          end
      end.
Proof.
  intros s. unfold FontPeekView.analyze.
  destruct (trim (FontPeekView.url s)) as [|c t]; [eauto|].
  rewrite extractFontsFromCSS_eq.
  destruct (fetch 0 _) as [r|]; [|cbn [bind try_catch]; eauto 10].
  destruct (App.ok r); cbn [negb andb]; [|cbn [bind try_catch]; eauto 10].
  destruct (FontExtractorPage.bot_protected (App.body r)); cbn [negb];
    [cbn [bind try_catch]; eauto 10|].
  cbn [bind]. rewrite groups_eq. cbn [bind try_catch].
  eexists. eexists. split; [reflexivity|].
  cbn [FontPeekView.url FontPeekView.isLoading FontPeekView.fonts].
  split; [reflexivity|]. split; [reflexivity|]. split; [reflexivity|].
  split; [reflexivity|]. split; [apply groups_families_distinct|].
  pose proof (groups_nonempty
                (FontExtractor.dedupe inherited_text
                   (page_fonts URL_href URL_hostname URL_searchParam fetch
                      (FontPeekView.url s) true (parseFromString (App.body r)))))
    as H1.
  pose proof (@groups_weights_distinct inherited_text
                (FontExtractor.dedupe inherited_text
                   (page_fonts URL_href URL_hostname URL_searchParam fetch
                      (FontPeekView.url s) true (parseFromString (App.body r)))))
    as H2.
  rewrite Forall_forall in *. intros g Hg. split; [now apply H1|].
  apply H2; [|exact Hg].
  rewrite dedupe_first_wins. apply first_wins_NoDup.
Qed.
End FontPeekViewFacts.
